(** * MOBO: a bi-objective Bayesian-optimisation round (src/mobo.py)

    Shallow embedding of the class [MOBO] of [src/mobo.py] and the proofs of
    the properties its specification states.

    Conventions of the embedding.
    - A numpy array is a record of a shape and row-major data.  Array cells
      are rationals: arithmetic is exact, rounding, overflow, NaN and Inf of
      binary64 are outside the model.  The one place where the source can
      produce NaN or Inf by itself, a division by zero, is made explicit by a
      checked division.  The one line whose property depends on rounding,
      the scaling of the acquisition scores, is also taken with its
      products rounded ([scale_rounded]) and on binary64 cells ([Binary64]).
    - A Python exception is a value of [exn]; a call that raises returns
      [Err].  [assert] raises [AssertionError].  The [isinstance] assertions
      of the source hold by typing and are not repeated.
    - The functions of the libraries the file imports (bayeso, scipy, numpy's
      random generator, the clock) are collaborators: fields of the record
      [Collaborators].  Those that can depend on anything but their arguments
      (global random state, time) thread an external state of type [W].
    - Three helpers of [bayeso.utils.utils_bo] whose behaviour the
      properties are about (normalization, projection into the bounds,
      choice of the best candidate) are not collaborators: the module
      [utils_bo] models them from the specification.
    - A world carries, besides the external state and the heap, a trace:
      the calls made to the collaborators, in order.  The trace is not in
      the source; it is what statements such as "before the fitter is ever
      called" are about.
    - The collaborators of [optimize] receive array values.  In
      [optimize_by_reference] they receive the array objects, as in Python,
      and may write them.
    - [self.logger.debug] calls are left out: they only run when [debug] is
      set and write to the logger only. *)

From Stdlib Require Import String ZArith QArith Qminmax Qround Qabs List Bool Arith Lia Lqa.
From Stdlib Require PrimFloat.
Import ListNotations.

Set Implicit Arguments.

(** ** Python exceptions and results *)

Inductive exn : Type :=
| AssertionError
| TypeError
| ValueError
| IndexError
| Raised (origin : string).

Inductive result (A : Type) : Type :=
| Ok (a : A)
| Err (e : exn).

Arguments Ok {A} a.
Arguments Err {A} e.

Definition rbind {A B} (r : result A) (k : A -> result B) : result B :=
  match r with
  | Ok a => k a
  | Err e => Err e
  end.

Definition rassert (b : bool) : result unit :=
  if b then Ok tt else Err AssertionError.

Declare Scope res_scope.
Delimit Scope res_scope with res.
Notation "x <- r ;; k" := (rbind r (fun x => k))
  (at level 61, r at next level, right associativity) : res_scope.
Notation "' p <- r ;; k" := (rbind r (fun x => match x with p => k end))
  (at level 61, p pattern, r at next level, right associativity) : res_scope.
Notation "r ;; k" := (rbind r (fun _ => k))
  (at level 61, right associativity) : res_scope.

(** ** numpy arrays *)

Module Np.

Record ndarray : Type := mk_ndarray { shape : list nat; data : list Q }.

Definition size_of (s : list nat) : nat := fold_right Nat.mul 1%nat s.

(** Every numpy array has as many cells as its shape says. *)
Definition wf (a : ndarray) : Prop := length (data a) = size_of (shape a).

Definition ndim (a : ndarray) : nat := length (shape a).

(** [a.shape[i]]: indexing the shape tuple past its end raises. *)
Definition shape_at (a : ndarray) (i : nat) : result nat :=
  match nth_error (shape a) i with
  | Some n => Ok n
  | None => Err IndexError
  end.

(** [np.atleast_2d] on a 1-d array. *)
Definition atleast_2d (a : ndarray) : ndarray :=
  match shape a with
  | [] => mk_ndarray [1; 1]%nat (data a)
  | [n] => mk_ndarray [1%nat; n] (data a)
  | _ => a
  end.

(** [a[np.newaxis, ...]] *)
Definition newaxis (a : ndarray) : ndarray :=
  mk_ndarray (1%nat :: shape a) (data a).

(** [a[i]] for an array of at least one dimension. *)
Definition index (a : ndarray) (i : nat) : result ndarray :=
  match shape a with
  | [] => Err IndexError
  | n :: s =>
      if (i <? n)%nat
      then Ok (mk_ndarray s (firstn (size_of s) (skipn (i * size_of s) (data a))))
      else Err IndexError
  end.

(** [for x in a]: the sub-arrays along the first axis; a 0-d array is not
    iterable. *)
Definition iter (a : ndarray) : result (list ndarray) :=
  match shape a with
  | [] => Err TypeError
  | n :: s =>
      Ok (map (fun i => mk_ndarray s
                 (firstn (size_of s) (skipn (i * size_of s) (data a))))
              (seq 0 n))
  end.

Definition shape_eqb (s t : list nat) : bool :=
  if list_eq_dec Nat.eq_dec s t then true else false.

(** [np.array(l)] for a list of arrays: stacks arrays of one common shape
    along a new first axis; ragged input raises; the empty list gives an
    array of shape [(0,)]. *)
Definition array (l : list ndarray) : result ndarray :=
  match l with
  | [] => Ok (mk_ndarray [0%nat] [])
  | a :: _ =>
      if forallb (fun b => shape_eqb (shape b) (shape a)) l
      then Ok (mk_ndarray (length l :: shape a) (concat (map data l)))
      else Err ValueError
  end.

(** [a[:, [k]]] on a 2-d array: advanced indexing, so the result is a new
    array of shape [(n, 1)], never a view. *)
Definition column (a : ndarray) (k : nat) : result ndarray :=
  match shape a with
  | [n; c] =>
      if (k <? c)%nat
      then Ok (mk_ndarray [n; 1%nat]
                 (map (fun i => nth (i * c + k) (data a) 0%Q) (seq 0 n)))
      else Err IndexError
  | _ => Err IndexError
  end.

(** [np.squeeze(a, axis=1)] *)
Definition squeeze1 (a : ndarray) : result ndarray :=
  match shape a with
  | n :: 1%nat :: s => Ok (mk_ndarray (n :: s) (data a))
  | _ => Err ValueError
  end.

(** The rows of a 2-d array. *)
Definition rows (a : ndarray) : list (list Q) :=
  match shape a with
  | [n; d] => map (fun i => firstn d (skipn (i * d) (data a))) (seq 0 n)
  | _ => []
  end.

(** ** 1-d vectors of scores *)

(** [c * v] for a scalar [c]. *)
Definition vscale (c : Q) (v : list Q) : list Q := map (Qmult c) v.

Fixpoint zip_add (u v : list Q) : list Q :=
  match u, v with
  | x :: u', y :: v' => (x + y)%Q :: zip_add u' v'
  | _, _ => []
  end.

(** [u + v] for 1-d arrays, with numpy's broadcasting: equal lengths add
    cell by cell, a length-1 operand is added to every cell of the other,
    anything else raises. *)
Definition vadd (u v : list Q) : result (list Q) :=
  if (length u =? length v)%nat then Ok (zip_add u v)
  else match u, v with
       | [x], _ => Ok (map (fun y => (x + y)%Q) v)
       | _, [y] => Ok (map (fun x => (x + y)%Q) u)
       | _, _ => Err ValueError
       end.

End Np.
Import Np.

(** ** The state of a round: heap, external state and trace *)

(** What [scipy.optimize.minimize] returns: the source reads [x] only. *)
Record OptimizeResult : Type :=
  mk_OptimizeResult { opt_x : ndarray; opt_fun : Q; opt_success : bool }.

(** An objective handed to the local optimizer: from a point or a batch of
    points to a vector of scores. *)
Definition objective : Type := ndarray -> result (list Q).

(** Calls to collaborators, recorded in the order they are made. *)
Inductive event : Type :=
| EvTime
| EvFit (X Y : ndarray)
| EvDraw (seed : Z) (low high : Q) (u : result Q)
| EvSamples (method : string) (num_samples : Z) (seed : option Z)
| EvMinimize (x0 : ndarray).

(** Arrays the caller and the round share live in a heap and are named by
    their address, as Python names objects by reference. *)
Definition loc : Type := nat.

Section State.

(** [W]: external state (clock, global random state). *)
Variable W : Type.

Record world : Type :=
  mk_world { ext : W; heap : list ndarray; trace : list event }.

Definition M (A : Type) : Type := world -> result A * world.

Definition ret {A} (a : A) : M A := fun w => (Ok a, w).

Definition raise {A} (e : exn) : M A := fun w => (Err e, w).

Definition bind {A B} (m : M A) (k : A -> M B) : M B :=
  fun w => match m w with
           | (Ok a, w') => k a w'
           | (Err e, w') => (Err e, w')
           end.

Definition lift {A} (r : result A) : M A := fun w => (r, w).

Definition assert_ (b : bool) : M unit := lift (rassert b).

Definition emit (e : event) : M unit :=
  fun w => (Ok tt, mk_world (ext w) (heap w) (trace w ++ [e])).

(** A call to a collaborator that reads and writes the external state. *)
Definition call {A} (f : W -> result A * W) : M A :=
  fun w => let (r, x) := f (ext w) in (r, mk_world x (heap w) (trace w)).

(** A new array object. *)
Definition alloc (a : ndarray) : M loc :=
  fun w => (Ok (length (heap w)), mk_world (ext w) (heap w ++ [a]) (trace w)).

(** Reading the array a reference names. *)
Definition deref (l : loc) : M ndarray :=
  fun w => match nth_error (heap w) l with
           | Some a => (Ok a, w)
           | None => (Err (Raised "unbound reference"), w)
           end.

End State.

Arguments ret {W A} a.
Arguments raise {W A} e.
Arguments lift {W A} r.
Arguments assert_ {W} b.
Arguments emit {W} e.
Arguments alloc {W} a.
Arguments deref {W} l.

Declare Scope mon_scope.
Delimit Scope mon_scope with mon.
Notation "x <- m ;; k" := (bind m (fun x => k))
  (at level 61, m at next level, right associativity) : mon_scope.
Notation "' p <- m ;; k" := (bind m (fun x => match x with p => k end))
  (at level 61, p pattern, m at next level, right associativity) : mon_scope.
Notation "m ;; k" := (bind m (fun _ => k))
  (at level 61, right associativity) : mon_scope.


(** ** Helpers of [bayeso.utils.utils_bo] *)

Module utils_bo.

Definition Qlt_bool (x y : Q) : bool := negb (Qle_bool y x).

Definition list_min (x : Q) (l : list Q) : Q := fold_left Qmin l x.
Definition list_max (x : Q) (l : list Q) : Q := fold_left Qmax l x.

(** A float division: by zero numpy answers NaN or Inf, which the cells of
    the model do not have; it is reported as an exception of its own. *)
Definition FloatingPointError : exn := Raised "NaN or Inf".

Definition checked_div (x y : Q) : result Q :=
  if Qeq_bool y 0 then Err FloatingPointError else Ok (x / y)%Q.

Fixpoint rmap {A B} (f : A -> result B) (l : list A) : result (list B) :=
  match l with
  | [] => Ok []
  | a :: l' =>
      (b <- f a ;; bs <- rmap f l' ;; Ok (b :: bs))%res
  end.

(** Modelled from the spec: [utils_bo.normalize_min_max] is not under src/.
    The spec: each column is replaced by its min-max normalization, mapped to
    [0, 1] with the column's own minimum and maximum; a constant column is
    mapped to a fixed constant, 0, and nothing is divided by zero; the result
    is a new array and the argument is not written.  A column of no rows has
    no minimum: [ValueError]. *)
Definition normalize_min_max (Y : ndarray) : result ndarray :=
  match data Y with
  | [] => Err ValueError
  | y0 :: ys =>
      let mn := list_min y0 ys in
      let mx := list_max y0 ys in
      if Qeq_bool mx mn
      then Ok (mk_ndarray (shape Y) (map (fun _ => 0%Q) (data Y)))
      else
        (cells <- rmap (fun y => checked_div (y - mn) (mx - mn)) (data Y) ;;
         Ok (mk_ndarray (shape Y) cells))%res
  end.

(** The nearest point of the interval [b]. *)
Definition clamp (b : Q * Q) (x : Q) : Q :=
  if Qlt_bool x (fst b) then fst b
  else if Qlt_bool (snd b) x then snd b
  else x.

Definition clamp_row (bounds : list (Q * Q)) (row : list Q) : list Q :=
  map (fun bx => clamp (fst bx) (snd bx)) (combine bounds row).

(** Modelled from the spec: [utils_bo.check_points_in_bounds] is not under
    src/.  The spec: points are projected back into the domain's bounds, any
    out-of-bounds coordinate clamped to the nearest bound; a batch that is
    not 2-d or whose points have not one coordinate per bound is a contract
    violation.  [bounds] is the (D, 2) array [np.array(self._get_bounds())],
    kept as its D rows. *)
Definition check_points_in_bounds (points : ndarray) (bounds : list (Q * Q))
  : result ndarray :=
  (rassert (ndim points =? 2)%nat ;;
   d <- shape_at points 1 ;;
   rassert (d =? length bounds)%nat ;;
   Ok (mk_ndarray (shape points)
         (concat (map (clamp_row bounds) (rows points)))))%res.

(** [np.argmin]: the first index of the least cell. *)
Fixpoint argmin_from (best_i : nat) (best : Q) (i : nat) (l : list Q) : nat :=
  match l with
  | [] => best_i
  | x :: l' =>
      if Qlt_bool x best then argmin_from i x (S i) l'
      else argmin_from best_i best (S i) l'
  end.

Definition argmin (l : list Q) : result nat :=
  match l with
  | [] => Err ValueError
  | x :: l' => Ok (argmin_from 0%nat x 1%nat l')
  end.

(** Modelled from the spec: [utils_bo.get_best_acquisition_by_evaluation] is
    not under src/.  The spec: among all candidates, the one with the lowest
    value when re-evaluated on the objective; ties: first-found wins.  The
    result is a batch of one point (the source takes its element 0). *)
Definition get_best_acquisition_by_evaluation
  (initials : ndarray) (fun_objective : objective) : result ndarray :=
  (rassert (ndim initials =? 2)%nat ;;
   acq_vals <- fun_objective initials ;;
   i <- argmin acq_vals ;;
   best <- index initials i ;;
   Ok (newaxis best))%res.

End utils_bo.

(** ** Collaborators *)

Section Engine.

(** [W]: external state; [Hyps]: the hyperparameter dict of a fitted
    surrogate; [PriorMu]: prior mean functions. *)
Variables W Hyps PriorMu : Type.

(** An acquisition rule, as [utils_bo.choose_fun_acquisition] returns it:
    [fun_acquisition(pred_mean, pred_std, Y_train)], one score per test
    point. *)
Definition acquisition_rule : Type :=
  ndarray -> ndarray -> ndarray -> result (list Q).

Record Collaborators : Type := mk_Collaborators {
  (** [bayeso.constants] *)
  MULTIPLIER_ACQ : Q;
  ALLOWED_COV : list string;
  ALLOWED_BO_ACQ : list string;
  ALLOWED_OPTIMIZER_METHOD_GP : list string;
  ALLOWED_OPTIMIZER_METHOD_BO : list string;
  ALLOWED_MODELSELECTION_METHOD : list string;
  ALLOWED_SURROGATE : list string;
  ALLOWED_SAMPLING_METHOD : list string;
  (** [gp_kernel.get_optimized_kernel(X_train, Y_train, prior_mu, str_cov,
      str_optimizer_method, str_modelselection_method, use_ard, debug)] *)
  get_optimized_kernel :
    ndarray -> ndarray -> option PriorMu -> string -> string -> string ->
    bool -> bool -> W -> result (ndarray * ndarray * Hyps) * W;
  (** [gp.predict_with_cov(X_train, Y_train, X_test, cov_X_X, inv_cov_X_X,
      hyps, str_cov, prior_mu, debug)] *)
  predict_with_cov :
    ndarray -> ndarray -> ndarray -> ndarray -> ndarray -> Hyps -> string ->
    option PriorMu -> bool -> result (ndarray * ndarray * ndarray);
  (** [utils_bo.choose_fun_acquisition(str_acq, noise)] *)
  choose_fun_acquisition : string -> option Q -> result acquisition_rule;
  (** [hyps.get('noise', None)] *)
  hyps_get_noise : Hyps -> option Q;
  (** [scipy.optimize.minimize(fun, x0, bounds, method)] *)
  minimize :
    objective -> ndarray -> list (Q * Q) -> string ->
    W -> result OptimizeResult * W;
  (** [BaseBO.get_samples(str_sampling_method, num_samples, seed)], which
      reads the engine's domain *)
  get_samples :
    list (Q * Q) -> string -> Z -> option Z -> W -> result ndarray * W;
  (** [np.random.RandomState(seed).uniform(low, high)]: a generator of its
      own, made from the seed and used once, so a function of the seed *)
  random_state_uniform : Z -> Q -> Q -> result Q;
  (** [10 ** u] on floats *)
  pow10 : Q -> Q;
  (** [time.time()] *)
  time : W -> Q * W
}.


Variable C : Collaborators.

(** ** The class [MOBO] *)

(** The attributes of an engine.  [range_X], a (D, 2) array, is kept as the
    list of its D rows (lo, hi). *)
Record MOBO : Type := mk_MOBO {
  range_X : list (Q * Q);
  str_surrogate : string;
  str_acq : string;
  str_optimizer_method_bo : string;
  normalize_Y : bool;
  str_exp : option string;
  debug : bool;
  str_cov : string;
  use_ard : bool;
  str_optimizer_method_gp : string;
  str_modelselection_method : string;
  prior_mu : option PriorMu
}.

Definition mem (s : string) (l : list string) : bool :=
  if in_dec string_dec s l then true else false.

(** [(range_X[:, 0] <= range_X[:, 1]).all()] *)
Definition valid_range (r : list (Q * Q)) : bool :=
  forallb (fun b => Qle_bool (fst b) (snd b)) r.

(** [MOBO.__init__].  The assertions on the type and the shape of [range_X]
    hold by typing.  [super().__init__], of the base class [BaseBO] that is
    not under src/, keeps its arguments as attributes. *)
Definition __init__ (range_X : list (Q * Q)) (str_cov str_acq : string)
  (normalize_Y use_ard : bool) (prior_mu : option PriorMu)
  (str_optimizer_method_gp str_optimizer_method_bo : string)
  (str_modelselection_method : string) (str_exp : option string)
  (debug : bool) : result MOBO :=
  (rassert (valid_range range_X) ;;
   rassert (mem str_cov (ALLOWED_COV C)) ;;
   rassert (mem str_acq (ALLOWED_BO_ACQ C)) ;;
   rassert (mem str_optimizer_method_gp (ALLOWED_OPTIMIZER_METHOD_GP C)) ;;
   rassert (mem str_optimizer_method_bo (ALLOWED_OPTIMIZER_METHOD_BO C)) ;;
   rassert (mem str_modelselection_method (ALLOWED_MODELSELECTION_METHOD C)) ;;
   let str_surrogate := "gp"%string in
   rassert (mem str_surrogate (ALLOWED_SURROGATE C)) ;;
   Ok (mk_MOBO range_X str_surrogate str_acq str_optimizer_method_bo
         normalize_Y str_exp debug str_cov use_ard str_optimizer_method_gp
         str_modelselection_method prior_mu))%res.

Variable self : MOBO.

(** Modelled from the spec: [BaseBO.num_dim] and [BaseBO._get_bounds] are
    not under src/.  The spec: the domain is an ordered list of D
    dimensions, each with a closed interval, and [getBounds()] gives the
    list of (lo, hi). *)
Definition num_dim : nat := length (range_X self).

Definition _get_bounds : list (Q * Q) := range_X self.

(** [a == b == c] on shape entries *)
Definition eq3 (a b c : nat) : bool := (a =? b)%nat && (b =? c)%nat.

(** [MOBO.compute_posteriors] *)
Definition compute_posteriors (X_train Y_train X_test cov_X_X inv_cov_X_X : ndarray)
  (hyps : Hyps) : result (ndarray * ndarray) :=
  (rassert ((ndim X_train =? 2) || (ndim X_train =? 3))%nat ;;
   rassert (ndim Y_train =? 2)%nat ;;
   rassert ((ndim X_test =? 2) || (ndim X_test =? 3))%nat ;;
   rassert (ndim cov_X_X =? 2)%nat ;;
   rassert (ndim inv_cov_X_X =? 2)%nat ;;
   y1 <- shape_at Y_train 1 ;;
   rassert (y1 =? 1)%nat ;;
   x0 <- shape_at X_train 0 ;;
   y0 <- shape_at Y_train 0 ;;
   rassert (x0 =? y0)%nat ;;
   (if (ndim X_train =? 2)%nat
    then t1 <- shape_at X_test 1 ;;
         x1 <- shape_at X_train 1 ;;
         rassert (eq3 t1 x1 num_dim)
    else t2 <- shape_at X_test 2 ;;
         x2 <- shape_at X_train 2 ;;
         rassert (eq3 t2 x2 num_dim)) ;;
   c0 <- shape_at cov_X_X 0 ;;
   c1 <- shape_at cov_X_X 1 ;;
   rassert (eq3 c0 c1 x0) ;;
   i0 <- shape_at inv_cov_X_X 0 ;;
   i1 <- shape_at inv_cov_X_X 1 ;;
   rassert (eq3 i0 i1 x0) ;;
   ' (pred_mean, pred_std, _) <-
     predict_with_cov C X_train Y_train X_test cov_X_X inv_cov_X_X hyps
       (str_cov self) (prior_mu self) (debug self) ;;
   pred_mean <- squeeze1 pred_mean ;;
   pred_std <- squeeze1 pred_std ;;
   Ok (pred_mean, pred_std))%res.

(** [MOBO.compute_acquisitions].  [acquisitions *= constants.MULTIPLIER_ACQ]
    scales, in place, the array the acquisition rule has just returned. *)
Definition compute_acquisitions (X X_train Y_train cov_X_X inv_cov_X_X : ndarray)
  (hyps : Hyps) : result (list Q) :=
  (rassert ((ndim X =? 1) || (ndim X =? 2) || (ndim X =? 3))%nat ;;
   rassert ((ndim X_train =? 2) || (ndim X_train =? 3))%nat ;;
   rassert (ndim Y_train =? 2)%nat ;;
   rassert (ndim cov_X_X =? 2)%nat ;;
   rassert (ndim inv_cov_X_X =? 2)%nat ;;
   y1 <- shape_at Y_train 1 ;;
   rassert (y1 =? 1)%nat ;;
   x0 <- shape_at X_train 0 ;;
   y0 <- shape_at Y_train 0 ;;
   rassert (x0 =? y0)%nat ;;
   let X := if (ndim X =? 1)%nat then atleast_2d X else X in
   (if (ndim X_train =? 2)%nat
    then t1 <- shape_at X 1 ;;
         x1 <- shape_at X_train 1 ;;
         rassert (eq3 t1 x1 num_dim)
    else t2 <- shape_at X 2 ;;
         x2 <- shape_at X_train 2 ;;
         rassert (eq3 t2 x2 num_dim)) ;;
   c0 <- shape_at cov_X_X 0 ;;
   c1 <- shape_at cov_X_X 1 ;;
   rassert (eq3 c0 c1 x0) ;;
   i0 <- shape_at inv_cov_X_X 0 ;;
   i1 <- shape_at inv_cov_X_X 1 ;;
   rassert (eq3 i0 i1 x0) ;;
   fun_acquisition <-
     choose_fun_acquisition C (str_acq self) (hyps_get_noise C hyps) ;;
   ' (pred_mean, pred_std) <-
     compute_posteriors X_train Y_train X cov_X_X inv_cov_X_X hyps ;;
   acquisitions <- fun_acquisition pred_mean pred_std Y_train ;;
   Ok (map (fun a => a * MULTIPLIER_ACQ C)%Q acquisitions))%res.

Local Open Scope mon_scope.

(** [time.time()] *)
Definition clock : M W Q :=
  emit EvTime ;;
  call (fun x => let (t, x') := time C x in (Ok t, x')).

(** The loop of [_optimize]: one run of the local optimizer per initial
    point, the [x] of each result appended in order. *)
Fixpoint minimize_each (fun_negative_acquisition : objective)
  (list_bounds : list (Q * Q)) (initials : list ndarray) : M W (list ndarray) :=
  match initials with
  | [] => ret []
  | arr_initial :: initials' =>
      emit (EvMinimize arr_initial) ;;
      next_point <- call (minimize C fun_negative_acquisition arr_initial
                            list_bounds (str_optimizer_method_bo self)) ;;
      let next_point_x := opt_x next_point in
      list_next_point <-
        minimize_each fun_negative_acquisition list_bounds initials' ;;
      ret (next_point_x :: list_next_point)
  end.

(** [MOBO._optimize] *)
Definition _optimize (fun_negative_acquisition : objective)
  (str_sampling_method : string) (num_samples : Z) (seed : option Z)
  : M W (ndarray * ndarray) :=
  let list_bounds := _get_bounds in
  emit (EvSamples str_sampling_method num_samples seed) ;;
  initials <- call (get_samples C (range_X self) str_sampling_method
                      num_samples seed) ;;
  initials <- lift (iter initials) ;;
  list_next_point <-
    minimize_each fun_negative_acquisition list_bounds initials ;;
  next_points <- lift (array list_next_point) ;;
  best <- lift (utils_bo.get_best_acquisition_by_evaluation
                  next_points fun_negative_acquisition) ;;
  next_point <- lift (index best 0) ;;
  ret (next_point, next_points).

(** The report of a round.  The response columns are references, as in the
    source, where the dict holds the array objects themselves. *)
Record dict_info : Type := mk_dict_info {
  next_points : ndarray;
  acquisitions : list Q;
  Y_original_1 : loc;
  Y_original_2 : loc;
  Y_normalized_1 : loc;
  Y_normalized_2 : loc;
  cov_X_X_1 : ndarray;
  inv_cov_X_X_1 : ndarray;
  hyps_1 : Hyps;
  cov_X_X_2 : ndarray;
  inv_cov_X_X_2 : ndarray;
  hyps_2 : Hyps;
  time_surrogate : Q;
  time_acq : Q;
  time_overall : Q
}.

(** [gp_kernel.get_optimized_kernel(X_train, Y_train_k, self.prior_mu,
    self.str_cov, ...)] on the arrays the two references name. *)
Definition fit (X_train Y_train_k : loc) : M W (ndarray * ndarray * Hyps) :=
  X <- deref X_train ;;
  Y <- deref Y_train_k ;;
  emit (EvFit X Y) ;;
  call (get_optimized_kernel C X Y (prior_mu self) (str_cov self)
          (str_optimizer_method_gp self) (str_modelselection_method self)
          (use_ard self) (debug self)).

(** [utils_bo.normalize_min_max(Y_train_k)]: the result is a new object. *)
Definition normalized (Y_train_k : loc) : M W loc :=
  Y <- deref Y_train_k ;;
  Y' <- lift (utils_bo.normalize_min_max Y) ;;
  alloc Y'.

(** [lambda X_test: -1.0 * self.compute_acquisitions(X_test, X_train,
    Y_train_k, cov_X_X_k, inv_cov_X_X_k, hyps_k)] *)
Definition negative_acquisition (X_train Y_train_k cov_X_X inv_cov_X_X : ndarray)
  (hyps : Hyps) : objective :=
  fun X_test =>
    (a <- compute_acquisitions X_test X_train Y_train_k cov_X_X inv_cov_X_X hyps ;;
     Ok (vscale (-1) a))%res.

(** [lambda X_test: fun_negative_acquisition_1(X_test)
                     + 10**log_weight * fun_negative_acquisition_2(X_test)] *)
Definition scalarized (f1 f2 : objective) (log_weight : Q) : objective :=
  fun X_test =>
    (a <- f1 X_test ;;
     b <- f2 X_test ;;
     vadd a (vscale (pow10 C log_weight) b))%res.

(** [np.random.RandomState(seed + 101).uniform(low=-3, high=3)]; [None + 101]
    is a [TypeError]. *)
Definition draw_log_weight (seed : option Z) : M W Q :=
  s <- match seed with
       | Some s => ret (s + 101)%Z
       | None => raise TypeError
       end ;;
  let u := random_state_uniform C s (-3) 3 in
  emit (EvDraw s (-3) 3 u) ;;
  lift u.

(** [MOBO.optimize].  [X_train] and [Y_train] are the caller's arrays, by
    reference.  The two closures read [X_train] and [Y_train_k] when they are
    called; the heap is not written after they are made, so they are given
    the arrays of that moment. *)
Definition optimize (X_train Y_train : loc) (str_sampling_method : string)
  (num_samples : Z) (seed : option Z) : M W (ndarray * dict_info) :=
  X <- deref X_train ;;
  Y <- deref Y_train ;;
  assert_ (ndim X =? 2)%nat ;;
  assert_ (ndim Y =? 2)%nat ;;
  y1 <- lift (shape_at Y 1) ;;
  assert_ (y1 =? 2)%nat ;;
  x0 <- lift (shape_at X 0) ;;
  y0 <- lift (shape_at Y 0) ;;
  assert_ (x0 =? y0)%nat ;;
  x1 <- lift (shape_at X 1) ;;
  assert_ (x1 =? num_dim)%nat ;;
  assert_ (0 <? num_samples)%Z ;;
  assert_ (mem str_sampling_method (ALLOWED_SAMPLING_METHOD C)) ;;

  time_start <- clock ;;

  Y_train_1 <- (c <- lift (column Y 0) ;; alloc c) ;;
  Y_train_2 <- (c <- lift (column Y 1) ;; alloc c) ;;

  let Y_train_orig_1 := Y_train_1 in
  let Y_train_orig_2 := Y_train_2 in

  ' (Y_train_1, Y_train_2) <-
    (if normalize_Y self
     then n1 <- normalized Y_train_1 ;;
          n2 <- normalized Y_train_2 ;;
          ret (n1, n2)
     else ret (Y_train_1, Y_train_2)) ;;

  time_start_surrogate <- clock ;;

  ' (cov_X_X_1, inv_cov_X_X_1, hyps_1) <- fit X_train Y_train_1 ;;
  ' (cov_X_X_2, inv_cov_X_X_2, hyps_2) <- fit X_train Y_train_2 ;;

  time_end_surrogate <- clock ;;

  time_start_acq <- clock ;;
  Xv <- deref X_train ;;
  Y1 <- deref Y_train_1 ;;
  Y2 <- deref Y_train_2 ;;
  let fun_negative_acquisition_1 :=
    negative_acquisition Xv Y1 cov_X_X_1 inv_cov_X_X_1 hyps_1 in
  let fun_negative_acquisition_2 :=
    negative_acquisition Xv Y2 cov_X_X_2 inv_cov_X_X_2 hyps_2 in
  log_weight <- draw_log_weight seed ;;

  let fun_negative_acquisition :=
    scalarized fun_negative_acquisition_1 fun_negative_acquisition_2
      log_weight in

  ' (next_point, next_points) <-
    _optimize fun_negative_acquisition str_sampling_method num_samples seed ;;

  next_point <-
    lift (b <- utils_bo.check_points_in_bounds (newaxis next_point) _get_bounds ;;
          index b 0)%res ;;
  next_points <- lift (utils_bo.check_points_in_bounds next_points _get_bounds) ;;

  time_end_acq <- clock ;;

  acquisitions <- lift (fun_negative_acquisition next_points) ;;
  time_end <- clock ;;

  let dict_info :=
    mk_dict_info next_points acquisitions
      Y_train_orig_1 Y_train_orig_2 Y_train_1 Y_train_2
      cov_X_X_1 inv_cov_X_X_1 hyps_1
      cov_X_X_2 inv_cov_X_X_2 hyps_2
      (time_end_surrogate - time_start_surrogate)
      (time_end_acq - time_start_acq)
      (time_end - time_start) in

  ret (next_point, dict_info).

End Engine.

Arguments optimize {W Hyps PriorMu} C self X_train Y_train str_sampling_method num_samples seed.
Arguments _optimize {W Hyps PriorMu} C self fun_negative_acquisition str_sampling_method num_samples seed.
Arguments minimize_each {W Hyps PriorMu} C self fun_negative_acquisition list_bounds initials.
Arguments compute_acquisitions {W Hyps PriorMu} C self X X_train Y_train cov_X_X inv_cov_X_X hyps.
Arguments compute_posteriors {W Hyps PriorMu} C self X_train Y_train X_test cov_X_X inv_cov_X_X hyps.
Arguments negative_acquisition {W Hyps PriorMu} C self X_train Y_train_k cov_X_X inv_cov_X_X hyps.
Arguments scalarized {W Hyps PriorMu} C f1 f2 log_weight.
Arguments draw_log_weight {W Hyps PriorMu} C seed.
Arguments fit {W Hyps PriorMu} C self X_train Y_train_k.
Arguments normalized {W} Y_train_k.
Arguments clock {W Hyps PriorMu} C.
Arguments __init__ {W Hyps PriorMu} C range_X str_cov str_acq normalize_Y use_ard prior_mu str_optimizer_method_gp str_optimizer_method_bo str_modelselection_method str_exp debug.
Arguments num_dim {PriorMu} self.
Arguments _get_bounds {PriorMu} self.

(** ** Vocabulary of the statements *)

Section WorldRelations.

Context {W : Type}.

(** A run only appends: new objects to the heap, new events, each
    satisfying [P], to the trace. *)
Definition grows (P : event -> Prop) (w w' : world W) : Prop :=
  (exists h, heap w' = heap w ++ h) /\
  (exists t, trace w' = trace w ++ t /\ Forall P t).

Definition keeps (P : event -> Prop) {A} (m : M W A) : Prop :=
  forall w, grows P w (snd (m w)).

(** Two outcomes agree: both fail with the same exception, or both succeed
    with results and final worlds that [R] relates. *)
Definition agree {A B} (R : A -> world W -> B -> world W -> Prop)
  (o1 : result A * world W) (o2 : result B * world W) : Prop :=
  match o1, o2 with
  | (Ok a, w1), (Ok b, w2) => R a w1 b w2
  | (Err e1, _), (Err e2, _) => e1 = e2
  | _, _ => False
  end.

(** The heap of [u] is the heap of [v] with new objects appended. *)
Definition extends (v u : world W) : Prop := exists h, heap u = heap v ++ h.

(** The heaps of the two runs after a step. *)
Definition same_heaps (w1 w2 w1' w2' : world W) : Prop :=
  extends w1 w1' /\ extends w2 w2'.

End WorldRelations.

Section Variants.

Context {W Hyps PriorMu : Type}.

(** The collaborators [C], with every result of the local optimizer
    rewritten by [g] before the engine sees it. *)
Definition with_reports (g : OptimizeResult -> OptimizeResult)
  (C : Collaborators W Hyps PriorMu) : Collaborators W Hyps PriorMu :=
  mk_Collaborators
    (MULTIPLIER_ACQ C) (ALLOWED_COV C) (ALLOWED_BO_ACQ C)
    (ALLOWED_OPTIMIZER_METHOD_GP C) (ALLOWED_OPTIMIZER_METHOD_BO C)
    (ALLOWED_MODELSELECTION_METHOD C) (ALLOWED_SURROGATE C)
    (ALLOWED_SAMPLING_METHOD C)
    (get_optimized_kernel C) (predict_with_cov C) (choose_fun_acquisition C)
    (hyps_get_noise C)
    (fun f x0 bounds method x =>
       let (r, x') := minimize C f x0 bounds method x in
       (match r with Ok o => Ok (g o) | Err e => Err e end, x'))
    (get_samples C) (random_state_uniform C) (pow10 C) (time C).

(** The collaborators [C] with the acquisition multiplier multiplied by
    [k]. *)
Definition with_multiplier (k : Q) (C : Collaborators W Hyps PriorMu)
  : Collaborators W Hyps PriorMu :=
  mk_Collaborators
    (k * MULTIPLIER_ACQ C) (ALLOWED_COV C) (ALLOWED_BO_ACQ C)
    (ALLOWED_OPTIMIZER_METHOD_GP C) (ALLOWED_OPTIMIZER_METHOD_BO C)
    (ALLOWED_MODELSELECTION_METHOD C) (ALLOWED_SURROGATE C)
    (ALLOWED_SAMPLING_METHOD C)
    (get_optimized_kernel C) (predict_with_cov C) (choose_fun_acquisition C)
    (hyps_get_noise C) (minimize C) (get_samples C) (random_state_uniform C)
    (pow10 C) (time C).

End Variants.

(** ** The scaling of the scores, with rounding *)

(** [acquisitions *= constants.MULTIPLIER_ACQ] with every product rounded
    to the format of the cells by [rnd]; the exact scaling is the one with
    [rnd] the identity. *)
Definition scale_rounded (rnd : Q -> Q) (multiplier : Q)
  (acquisitions : list Q) : list Q :=
  map (fun a => rnd (a * multiplier)%Q) acquisitions.

(** The same line, the negation of the closures and [np.argmin], on
    binary64 cells, as numpy has them. *)
Module Binary64.

Import PrimFloat.

Definition scale (multiplier : float) (acquisitions : list float)
  : list float :=
  map (fun a => (a * multiplier)%float) acquisitions.

Definition negate (acquisitions : list float) : list float :=
  map (fun a => (-1 * a)%float) acquisitions.

Fixpoint argmin_from (best_i : nat) (best : float) (i : nat) (l : list float)
  : nat :=
  match l with
  | [] => best_i
  | x :: l' =>
      if (x <? best)%float then argmin_from i x (S i) l'
      else argmin_from best_i best (S i) l'
  end.

Definition argmin (l : list float) : result nat :=
  match l with
  | [] => Err ValueError
  | x :: l' => Ok (argmin_from 0%nat x 1%nat l')
  end.

(** Two scores: 0.7, as binary64 has it, and the next number of the
    format; a multiplier, and a positive factor for it. *)
Definition raw : list float :=
  [0x1.6666666666666p-1; next_up 0x1.6666666666666p-1]%float.

Definition multiplier : float := 10%float.

Definition factor : float := 5%float.

End Binary64.

Section RoundVocabulary.

Context {W Hyps PriorMu : Type}.
Variable C : Collaborators W Hyps PriorMu.
Variable self : MOBO PriorMu.

(** The events a round with the given arguments may emit: the generator of
    the scalarization draw is seeded with [seed + 101] and asked for a value
    between -3 and 3; the sampler of the restarts is given the method, the
    count and the seed of the round. *)
Definition round_event (str_sampling_method : string) (num_samples : Z)
  (seed : option Z) (e : event) : Prop :=
  match e with
  | EvDraw s low high u =>
      seed = Some (s - 101)%Z /\ low = (-3)%Q /\ high = 3%Q /\
      u = random_state_uniform C s (-3) 3
  | EvSamples m k sd => m = str_sampling_method /\ k = num_samples /\ sd = seed
  | _ => True
  end.

(** The objective of a round: the scalarization, with exponent [U], of the
    negative acquisitions of the two surrogates the report describes. *)
Definition round_objective (X Y1 Y2 : ndarray) (info : dict_info Hyps) (U : Q)
  : objective :=
  scalarized C
    (negative_acquisition C self X Y1
       (cov_X_X_1 info) (inv_cov_X_X_1 info) (hyps_1 info))
    (negative_acquisition C self X Y2
       (cov_X_X_2 info) (inv_cov_X_X_2 info) (hyps_2 info))
    U.

(** The fitting call of the source, on given arrays and external state. *)
Definition fitted (X Y : ndarray) (x : W) : result (ndarray * ndarray * Hyps) * W :=
  get_optimized_kernel C X Y (prior_mu self) (str_cov self)
    (str_optimizer_method_gp self) (str_modelselection_method self)
    (use_ard self) (debug self) x.

(** What a successful round did, step by step. *)
Record round_facts (lX lY : loc) (m : string) (n : Z) (seed : option Z)
  (w : world W) (pt : ndarray) (info : dict_info Hyps) (w' : world W)
  (X Y c1 c2 Y1 Y2 : ndarray) (s : Z) (U : Q) (p nps : ndarray)
  (wa wb : world W) : Prop := {
  run_X : nth_error (heap w) lX = Some X;
  run_Y : nth_error (heap w) lY = Some Y;
  run_shapes : exists N, shape X = [N; num_dim self] /\ shape Y = [N; 2%nat];
  run_num_samples : (0 < n)%Z;
  run_method : mem m (ALLOWED_SAMPLING_METHOD C) = true;
  run_c1 : column Y 0 = Ok c1;
  run_c2 : column Y 1 = Ok c2;
  run_Y1 : if normalize_Y self
           then utils_bo.normalize_min_max c1 = Ok Y1 else Y1 = c1;
  run_Y2 : if normalize_Y self
           then utils_bo.normalize_min_max c2 = Ok Y2 else Y2 = c2;
  run_heap : heap w' =
             heap w ++ [c1; c2] ++ (if normalize_Y self then [Y1; Y2] else []);
  run_orig1 : Y_original_1 info = length (heap w);
  run_orig2 : Y_original_2 info = (length (heap w) + 1)%nat;
  run_norm1 : Y_normalized_1 info =
              (length (heap w) + if normalize_Y self then 2 else 0)%nat;
  run_norm2 : Y_normalized_2 info =
              (length (heap w) + if normalize_Y self then 3 else 1)%nat;
  run_fit1 : exists x x',
      fitted X Y1 x =
      (Ok (cov_X_X_1 info, inv_cov_X_X_1 info, hyps_1 info), x');
  run_fit2 : exists x x',
      fitted X Y2 x =
      (Ok (cov_X_X_2 info, inv_cov_X_X_2 info, hyps_2 info), x');
  run_seed : seed = Some s;
  run_draw : random_state_uniform C (s + 101) (-3) 3 = Ok U;
  run_trace_a : trace wa =
                trace w ++ [EvTime; EvTime; EvFit X Y1; EvFit X Y2; EvTime;
                            EvTime; EvDraw (s + 101) (-3) 3 (Ok U)];
  run_search : _optimize C self (round_objective X Y1 Y2 info U) m n seed wa
               = (Ok (p, nps), wb);
  run_trace_b : trace w' = trace wb ++ [EvTime; EvTime];
  run_point : exists b,
      utils_bo.check_points_in_bounds (newaxis p) (_get_bounds self) = Ok b /\
      index b 0 = Ok pt;
  run_points : utils_bo.check_points_in_bounds nps (_get_bounds self)
               = Ok (next_points info);
  run_acquisitions : round_objective X Y1 Y2 info U (next_points info)
                     = Ok (acquisitions info)
}.

(** Each candidate is the [x] of the local optimizer's result from the
    initial point at the same place. *)
Definition refined (f : objective) (x0 pt : ndarray) : Prop :=
  exists x r x',
    minimize C f x0 (_get_bounds self) (str_optimizer_method_bo self) x
    = (Ok r, x') /\ pt = opt_x r.

(** The collaborators that thread the external state answer by their
    arguments alone: the fitter and the local optimizer on every argument,
    the sampler on the request of the round (with no seed, a sampler may
    well draw from the global random state). *)
Definition deterministic (m : string) (n : Z) (seed : option Z) : Prop :=
  (forall X Y x x', fst (fitted X Y x) = fst (fitted X Y x')) /\
  (forall x x',
      fst (get_samples C (range_X self) m n seed x)
      = fst (get_samples C (range_X self) m n seed x')) /\
  (forall f x0 bounds method x x',
      fst (minimize C f x0 bounds method x)
      = fst (minimize C f x0 bounds method x')).

(** The local optimizer returns numpy arrays: as many cells as the shape
    says. *)
Definition returns_arrays : Prop :=
  forall f x0 bounds method x r x',
    minimize C f x0 bounds method x = (Ok r, x') -> wf (opt_x r).

(** The outcomes of the draws and the seeds given to the restart sampler
    that a trace records, and the starting points of its local searches. *)
Definition weights (t : list event) : list (result Q) :=
  flat_map (fun e => match e with EvDraw _ _ _ u => [u] | _ => [] end) t.

Definition sampling_seeds (t : list event) : list (option Z) :=
  flat_map (fun e => match e with EvSamples _ _ sd => [sd] | _ => [] end) t.

Definition starting_points (t : list event) : list ndarray :=
  flat_map (fun e => match e with EvMinimize x0 => [x0] | _ => [] end) t.

End RoundVocabulary.

(** ** The restarts of a search *)

Section Restarts.

Context {W Hyps PriorMu : Type}.
Variable C : Collaborators W Hyps PriorMu.
Variable self : MOBO PriorMu.

(** The candidates of the restarts, in restart order: the k-th candidate is
    the [x] of the local optimizer's result from the k-th initial point, run
    on the external state that the runs before it have left. *)
Fixpoint restarts (f : objective) (initials : list ndarray) (x : W)
  (pts : list ndarray) (x' : W) : Prop :=
  match initials, pts with
  | [], [] => x' = x
  | x0 :: initials', pt :: pts' =>
      exists r x1,
        minimize C f x0 (_get_bounds self) (str_optimizer_method_bo self) x
        = (Ok r, x1) /\
        pt = opt_x r /\ restarts f initials' x1 pts' x'
  | _, _ => False
  end.

End Restarts.

(** ** Further vocabulary: the contract of a round, a clock, the protocol *)

Section MoreVocabulary.

Context {W Hyps PriorMu : Type}.
Variable C : Collaborators W Hyps PriorMu.
Variable self : MOBO PriorMu.

(** What the assertions of [optimize] ask of its arguments. *)
Definition valid_call (X Y : ndarray) (str_sampling_method : string)
  (num_samples : Z) : Prop :=
  (exists N, shape X = [N; num_dim self] /\ shape Y = [N; 2%nat]) /\
  (0 < num_samples)%Z /\
  mem str_sampling_method (ALLOWED_SAMPLING_METHOD C) = true.

(** A clock that does not run backwards: [now] reads the external state;
    a reading of the clock lies between the states before and after it, and
    no collaborator takes the state back. *)
Definition monotone_clock (now : W -> Q) : Prop :=
  (forall x, (now x <= fst (time C x) <= now (snd (time C x)))%Q) /\
  (forall X Y x, (now x <= now (snd (fitted C self X Y x)))%Q) /\
  (forall m n seed x,
      (now x <= now (snd (get_samples C (range_X self) m n seed x)))%Q) /\
  (forall f x0 bounds method x,
      (now x <= now (snd (minimize C f x0 bounds method x)))%Q).

(** Every cell of a row lies in the interval of the domain at its place. *)
Definition in_domain (row : list Q) : Prop :=
  forall i x, nth_error row i = Some x ->
    exists lo hi, nth_error (range_X self) i = Some (lo, hi) /\
                  (lo <= x <= hi)%Q.

End MoreVocabulary.

(** The order of the calls of a round, as an automaton over the events; the
    state counts the steps done: two readings of the clock, two fits, two
    readings, the draw, the sampling, any number of local searches, two
    readings. *)
Definition protocol_step (q : nat) (e : event) : option nat :=
  match q, e with
  | 0%nat, EvTime => Some 1%nat
  | 1%nat, EvTime => Some 2%nat
  | 2%nat, EvFit _ _ => Some 3%nat
  | 3%nat, EvFit _ _ => Some 4%nat
  | 4%nat, EvTime => Some 5%nat
  | 5%nat, EvTime => Some 6%nat
  | 6%nat, EvDraw _ _ _ _ => Some 7%nat
  | 7%nat, EvSamples _ _ _ => Some 8%nat
  | 8%nat, EvMinimize _ => Some 8%nat
  | 8%nat, EvTime => Some 9%nat
  | 9%nat, EvTime => Some 10%nat
  | _, _ => None
  end.

Fixpoint protocol_run (q : nat) (t : list event) : option nat :=
  match t with
  | [] => Some q
  | e :: t' =>
      match protocol_step q e with
      | Some q' => protocol_run q' t'
      | None => None
      end
  end.

(** A computation takes the protocol from state [q] to state [q'] when it
    returns, and to some state when it raises. *)
Definition moves {W A} (q : nat) (m : M W A) (q' : nat) : Prop :=
  forall w, exists t,
    trace (snd (m w)) = trace w ++ t /\
    match fst (m w) with
    | Ok _ => protocol_run q t = Some q'
    | Err _ => exists q'', protocol_run q t = Some q''
    end.

(** ** The round with callees that may write the arrays they are handed

    Python hands arrays over by reference, and the libraries the round
    calls (bayeso, scipy) are not under src/: nothing there says that they
    leave the arrays they are handed as they found them.  In
    [optimize_by_reference] every call that is handed an array object may
    write it: whatever the outcome of the call, the object then holds what
    the callee has left in it. *)

Section ByReference.

Context {W Hyps PriorMu : Type}.

(** What a callee leaves in an array object it was handed: [None] when it
    has not written it.  The new cells may depend on anything. *)
Definition writing : Type := world W -> option ndarray.

Record Callees : Type := mk_Callees {
  (** [utils_bo.normalize_min_max(Y_train_k)], into [Y_train_k] *)
  normalize_writes : writing;
  (** [gp_kernel.get_optimized_kernel(X_train, Y_train_k, ...)], into
      [X_train] and into [Y_train_k] *)
  fit_writes_X : writing;
  fit_writes_Y : writing;
  (** the calls of the two closures, which hand [X_train] and [Y_train_k] to
      the predictor and [Y_train_k] to the acquisition rule, and scale in
      place the array the rule returns *)
  closure_writes_X : writing;
  closure_writes_Y_1 : writing;
  closure_writes_Y_2 : writing
}.

(** Callees that write nothing. *)
Definition no_writes : Callees :=
  mk_Callees (fun _ => None) (fun _ => None) (fun _ => None)
    (fun _ => None) (fun _ => None) (fun _ => None).

(** The heap with the object at [l] holding [a]. *)
Fixpoint update (l : loc) (a : ndarray) (h : list ndarray) : list ndarray :=
  match h, l with
  | [], _ => []
  | _ :: h', O => a :: h'
  | b :: h', S l' => b :: update l' a h'
  end.

Definition write (lf : loc * writing) (w : world W) : world W :=
  match snd lf w with
  | Some a => mk_world (ext w) (update (fst lf) a (heap w)) (trace w)
  | None => w
  end.

(** The call [m], which hands over the objects [ls]: whatever its outcome,
    the callee may have written them. *)
Definition handing {A} (ls : list (loc * writing)) (m : M W A) : M W A :=
  fun w => let (r, w') := m w in (r, fold_left (fun v lf => write lf v) ls w').

Variable C : Collaborators W Hyps PriorMu.
Variable self : MOBO PriorMu.
Variable K : Callees.

Local Open Scope mon_scope.

(** [MOBO.optimize], arrays by reference.  The objective given to the
    search is made of the arrays as they are when the search starts, and
    what the calls of the search have written is there when it returns; the
    last evaluation of the objective reads the arrays again. *)
Definition optimize_by_reference (X_train Y_train : loc)
  (str_sampling_method : string) (num_samples : Z) (seed : option Z)
  : M W (ndarray * dict_info Hyps) :=
  X <- deref X_train ;;
  Y <- deref Y_train ;;
  assert_ (ndim X =? 2)%nat ;;
  assert_ (ndim Y =? 2)%nat ;;
  y1 <- lift (shape_at Y 1) ;;
  assert_ (y1 =? 2)%nat ;;
  x0 <- lift (shape_at X 0) ;;
  y0 <- lift (shape_at Y 0) ;;
  assert_ (x0 =? y0)%nat ;;
  x1 <- lift (shape_at X 1) ;;
  assert_ (x1 =? num_dim self)%nat ;;
  assert_ (0 <? num_samples)%Z ;;
  assert_ (mem str_sampling_method (ALLOWED_SAMPLING_METHOD C)) ;;

  time_start <- clock C ;;

  Y_train_1 <- (c <- lift (column Y 0) ;; alloc c) ;;
  Y_train_2 <- (c <- lift (column Y 1) ;; alloc c) ;;

  let Y_train_orig_1 := Y_train_1 in
  let Y_train_orig_2 := Y_train_2 in

  ' (Y_train_1, Y_train_2) <-
    (if normalize_Y self
     then n1 <- handing [(Y_train_1, normalize_writes K)]
                  (normalized Y_train_1) ;;
          n2 <- handing [(Y_train_2, normalize_writes K)]
                  (normalized Y_train_2) ;;
          ret (n1, n2)
     else ret (Y_train_1, Y_train_2)) ;;

  time_start_surrogate <- clock C ;;

  ' (cov_X_X_1, inv_cov_X_X_1, hyps_1) <-
    handing [(X_train, fit_writes_X K); (Y_train_1, fit_writes_Y K)]
      (fit C self X_train Y_train_1) ;;
  ' (cov_X_X_2, inv_cov_X_X_2, hyps_2) <-
    handing [(X_train, fit_writes_X K); (Y_train_2, fit_writes_Y K)]
      (fit C self X_train Y_train_2) ;;

  time_end_surrogate <- clock C ;;

  time_start_acq <- clock C ;;
  let captured :=
    [(X_train, closure_writes_X K); (Y_train_1, closure_writes_Y_1 K);
     (Y_train_2, closure_writes_Y_2 K)] in
  Xv <- deref X_train ;;
  Y1 <- deref Y_train_1 ;;
  Y2 <- deref Y_train_2 ;;
  log_weight <- draw_log_weight C seed ;;

  let fun_negative_acquisition :=
    scalarized C
      (negative_acquisition C self Xv Y1 cov_X_X_1 inv_cov_X_X_1 hyps_1)
      (negative_acquisition C self Xv Y2 cov_X_X_2 inv_cov_X_X_2 hyps_2)
      log_weight in

  ' (next_point, next_points) <-
    handing captured
      (_optimize C self fun_negative_acquisition str_sampling_method
         num_samples seed) ;;

  next_point <-
    lift (b <- utils_bo.check_points_in_bounds (newaxis next_point)
                 (_get_bounds self) ;;
          index b 0)%res ;;
  next_points <-
    lift (utils_bo.check_points_in_bounds next_points (_get_bounds self)) ;;

  time_end_acq <- clock C ;;

  Xv <- deref X_train ;;
  Y1 <- deref Y_train_1 ;;
  Y2 <- deref Y_train_2 ;;
  let fun_negative_acquisition :=
    scalarized C
      (negative_acquisition C self Xv Y1 cov_X_X_1 inv_cov_X_X_1 hyps_1)
      (negative_acquisition C self Xv Y2 cov_X_X_2 inv_cov_X_X_2 hyps_2)
      log_weight in
  acquisitions <-
    handing captured (lift (fun_negative_acquisition next_points)) ;;
  time_end <- clock C ;;

  let dict_info :=
    mk_dict_info next_points acquisitions
      Y_train_orig_1 Y_train_orig_2 Y_train_1 Y_train_2
      cov_X_X_1 inv_cov_X_X_1 hyps_1
      cov_X_X_2 inv_cov_X_X_2 hyps_2
      (time_end_surrogate - time_start_surrogate)
      (time_end_acq - time_start_acq)
      (time_end - time_start) in

  ret (next_point, dict_info).

End ByReference.

Arguments optimize_by_reference {W Hyps PriorMu} C self K X_train Y_train
  str_sampling_method num_samples seed.
Arguments no_writes {W}.
Arguments Callees W : clear implicits.

Section Spared.

Context {W : Type}.

(** The caller's objects, the one at [lX] apart, are as they were in [w0];
    the object at [lX] and those made since [w0] may be written. *)
Definition spared (lX : loc) (w0 w : world W) : Prop :=
  (forall l a, nth_error (heap w0) l = Some a -> l <> lX ->
               nth_error (heap w) l = Some a) /\
  (length (heap w0) <= length (heap w))%nat.

Definition writable (lX : loc) (w0 : world W) (l : loc) : Prop :=
  l = lX \/ (length (heap w0) <= l)%nat.

Definition sparing (lX : loc) (w0 : world W) {A} (m : M W A)
  (Q : A -> Prop) : Prop :=
  forall w, spared lX w0 w ->
    spared lX w0 (snd (m w)) /\ forall a, fst (m w) = Ok a -> Q a.

End Spared.

(** The report's original columns: [Y_original_1] and [Y_original_2] name
    objects made since [w], which hold in [w'] the cells [Y[i, 0]] and
    [Y[i, 1]] of the N-by-2 array [Y] that [w] has at [lY]; and the
    normalized columns are other objects when [normalize] holds. *)
Definition original_columns {W Hyps} (w : world W) (lY : loc)
  (normalize : bool) (info : dict_info Hyps) (w' : world W) : Prop :=
  exists Y N,
    nth_error (heap w) lY = Some Y /\ shape Y = [N; 2%nat] /\
    nth_error (heap w') (Y_original_1 info)
    = Some (mk_ndarray [N; 1%nat]
              (map (fun i => nth (i * 2) (data Y) 0%Q) (seq 0 N))) /\
    nth_error (heap w') (Y_original_2 info)
    = Some (mk_ndarray [N; 1%nat]
              (map (fun i => nth (i * 2 + 1) (data Y) 0%Q) (seq 0 N))) /\
    (length (heap w) <= Y_original_1 info)%nat /\
    (length (heap w) <= Y_original_2 info)%nat /\
    (normalize = true ->
     Y_normalized_1 info <> Y_original_1 info /\
     Y_normalized_2 info <> Y_original_2 info).

(** ** A concrete set of collaborators

    Small executable stand-ins for the libraries, on which the engine runs by
    computation.  The external state is a tick counter that the clock and
    the sampler advance. *)

Module Toy.

Definition W : Type := nat.
Definition Hyps : Type := unit.
Definition PriorMu : Type := unit.

(** An n-by-n array of zeros for the covariance artifacts. *)
Definition square (n : nat) : ndarray :=
  mk_ndarray [n; n] (repeat 0%Q (n * n)).

Definition fit_kernel (X Y : ndarray) (_ : option PriorMu) (_ _ _ : string)
  (_ _ : bool) (x : W) : result (ndarray * ndarray * Hyps) * W :=
  let n := hd 0%nat (shape X) in
  (Ok (square n, square n, tt), x).

(** The posterior mean at a test point is its first coordinate plus the mean
    response's first cell; the deviation is 1. *)
Definition predict (X_train Y_train X_test cov inv : ndarray) (_ : Hyps)
  (_ : string) (_ : option PriorMu) (_ : bool)
  : result (ndarray * ndarray * ndarray) :=
  let l := hd 0%nat (shape X_test) in
  let y := hd 0%Q (data Y_train) in
  Ok (mk_ndarray [l; 1%nat] (map (fun r => (hd 0 r + y)%Q) (rows X_test)),
      mk_ndarray [l; 1%nat] (repeat 1%Q l),
      square l).

(** The acquisition score is the posterior mean. *)
Definition rule : acquisition_rule :=
  fun pred_mean _ _ => Ok (data pred_mean).

(** A local search that ignores its objective and its box: it sends the
    coordinate c of its start to 12 * |c - 1|, and reports a value of 0.
    As scipy does, it returns a flat array. *)
Definition drift (_ : objective) (x0 : ndarray) (_ : list (Q * Q))
  (_ : string) (x : W) : result OptimizeResult * W :=
  (Ok (mk_OptimizeResult
         (mk_ndarray [length (data x0)]
            (map (fun c => (12 * Qabs (c - 1))%Q) (data x0)))
         0%Q false), x).

(** [num_samples] points of the domain, the k-th at the lower bounds plus
    (seed + k + tick), reduced into the first interval's length. *)
Definition samples (range : list (Q * Q)) (_ : string) (num_samples : Z)
  (seed : option Z) (x : W) : result ndarray * W :=
  let k := Z.to_nat num_samples in
  let s := match seed with Some s => s | None => Z.of_nat x end in
  (Ok (mk_ndarray [k; length range]
         (concat (map (fun i =>
                         map (fun b => (fst b + inject_Z ((s + Z.of_nat i) mod 3))%Q)
                             range)
                      (seq 0 k)))),
   S x).

(** A generator in the shape of [RandomState(seed).uniform]: seeds outside
    [0, 2^32) are refused, the value lies in [low, high). *)
Definition uniform (seed : Z) (low high : Q) : result Q :=
  if ((0 <=? seed) && (seed <? 2 ^ 32))%Z
  then Ok (low + (high - low) * (seed mod 10 # 10))%Q
  else Err ValueError.

(** A crude power of ten: 10 to the integer part of the exponent. *)
Definition pow10 (u : Q) : Q := (10 ^ Qfloor u)%Q.

Definition time (x : W) : Q * W := (inject_Z (Z.of_nat x), S x).

Definition collaborators : Collaborators W Hyps PriorMu :=
  mk_Collaborators
    (1000 # 1)
    ["matern52"; "se"]%string
    ["ei"; "pi"; "ucb"]%string
    ["BFGS"; "L-BFGS-B"]%string
    ["L-BFGS-B"; "DIRECT"]%string
    ["ml"; "loocv"]%string
    ["gp"; "tp"]%string
    ["uniform"; "gaussian"; "sobol"; "halton"]%string
    fit_kernel predict (fun _ _ => Ok rule) (fun _ => None)
    drift samples uniform pow10 time.

(** An engine over the one-dimensional domain [0, 10]. *)
Definition engine (normalize : bool) : MOBO PriorMu :=
  mk_MOBO [(0, 10 # 1)]%Q "gp" "ei" "L-BFGS-B" normalize None false
    "matern52" true "BFGS" "ml" None.

(** Three training points and their two responses. *)
Definition X_train : ndarray := mk_ndarray [3; 1]%nat [1; 5; 9]%Q.
Definition Y_train : ndarray :=
  mk_ndarray [3; 2]%nat [4; 0; 1; 2; 3; 7]%Q.

(** The caller's world: [X_train] at address 0, [Y_train] at address 1. *)
Definition world0 : world W := mk_world 0%nat [X_train; Y_train] [].

(** An objective that scores a point by its first coordinate. *)
Definition first_coordinate : objective :=
  fun X => Ok (map (fun r => hd 0%Q r) (rows (atleast_2d X))).

(** Another world of the caller: other addresses, other clock, a trace
    already begun. *)
Definition world1 : world W :=
  mk_world 40%nat [Y_train; X_train] [EvTime].

(** A response array with a third column. *)
Definition Y_three : ndarray :=
  mk_ndarray [3; 3]%nat [4; 0; 1; 1; 2; 1; 3; 7; 1]%Q.

(** A constant response column. *)
Definition Y_constant : ndarray := mk_ndarray [3; 1]%nat [5; 5; 5]%Q.

(** Two candidates and one response column, for the acquisition scores. *)
Definition X_test : ndarray := mk_ndarray [2; 1]%nat [3; 4]%Q.
Definition Y_column : ndarray := mk_ndarray [3; 1]%nat [4; 1; 3]%Q.

(** The external state read as a time: the tick counter. *)
Definition now (x : W) : Q := inject_Z (Z.of_nat x).

(** Training inputs in three dimensions: three batches of one point. *)
Definition X_batched : ndarray := mk_ndarray [3; 1; 1]%nat [1; 5; 9]%Q.

(** Callees that write: the fit and the closures leave 9, 5, 1 in the
    inputs and 1, 1, 1 in the response column they are handed;
    [normalize_min_max] writes nothing. *)
Definition rewriting : Callees W :=
  let X' : world W -> option ndarray :=
    fun _ => Some (mk_ndarray [3; 1]%nat [9; 5; 1]%Q) in
  let Y' : world W -> option ndarray :=
    fun _ => Some (mk_ndarray [3; 1]%nat [1; 1; 1]%Q) in
  mk_Callees (fun _ => None) X' Y' X' Y' Y'.

End Toy.


(** * Proofs *)

(** ** Stepping through the monad *)

Section Steps.

Context {W : Type}.

Lemma bind_ok {A B} (m : M W A) (k : A -> M W B) w b w' :
  bind m k w = (Ok b, w') ->
  exists a w1, m w = (Ok a, w1) /\ k a w1 = (Ok b, w').
Proof.
  unfold bind. destruct (m w) as [[a|e] w1]; intro H.
  - exists a, w1. split; [reflexivity | exact H].
  - discriminate H.
Qed.

Lemma ret_ok {A} (a b : A) (w w' : world W) :
  ret a w = (Ok b, w') -> b = a /\ w' = w.
Proof. unfold ret. intro H. inversion H. split; reflexivity. Qed.

Lemma lift_ok {A} (r : result A) (w w' : world W) a :
  lift r w = (Ok a, w') -> r = Ok a /\ w' = w.
Proof. unfold lift. intro H. inversion H. split; reflexivity. Qed.

Lemma assert_ok (b : bool) (w w' : world W) u :
  assert_ b w = (Ok u, w') -> b = true /\ w' = w.
Proof.
  unfold assert_, lift, rassert. destruct b; intro H; inversion H.
  split; reflexivity.
Qed.

Lemma emit_ok (e : event) (w w' : world W) u :
  emit e w = (Ok u, w') -> w' = mk_world (ext w) (heap w) (trace w ++ [e]).
Proof. unfold emit. intro H. inversion H. reflexivity. Qed.

Lemma call_ok {A} (f : W -> result A * W) (w w' : world W) a :
  call f w = (Ok a, w') ->
  exists x, f (ext w) = (Ok a, x) /\ w' = mk_world x (heap w) (trace w).
Proof.
  unfold call. destruct (f (ext w)) as [r x]. intro H. inversion H.
  exists x. split; reflexivity.
Qed.

Lemma alloc_ok (a : ndarray) (w w' : world W) l :
  alloc a w = (Ok l, w') ->
  l = length (heap w) /\ w' = mk_world (ext w) (heap w ++ [a]) (trace w).
Proof. unfold alloc. intro H. inversion H. split; reflexivity. Qed.

Lemma deref_ok (l : loc) (w w' : world W) a :
  deref l w = (Ok a, w') -> nth_error (heap w) l = Some a /\ w' = w.
Proof.
  unfold deref. destruct (nth_error (heap w) l); intro H; inversion H.
  split; reflexivity.
Qed.

Lemma rbind_ok {A B} (r : result A) (k : A -> result B) b :
  rbind r k = Ok b -> exists a, r = Ok a /\ k a = Ok b.
Proof.
  destruct r as [a|e]; simpl; intro H; [exists a; auto | discriminate].
Qed.

Lemma rassert_ok (b : bool) u : rassert b = Ok u -> b = true.
Proof. destruct b; simpl; [reflexivity | discriminate]. Qed.

End Steps.

(** One step of inversion of a successful chain of results. *)
Ltac rinvert_step H :=
  let a := fresh "v" in
  let Hm := fresh "Hr" in
  apply rbind_ok in H; destruct H as (a & Hm & H).

(** ** What a run can do to the world

    Whatever its outcome, a computation of the round only appends: new
    objects to the heap, new events to the trace. *)

Section Frame.

Context {W : Type}.

Variable P : event -> Prop.

Lemma grows_refl (w : world W) : grows P w w.
Proof.
  split; [exists [] | exists []]; rewrite app_nil_r; auto.
Qed.

Lemma grows_trans (w1 w2 w3 : world W) :
  grows P w1 w2 -> grows P w2 w3 -> grows P w1 w3.
Proof.
  intros [[h1 Hh1] [t1 [Ht1 F1]]] [[h2 Hh2] [t2 [Ht2 F2]]]. split.
  - exists (h1 ++ h2). rewrite Hh2, Hh1, app_assoc. reflexivity.
  - exists (t1 ++ t2). split.
    + rewrite Ht2, Ht1, app_assoc. reflexivity.
    + apply Forall_app. split; assumption.
Qed.

Lemma keeps_bind {A B} (m : M W A) (k : A -> M W B) :
  keeps P m -> (forall a, keeps (W:=W) P (k a)) -> keeps (W:=W) P (bind m k).
Proof.
  intros Hm Hk w. unfold bind. specialize (Hm w).
  destruct (m w) as [[a|e] w1]; simpl in *.
  - eapply grows_trans; [exact Hm | apply Hk].
  - exact Hm.
Qed.

Lemma keeps_bind_ret {A B} (a : A) (k : A -> M W B) :
  keeps (W:=W) P (k a) -> keeps (W:=W) P (bind (ret a) k).
Proof. intros H w. exact (H w). Qed.

Lemma keeps_bind_raise {A B} (e : exn) (k : A -> M W B) :
  keeps (W:=W) P (bind (raise e) k).
Proof. intro w. apply grows_refl. Qed.

Lemma keeps_ret {A} (a : A) : keeps (W:=W) P (ret a).
Proof. intro w. apply grows_refl. Qed.

Lemma keeps_raise {A} (e : exn) : keeps (W:=W) P (@raise W A e).
Proof. intro w. apply grows_refl. Qed.

Lemma keeps_lift {A} (r : result A) : keeps (W:=W) P (lift r).
Proof. intro w. apply grows_refl. Qed.

Lemma keeps_assert (b : bool) : keeps (W:=W) P (assert_ b).
Proof. intro w. apply grows_refl. Qed.

Lemma keeps_deref (l : loc) : keeps (W:=W) P (deref l).
Proof.
  intro w. unfold deref. destruct (nth_error (heap w) l); apply grows_refl.
Qed.

Lemma keeps_alloc (a : ndarray) : keeps (W:=W) P (alloc a).
Proof.
  intro w. split; simpl.
  - exists [a]. reflexivity.
  - exists []. rewrite app_nil_r. auto.
Qed.

Lemma keeps_call {A} (f : W -> result A * W) : keeps (W:=W) P (call f).
Proof.
  intro w. unfold call. destruct (f (ext w)) as [r x]. split; simpl.
  - exists []. rewrite app_nil_r. reflexivity.
  - exists []. rewrite app_nil_r. auto.
Qed.

Lemma keeps_emit (e : event) : P e -> keeps (W:=W) P (emit e).
Proof.
  intros He w. split; simpl.
  - exists []. rewrite app_nil_r. reflexivity.
  - exists [e]. auto.
Qed.

(** An object of the heap stays where it is and as it is. *)
Lemma grows_lookup (w w' : world W) l a :
  grows P w w' -> nth_error (heap w) l = Some a -> nth_error (heap w') l = Some a.
Proof.
  intros [[h Hh] _] Hl. rewrite Hh. rewrite nth_error_app1; [exact Hl|].
  apply nth_error_Some. rewrite Hl. discriminate.
Qed.

End Frame.

Create HintDb keeps.

#[local] Hint Resolve keeps_ret keeps_raise keeps_lift keeps_assert
  keeps_deref keeps_alloc keeps_call : keeps.

(** Splits a frame goal along the structure of the computation. *)
Ltac frame_step :=
  match goal with
  | |- keeps _ (bind _ _) => apply keeps_bind; [| intros ?]
  | |- keeps _ (emit _) => apply keeps_emit
  | |- keeps _ (match ?x with _ => _ end) => destruct x
  | |- keeps _ _ => solve [auto with keeps]
  end.

Section EngineFrame.

Context {W Hyps PriorMu : Type}.
Variable C : Collaborators W Hyps PriorMu.
Variable self : MOBO PriorMu.

Variables (str_sampling_method : string) (num_samples : Z) (seed : option Z).

Local Abbreviation P := (round_event C str_sampling_method num_samples seed).

Lemma keeps_clock : keeps P (clock C).
Proof. unfold clock. repeat frame_step. exact I. Qed.

Lemma keeps_fit l1 l2 : keeps P (fit C self l1 l2).
Proof. unfold fit. repeat frame_step. exact I. Qed.

Lemma keeps_normalized l : keeps P (@normalized W l).
Proof. unfold normalized. repeat frame_step. Qed.

Lemma keeps_draw : keeps P (draw_log_weight C seed).
Proof.
  unfold draw_log_weight. destruct seed as [s0|].
  - apply keeps_bind_ret. repeat frame_step. simpl. repeat split.
    f_equal. lia.
  - apply keeps_bind_raise.
Qed.

Lemma keeps_minimize_each f bounds initials :
  keeps P (minimize_each C self f bounds initials).
Proof.
  induction initials as [|x0 rest IH]; simpl.
  - apply keeps_ret.
  - repeat frame_step; solve [exact I | exact IH].
Qed.

Lemma keeps__optimize f :
  keeps P (_optimize C self f str_sampling_method num_samples seed).
Proof.
  unfold _optimize. repeat frame_step.
  - simpl. auto.
  - apply keeps_minimize_each.
Qed.

Lemma keeps_optimize lX lY :
  keeps P (optimize C self lX lY str_sampling_method num_samples seed).
Proof.
  unfold optimize.
  repeat first [ apply keeps_clock | apply keeps_fit | apply keeps_normalized
               | apply keeps_draw | apply keeps__optimize | frame_step ].
Qed.

End EngineFrame.

(** Inversion of the primitive steps of a successful run. *)
Ltac invert_prim Hm :=
  lazymatch type of Hm with
  | deref _ _ = _ => apply deref_ok in Hm; destruct Hm as [Hm ->]
  | assert_ _ _ = _ => apply assert_ok in Hm; destruct Hm as [Hm ->]
  | lift _ _ = _ => apply lift_ok in Hm; destruct Hm as [Hm ->]
  | ret _ _ = _ => apply ret_ok in Hm; destruct Hm as [Hm ->]
  | emit _ _ = _ => apply emit_ok in Hm; subst
  | alloc _ _ = _ => apply alloc_ok in Hm; destruct Hm as [-> ->]
  | call _ _ = _ =>
      let x := fresh "x" in
      apply call_ok in Hm; destruct Hm as (x & Hm & ->)
  end.

(** Inversion of a whole chain of binds, down to its last computation. *)
Ltac invert_run H :=
  repeat
    (cbv beta in H;
     lazymatch type of H with
     | bind _ _ _ = (Ok _, _) =>
         let a := fresh "v" in
         let w1 := fresh "w" in
         let Hm := fresh "Hm" in
         apply bind_ok in H; destruct H as (a & w1 & Hm & H);
         try invert_run Hm
     | (match ?v with pair _ _ => _ end) _ = _ => is_var v; destruct v
     | (match ?v with pair _ _ => _ end) = _ =>
         first [ is_var v; destruct v
               | let E := fresh "E" in destruct v eqn:E ]
     | _ => invert_prim H
     end).

Section Inversion.

Context {W Hyps PriorMu : Type}.
Variable C : Collaborators W Hyps PriorMu.
Variable self : MOBO PriorMu.

Lemma clock_ok w t w' :
  clock C w = (Ok t, w') ->
  exists x, time C (ext w) = (t, x) /\
            w' = mk_world x (heap w) (trace w ++ [EvTime]).
Proof.
  unfold clock. intro H. invert_run H. inversion H. subst.
  exists x. split; [exact E | reflexivity].
Qed.

Lemma fit_ok lX lY w r w' :
  fit C self lX lY w = (Ok r, w') ->
  exists X Y x,
    nth_error (heap w) lX = Some X /\ nth_error (heap w) lY = Some Y /\
    get_optimized_kernel C X Y (prior_mu self) (str_cov self)
      (str_optimizer_method_gp self) (str_modelselection_method self)
      (use_ard self) (debug self) (ext w) = (Ok r, x) /\
    w' = mk_world x (heap w) (trace w ++ [EvFit X Y]).
Proof.
  unfold fit. intro H. invert_run H. simpl in *.
  exists v, v0, x. auto.
Qed.

Lemma normalized_ok l (w : world W) l' w' :
  normalized l w = (Ok l', w') ->
  exists Y Y',
    nth_error (heap w) l = Some Y /\ utils_bo.normalize_min_max Y = Ok Y' /\
    l' = length (heap w) /\
    w' = mk_world (ext w) (heap w ++ [Y']) (trace w).
Proof.
  unfold normalized. intro H. invert_run H. exists v, v0. auto.
Qed.

Lemma draw_ok seed w u w' :
  draw_log_weight C seed w = (Ok u, w') ->
  exists s,
    seed = Some s /\ random_state_uniform C (s + 101) (-3) 3 = Ok u /\
    w' = mk_world (ext w) (heap w)
           (trace w ++ [EvDraw (s + 101) (-3) 3 (Ok u)]).
Proof.
  unfold draw_log_weight. intro H. destruct seed as [s|].
  - invert_run H. simpl in *. exists s. rewrite <- H. auto.
  - discriminate H.
Qed.

End Inversion.

Lemma nth_error_app_at {A} (h l : list A) k :
  nth_error (h ++ l) (length h + k) = nth_error l k.
Proof.
  rewrite nth_error_app2 by lia. f_equal. lia.
Qed.

Lemma nth_error_app_old {A} {h : list A} (l : list A) {i a} :
  nth_error h i = Some a -> nth_error (h ++ l) i = Some a.
Proof.
  intro H. rewrite nth_error_app1; [exact H|].
  apply nth_error_Some. rewrite H. discriminate.
Qed.

Section Round.

Context {W Hyps PriorMu : Type}.
Variable C : Collaborators W Hyps PriorMu.
Variable self : MOBO PriorMu.

Lemma _optimize_ok f m n seed w p nps w' :
  _optimize C self f m n seed w = (Ok (p, nps), w') ->
  exists initials x rows pts best,
    get_samples C (range_X self) m n seed (ext w) = (Ok initials, x) /\
    iter initials = Ok rows /\
    minimize_each C self f (range_X self) rows
      (mk_world x (heap w) (trace w ++ [EvSamples m n seed])) = (Ok pts, w') /\
    array pts = Ok nps /\
    utils_bo.get_best_acquisition_by_evaluation nps f = Ok best /\
    index best 0 = Ok p.
Proof.
  unfold _optimize, _get_bounds. intro H. invert_run H.
  injection H as -> ->. cbn [ext heap trace] in *.
  exists v0, x, v1, v2, v4. auto 10.
Qed.

Ltac invert_round :=
  repeat match goal with
    | H : clock _ _ = (Ok _, _) |- _ =>
        apply clock_ok in H; destruct H as (? & ? & ->)
    | H : fit _ _ _ _ _ = (Ok _, _) |- _ =>
        apply fit_ok in H; destruct H as (? & ? & ? & ? & ? & ? & ->)
    | H : normalized _ _ = (Ok _, _) |- _ =>
        apply normalized_ok in H; destruct H as (? & ? & ? & ? & -> & ->)
    | H : draw_log_weight _ _ _ = (Ok _, _) |- _ =>
        apply draw_ok in H; destruct H as (? & ? & ? & ->)
    end;
  cbn [ext heap trace] in *.


Ltac heap_norm :=
  repeat rewrite <- app_assoc in *; cbn [app] in *;
  repeat rewrite length_app in *; cbn [length] in *;
  repeat match goal with
    | Hl : nth_error ?h ?l = Some _, H : nth_error (?h ++ _) ?l = Some _ |- _ =>
        rewrite (nth_error_app_old _ Hl) in H
    | H : nth_error (?h ++ _) (length ?h + _) = Some _ |- _ =>
        rewrite nth_error_app_at in H; cbn [nth_error] in H
    | H : nth_error (?h ++ _) (length ?h) = Some _ |- _ =>
        rewrite <- (Nat.add_0_r (length h)) in H at 1;
        rewrite nth_error_app_at in H; cbn [nth_error] in H
    | H : Some _ = Some _ |- _ => injection H as H; try subst
    end.


Lemma shape_2d a n0 n1 :
  (ndim a =? 2)%nat = true -> shape_at a 0 = Ok n0 -> shape_at a 1 = Ok n1 ->
  shape a = [n0; n1].
Proof.
  unfold ndim, shape_at. destruct (shape a) as [|p [|q [|r s]]]; simpl;
    try discriminate.
  intros _ H0 H1. injection H0 as ->. injection H1 as ->. reflexivity.
Qed.

Lemma minimize_each_heap f bounds initials (w : world W) :
  heap (snd (minimize_each C self f bounds initials w)) = heap w.
Proof.
  revert w. induction initials as [|x0 rest IH]; intro w; simpl.
  - reflexivity.
  - unfold bind at 1. simpl. unfold bind at 1. unfold call at 1. simpl.
    destruct (minimize C f x0 bounds (str_optimizer_method_bo self) (ext w))
      as [[r|e] x]; simpl; [|reflexivity].
    unfold bind.
    match goal with |- context [minimize_each C self f bounds rest ?w1] =>
      specialize (IH w1); destruct (minimize_each C self f bounds rest w1)
        as [[pts|e] w2] end; simpl in *; exact IH.
Qed.

Lemma _optimize_heap f m n seed (w : world W) :
  heap (snd (_optimize C self f m n seed w)) = heap w.
Proof.
  unfold _optimize. unfold bind at 1. simpl. unfold bind at 1.
  unfold call at 1. simpl.
  destruct (get_samples C (range_X self) m n seed (ext w)) as [[a|e] x];
    simpl; [|reflexivity].
  unfold bind at 1. unfold lift at 1.
  destruct (iter a) as [rows|e]; simpl; [|reflexivity].
  unfold bind at 1.
  match goal with |- context [minimize_each C self f ?b rows ?w1] =>
    pose proof (minimize_each_heap f b rows w1) as Hh;
    destruct (minimize_each C self f b rows w1) as [[pts|e] w2] end;
    simpl in *; [|exact Hh].
  unfold bind, lift, ret.
  destruct (array pts); simpl; [|exact Hh].
  destruct (utils_bo.get_best_acquisition_by_evaluation _ f); simpl;
    [|exact Hh].
  destruct (index _ 0); simpl; exact Hh.
Qed.

Lemma _optimize_heap_ok f m n seed (w : world W) r w' :
  _optimize C self f m n seed w = (r, w') -> heap w' = heap w.
Proof.
  intro H. pose proof (_optimize_heap f m n seed w) as Hh.
  rewrite H in Hh. exact Hh.
Qed.

Lemma optimize_ok lX lY m n seed w pt info w' :
  optimize C self lX lY m n seed w = (Ok (pt, info), w') ->
  exists X Y c1 c2 Y1 Y2 s U p nps wa wb,
    round_facts C self lX lY m n seed w pt info w' X Y c1 c2 Y1 Y2 s U p nps
      wa wb.
Proof.
  unfold optimize. intro H. invert_run H.
  injection H as Hpt Hinfo. subst pt info.
  pose proof (shape_2d _ Hm1 Hm5 Hm8) as SX.
  pose proof (shape_2d _ Hm2 Hm6 Hm3) as SY.
  apply Nat.eqb_eq in Hm4, Hm7, Hm9. subst v3 v6 v8.
  apply Z.ltb_lt in Hm10.
  apply rbind_ok in Hm26. destruct Hm26 as (b & Hb & Hpt).
  destruct (normalize_Y self) eqn:EN; invert_run Hm13;
    invert_round; injection Hm13 as -> ->; heap_norm;
    match goal with Hs : context [@_optimize] |- _ =>
      pose proof (_optimize_heap_ok _ _ _ _ _ Hs) as Hh; cbn [heap] in Hh
    end;
    do 12 eexists; (constructor; cbn [Y_original_1 Y_original_2 Y_normalized_1
      Y_normalized_2 cov_X_X_1 inv_cov_X_X_1 hyps_1 cov_X_X_2 inv_cov_X_X_2
      hyps_2 next_points acquisitions heap trace];
      rewrite ?EN; unfold round_objective, fitted;
      try first [ eassumption | reflexivity | eauto ]).
  all: reflexivity.
Qed.

End Round.

Section Clamp.

Import utils_bo.

Lemma Qlt_bool_true x y : Qlt_bool x y = true <-> (x < y)%Q.
Proof.
  unfold Qlt_bool. rewrite negb_true_iff. split.
  - intro H. apply Qnot_le_lt. intro L. apply Qle_bool_iff in L. congruence.
  - intro H. destruct (Qle_bool y x) eqn:E; [|reflexivity].
    apply Qle_bool_iff in E. exfalso. exact (Qlt_not_le _ _ H E).
Qed.

Lemma Qlt_bool_false x y : Qlt_bool x y = false <-> (y <= x)%Q.
Proof.
  unfold Qlt_bool. rewrite negb_false_iff. apply Qle_bool_iff.
Qed.

(** The clamp of a point lies in the interval, when the interval is not
    empty. *)
Lemma clamp_in b x :
  (fst b <= snd b)%Q -> (fst b <= clamp b x <= snd b)%Q.
Proof.
  intro V. unfold clamp.
  destruct (Qlt_bool x (fst b)) eqn:E1.
  - split; [apply Qle_refl | exact V].
  - apply Qlt_bool_false in E1. destruct (Qlt_bool (snd b) x) eqn:E2.
    + split; [exact V | apply Qle_refl].
    + apply Qlt_bool_false in E2. split; assumption.
Qed.

(** The clamp moves a point only when it is out of the interval, and then to
    the bound it has passed. *)
Lemma clamp_nearest b x :
  ((x < fst b)%Q /\ clamp b x = fst b) \/
  ((fst b <= x)%Q /\ (snd b < x)%Q /\ clamp b x = snd b) \/
  ((fst b <= x <= snd b)%Q /\ clamp b x = x).
Proof.
  unfold clamp. destruct (Qlt_bool x (fst b)) eqn:E1.
  - left. apply Qlt_bool_true in E1. auto.
  - apply Qlt_bool_false in E1. destruct (Qlt_bool (snd b) x) eqn:E2.
    + right. left. apply Qlt_bool_true in E2. auto.
    + right. right. apply Qlt_bool_false in E2. auto.
Qed.

Lemma valid_range_nth bounds i b :
  valid_range bounds = true -> nth_error bounds i = Some b ->
  (fst b <= snd b)%Q.
Proof.
  unfold valid_range. rewrite forallb_forall. intros V H.
  apply Qle_bool_iff. apply V. eapply nth_error_In. exact H.
Qed.

Lemma clamp_row_nth bounds row i x :
  nth_error (clamp_row bounds row) i = Some x ->
  exists b y, nth_error bounds i = Some b /\ nth_error row i = Some y /\
              x = clamp b y.
Proof.
  unfold clamp_row. revert row i.
  induction bounds as [|b bounds IH]; intros row i H.
  - destruct i; discriminate H.
  - destruct row as [|y row]; [destruct i; discriminate H|].
    destruct i as [|i]; simpl in H.
    + injection H as <-. exists b, y. auto.
    + apply IH in H. exact H.
Qed.

Lemma nth_error_firstn_Some {A} k (l : list A) i a :
  nth_error (firstn k l) i = Some a -> nth_error l i = Some a.
Proof.
  revert l i. induction k as [|k IH]; intros l i H.
  - destruct i; discriminate H.
  - destruct l as [|b l]; [destruct i; discriminate H|].
    destruct i as [|i]; simpl in *; [exact H | apply IH; exact H].
Qed.

(** The source's [check_points_in_bounds(next_point[np.newaxis, ...],
    bounds)[0]]: every coordinate of the result is the clamp of the
    coordinate of [next_point] at the same place. *)
Lemma checked_point p bounds b pt :
  check_points_in_bounds (newaxis p) bounds = Ok b ->
  index b 0 = Ok pt ->
  shape pt = [length bounds] /\
  forall i x, nth_error (data pt) i = Some x ->
    exists c y, nth_error bounds i = Some c /\ nth_error (data p) i = Some y /\
                x = clamp c y.
Proof.
  unfold check_points_in_bounds. intro H.
  rinvert_step H. apply rassert_ok in Hr.
  rinvert_step H. rinvert_step H. apply rassert_ok in Hr1.
  injection H as <-.
  unfold ndim, shape_at, newaxis in *. cbn [shape data] in *.
  destruct (shape p) as [|d [|d' s]] eqn:Sp; try discriminate Hr.
  cbn [nth_error] in Hr0. injection Hr0 as <-.
  apply Nat.eqb_eq in Hr1. subst d.
  unfold index, rows. cbn [shape data]. cbn [Nat.ltb Nat.leb].
  intro H. injection H as <-. cbn [shape data]. split; [reflexivity|].
  intros i x Hx. cbn [seq map concat] in Hx.
  apply nth_error_firstn_Some in Hx. cbn [Nat.mul skipn] in Hx.
  rewrite app_nil_r in Hx.
  apply clamp_row_nth in Hx. destruct Hx as (c & y & Hc & Hy & ->).
  apply nth_error_firstn_Some in Hy. exists c, y. auto.
Qed.

End Clamp.

Section Selection.

Import utils_bo.

Lemma argmin_from_spec l : forall pre bi best,
  nth_error pre bi = Some best ->
  (forall j sj, nth_error pre j = Some sj -> (best <= sj)%Q) ->
  (forall j sj, (j < bi)%nat -> nth_error pre j = Some sj -> (best < sj)%Q) ->
  exists sk,
    nth_error (pre ++ l) (argmin_from bi best (length pre) l) = Some sk /\
    (forall j sj, nth_error (pre ++ l) j = Some sj -> (sk <= sj)%Q) /\
    (forall j sj, (j < argmin_from bi best (length pre) l)%nat ->
                  nth_error (pre ++ l) j = Some sj -> (sk < sj)%Q).
Proof.
  induction l as [|x l IH]; intros pre bi best Hb Hmin Hfirst.
  - simpl. rewrite app_nil_r. exists best. auto.
  - assert (Hbi : (bi < length pre)%nat).
    { apply nth_error_Some. rewrite Hb. discriminate. }
    assert (E : pre ++ x :: l = (pre ++ [x]) ++ l).
    { rewrite <- app_assoc. reflexivity. }
    assert (L : length (pre ++ [x]) = S (length pre)).
    { rewrite length_app. simpl. lia. }
    simpl. rewrite E, <- L.
    destruct (Qlt_bool x best) eqn:Hx.
    + apply Qlt_bool_true in Hx. apply IH.
      * rewrite nth_error_app2 by lia. rewrite Nat.sub_diag. reflexivity.
      * intros j sj Hj. destruct (Nat.lt_ge_cases j (length pre)) as [Lt|Ge].
        -- rewrite nth_error_app1 in Hj by exact Lt.
           apply Qlt_le_weak. eapply Qlt_le_trans; [exact Hx | eauto].
        -- rewrite nth_error_app2 in Hj by exact Ge.
           destruct (j - length pre)%nat as [|k]; simpl in Hj.
           ++ injection Hj as <-. apply Qle_refl.
           ++ destruct k; discriminate Hj.
      * intros j sj Lt Hj. rewrite nth_error_app1 in Hj by exact Lt.
        eapply Qlt_le_trans; [exact Hx | eauto].
    + apply Qlt_bool_false in Hx. apply IH.
      * rewrite nth_error_app1 by exact Hbi. exact Hb.
      * intros j sj Hj. destruct (Nat.lt_ge_cases j (length pre)) as [Lt|Ge].
        -- rewrite nth_error_app1 in Hj by exact Lt. eauto.
        -- rewrite nth_error_app2 in Hj by exact Ge.
           destruct (j - length pre)%nat as [|k]; simpl in Hj.
           ++ injection Hj as <-. exact Hx.
           ++ destruct k; discriminate Hj.
      * intros j sj Lt Hj. rewrite nth_error_app1 in Hj by lia. eauto.
Qed.

(** [np.argmin]: the index it returns holds a least cell, and every cell
    before it is strictly greater: among equal least cells the first wins. *)
Lemma argmin_spec l k :
  argmin l = Ok k ->
  exists sk,
    nth_error l k = Some sk /\
    (forall j sj, nth_error l j = Some sj -> (sk <= sj)%Q) /\
    (forall j sj, (j < k)%nat -> nth_error l j = Some sj -> (sk < sj)%Q).
Proof.
  destruct l as [|x l]; simpl; [discriminate|]. intro H. injection H as <-.
  apply (@argmin_from_spec l [x] 0%nat x).
  - reflexivity.
  - intros [|[|j]] sj Hj; simpl in Hj; try discriminate.
    injection Hj as <-. apply Qle_refl.
  - intros j sj Lt. lia.
Qed.

Lemma index_newaxis a i b b' :
  index a i = Ok b -> index (newaxis b) 0 = Ok b' -> b' = b.
Proof.
  unfold index. destruct (shape a) as [|n s]; [discriminate|].
  destruct (i <? n)%nat; [|discriminate]. intro H. injection H as <-.
  unfold newaxis. cbn [shape data Nat.ltb Nat.leb Nat.mul skipn].
  intro H. injection H as <-. f_equal.
  rewrite firstn_firstn, Nat.min_id. reflexivity.
Qed.

(** The candidate [get_best_acquisition_by_evaluation] returns, taken out of
    its batch of one: a row of the candidates whose score under the objective
    is least, and the first such row. *)
Lemma get_best_spec nps f best p :
  get_best_acquisition_by_evaluation nps f = Ok best ->
  index best 0 = Ok p ->
  exists scores i si,
    f nps = Ok scores /\ index nps i = Ok p /\
    nth_error scores i = Some si /\
    (forall j sj, nth_error scores j = Some sj -> (si <= sj)%Q) /\
    (forall j sj, (j < i)%nat -> nth_error scores j = Some sj -> (si < sj)%Q).
Proof.
  unfold get_best_acquisition_by_evaluation. intros H Hp.
  rinvert_step H. rinvert_step H. rinvert_step H. rinvert_step H.
  injection H as <-.
  rewrite (index_newaxis _ _ Hr2 Hp) in *.
  destruct (argmin_spec _ Hr1) as (si & Hsi & Hmin & Hfirst).
  exists v0, v1, si. auto.
Qed.

End Selection.

Section WellFormed.

Import utils_bo.

Lemma concat_length_uniform {A} k (ls : list (list A)) :
  Forall (fun l => length l = k) ls -> length (concat ls) = (length ls * k)%nat.
Proof.
  induction 1 as [|l ls Hl _ IH]; simpl; [reflexivity|].
  rewrite length_app, IH, Hl. reflexivity.
Qed.

Lemma forallb_shape_eq (a : ndarray) l :
  forallb (fun b => shape_eqb (shape b) (shape a)) l = true ->
  Forall (fun b => shape b = shape a) l.
Proof.
  rewrite forallb_forall, Forall_forall. intros H b Hb.
  specialize (H b Hb). unfold shape_eqb in H.
  destruct (list_eq_dec Nat.eq_dec (shape b) (shape a)); [assumption|discriminate].
Qed.

(** A row of a stack of well-formed arrays is well-formed. *)
Lemma array_index_wf pts nps i p :
  Forall wf pts -> array pts = Ok nps -> index nps i = Ok p -> wf p.
Proof.
  intros Hwf Harr Hi. unfold array in Harr.
  destruct pts as [|a pts'].
  { injection Harr as <-. unfold index in Hi. cbn in Hi. inversion Hi. }
  remember (a :: pts') as pts eqn:Epts.
  destruct (forallb (fun b => shape_eqb (shape b) (shape a)) pts) eqn:E;
    [|discriminate].
  injection Harr as <-. apply forallb_shape_eq in E.
  unfold index in Hi. cbn [shape data] in Hi.
  destruct (i <? length pts)%nat eqn:Lt; [|discriminate].
  injection Hi as <-. apply Nat.ltb_lt in Lt.
  unfold wf. cbn [shape data].
  set (k := size_of (shape a)).
  assert (L : length (concat (map data pts)) = (length pts * k)%nat).
  { rewrite (concat_length_uniform (k:=k)), length_map; [reflexivity|].
    rewrite Forall_map. rewrite Forall_forall in *. intros b Hb.
    pose proof (Hwf b Hb) as Wb. unfold wf in Wb. rewrite Wb, (E b Hb).
    reflexivity. }
  rewrite length_firstn, length_skipn, L. nia.
Qed.

Lemma array_first_dimension pts nps :
  array pts = Ok nps -> hd 0%nat (shape nps) = length pts.
Proof.
  unfold array. destruct pts as [|a pts].
  - intro H. injection H as <-. reflexivity.
  - destruct (forallb _ _); [|discriminate]. intro H. injection H as <-.
    reflexivity.
Qed.

Lemma skipn_concat_uniform {A} d (ls : list (list A)) : forall i,
  Forall (fun l => length l = d) ls ->
  skipn (i * d) (concat ls) = concat (skipn i ls).
Proof.
  induction ls as [|l ls IH]; intros i H.
  - simpl. rewrite !skipn_nil. reflexivity.
  - inversion H as [|? ? Hl Hls]; subst. destruct i as [|i]; [reflexivity|].
    cbn [Nat.mul concat skipn]. rewrite skipn_app.
    rewrite skipn_all2 by lia.
    replace (length l + i * length l - length l)%nat with (i * length l)%nat
      by lia.
    apply IH. exact Hls.
Qed.

Lemma skipn_nth_error {A} (l : list A) : forall i x,
  nth_error l i = Some x -> skipn i l = x :: skipn (S i) l.
Proof.
  induction l as [|a l IH]; intros [|i] x H; try discriminate H.
  - injection H as <-. reflexivity.
  - simpl in H. apply IH in H. exact H.
Qed.

(** A row of a stack of well-formed arrays is the array stacked at its
    place. *)
Lemma array_index_nth pts nps i p :
  Forall wf pts -> array pts = Ok nps -> index nps i = Ok p ->
  nth_error pts i = Some p.
Proof.
  intros Hwf Harr Hi. unfold array in Harr.
  destruct pts as [|a pts'].
  { injection Harr as <-. unfold index in Hi. cbn in Hi. inversion Hi. }
  remember (a :: pts') as pts eqn:Epts.
  destruct (forallb (fun b => shape_eqb (shape b) (shape a)) pts) eqn:E;
    [|discriminate].
  injection Harr as <-. apply forallb_shape_eq in E.
  unfold index in Hi. cbn [shape data] in Hi.
  destruct (i <? length pts)%nat eqn:Lt; [|discriminate].
  injection Hi as <-. apply Nat.ltb_lt in Lt.
  destruct (nth_error pts i) as [q|] eqn:Hq;
    [|apply nth_error_None in Hq; lia].
  f_equal.
  assert (Hs : shape q = shape a).
  { rewrite Forall_forall in E. apply E. eapply nth_error_In. exact Hq. }
  assert (Hl : Forall (fun l => length l = size_of (shape a)) (map data pts)).
  { apply Forall_map. rewrite Forall_forall in *. intros b Hb.
    rewrite <- (E b Hb). apply Hwf. exact Hb. }
  rewrite (skipn_concat_uniform _ Hl).
  rewrite (@skipn_nth_error _ _ i (data q))
    by (rewrite nth_error_map, Hq; reflexivity).
  cbn [concat]. rewrite firstn_app.
  assert (Lq : length (data q) = size_of (shape a)).
  { rewrite Forall_forall in Hl. apply Hl. apply in_map.
    eapply nth_error_In. exact Hq. }
  rewrite firstn_all2 by lia. rewrite Lq, Nat.sub_diag. cbn [firstn].
  rewrite app_nil_r, <- Hs. destruct q. reflexivity.
Qed.


(** The cells of a stack are those of the arrays stacked, in order. *)
Lemma array_data pts nps :
  array pts = Ok nps -> data nps = concat (map data pts).
Proof.
  unfold array. destruct pts as [|a pts].
  - intro H. injection H as <-. reflexivity.
  - destruct (forallb _ _); [|discriminate]. intro H. injection H as <-.
    reflexivity.
Qed.

(** The clamped point is well-formed when the point is. *)
Lemma checked_point_wf p bounds b pt :
  wf p ->
  check_points_in_bounds (newaxis p) bounds = Ok b ->
  index b 0 = Ok pt -> wf pt.
Proof.
  unfold check_points_in_bounds, wf. intros Wp H.
  rinvert_step H. apply rassert_ok in Hr.
  rinvert_step H. rinvert_step H. apply rassert_ok in Hr1.
  injection H as <-.
  unfold ndim, shape_at, newaxis in *. cbn [shape data] in *.
  destruct (shape p) as [|d [|d' s]] eqn:Sp; try discriminate Hr.
  cbn [nth_error] in Hr0. injection Hr0 as <-.
  apply Nat.eqb_eq in Hr1. subst d.
  unfold index, rows. cbn [shape data]. cbn [Nat.ltb Nat.leb].
  intro H. injection H as <-. cbn [shape data size_of fold_right] in *.
  cbn [seq map concat Nat.mul skipn]. rewrite app_nil_r.
  unfold clamp_row. rewrite length_firstn, length_map, length_combine, length_firstn.
  lia.
Qed.

End WellFormed.

Section WellFormedRun.

Context {W Hyps PriorMu : Type}.
Variable C : Collaborators W Hyps PriorMu.
Variable self : MOBO PriorMu.

Lemma minimize_each_wf f bounds rows : returns_arrays C ->
  forall (w : world W) pts w',
    minimize_each C self f bounds rows w = (Ok pts, w') -> Forall wf pts.
Proof.
  intros R. induction rows as [|x0 rows IH]; intros w pts w' H; simpl in H.
  - invert_prim H. subst pts. constructor.
  - invert_run H. subst pts. constructor.
    + eapply R. exact Hm.
    + eapply IH. exact Hm0.
Qed.

Lemma _optimize_wf f m n seed (w : world W) p nps w' :
  returns_arrays C ->
  _optimize C self f m n seed w = (Ok (p, nps), w') -> wf p.
Proof.
  intros R H. apply _optimize_ok in H.
  destruct H as (initials & x & rows & pts & best & _ & _ & Hmin & Harr & Hbest & Hp).
  apply (minimize_each_wf _ _ _ R) in Hmin.
  destruct (get_best_spec _ _ Hbest Hp) as (scores & i & si & _ & Hi & _).
  eapply array_index_wf; eassumption.
Qed.

Lemma __init___valid_range r cov acq ny ard pm ogp obo ms ex dbg :
  __init__ C r cov acq ny ard pm ogp obo ms ex dbg = Ok self ->
  valid_range (range_X self) = true.
Proof.
  unfold __init__. intro H. rinvert_step H. apply rassert_ok in Hr.
  repeat rinvert_step H. injection H as <-. exact Hr.
Qed.

End WellFormedRun.

(** C1. Whenever [optimize] succeeds on an engine whose domain is valid
    (every interval has lo <= hi), the point it returns has one coordinate
    per bound, and every coordinate lies in its interval, bounds included:
    it is the clamp, to its interval, of the coordinate of the point that
    [_optimize] selected.  If the local optimizer returns arrays with as
    many cells as their shape says, as numpy arrays have, the point has
    exactly D coordinates. *)
Theorem optimize_next_point_in_bounds
  {W Hyps PriorMu} (C : Collaborators W Hyps PriorMu) (self : MOBO PriorMu)
  lX lY m n seed w pt info w' :
  valid_range (range_X self) = true ->
  optimize C self lX lY m n seed w = (Ok (pt, info), w') ->
  shape pt = [num_dim self] /\
  (forall i x, nth_error (data pt) i = Some x ->
     exists lo hi, nth_error (range_X self) i = Some (lo, hi) /\
                   (lo <= x <= hi)%Q) /\
  (exists f p nps wa wb,
     _optimize C self f m n seed wa = (Ok (p, nps), wb) /\
     forall i x, nth_error (data pt) i = Some x ->
       exists b y, nth_error (range_X self) i = Some b /\
                   nth_error (data p) i = Some y /\ x = utils_bo.clamp b y) /\
  (returns_arrays C -> length (data pt) = num_dim self).
Proof.
  intros V H. apply optimize_ok in H.
  destruct H as (X & Y & c1 & c2 & Y1 & Y2 & s & U & p & nps & wa & wb & F).
  destruct (run_point F) as (b & Hb & Hpt).
  destruct (checked_point _ _ Hb Hpt) as [Hs Hc]. split; [exact Hs|].
  split; [|split].
  - intros i x Hx. destruct (Hc i x Hx) as ([lo hi] & y & Hn & _ & ->).
    exists lo, hi. split; [exact Hn|].
    apply (clamp_in (lo, hi)). exact (valid_range_nth _ _ V Hn).
  - exists (round_objective C self X Y1 Y2 info U), p, nps, wa, wb.
    split; [exact (run_search F) | exact Hc].
  - intro R. pose proof (_optimize_wf _ _ _ _ _ _ R (run_search F)) as Wp.
    pose proof (checked_point_wf _ Wp Hb Hpt) as Wpt.
    unfold wf in Wpt. rewrite Hs in Wpt. cbn [size_of fold_right] in Wpt.
    unfold num_dim, _get_bounds in *. lia.
Qed.

Section Blind.

Context {W Hyps PriorMu : Type}.

Variable C : Collaborators W Hyps PriorMu.
Variable self : MOBO PriorMu.

Lemma minimize_each_refined f rows : forall w pts w',
  minimize_each C self f (_get_bounds self) rows w = (Ok pts, w') ->
  Forall2 (refined C self f) rows pts.
Proof.
  induction rows as [|x0 rows IH]; intros w pts w' H; simpl in H.
  - invert_prim H. subst pts. constructor.
  - invert_run H. subst pts. cbn [ext] in Hm. constructor.
    + exists (ext w), v0, x. auto.
    + eapply IH. exact Hm0.
Qed.

(** The loop of [_optimize] makes the candidates of the restarts. *)
Lemma minimize_each_restarts f rows : forall (w : world W) pts w',
  minimize_each C self f (_get_bounds self) rows w = (Ok pts, w') ->
  restarts C self f rows (ext w) pts (ext w').
Proof.
  induction rows as [|x0 rows IH]; intros w pts w' H; simpl in H.
  - invert_prim H. subst pts. reflexivity.
  - invert_run H. subst pts. cbn [ext] in Hm. cbn [restarts].
    exists v0, x. split; [exact Hm|]. split; [reflexivity|].
    apply IH in Hm0. exact Hm0.
Qed.


Lemma restarts_length f rows : forall x pts x',
  restarts C self f rows x pts x' -> length pts = length rows.
Proof.
  induction rows as [|x0 rows IH]; intros x [|pt pts] x' H; cbn in H;
    try contradiction; [reflexivity|].
  destruct H as (r & x1 & _ & _ & H). cbn [length]. f_equal.
  eapply IH. exact H.
Qed.

Lemma minimize_each_blind g f bounds rows :
  (forall o, opt_x (g o) = opt_x o) ->
  forall w, minimize_each (with_reports g C) self f bounds rows w
            = minimize_each C self f bounds rows w.
Proof.
  intros Hg. induction rows as [|x0 rows IH]; intro w; simpl.
  - reflexivity.
  - unfold bind, call, emit. cbn [ext heap trace minimize with_reports].
    destruct (minimize C f x0 bounds (str_optimizer_method_bo self) (ext w))
      as [[o|e] x]; [|reflexivity].
    rewrite IH, Hg. reflexivity.
Qed.

Lemma _optimize_blind g f m n seed :
  (forall o, opt_x (g o) = opt_x o) ->
  forall w, _optimize (with_reports g C) self f m n seed w
            = _optimize C self f m n seed w.
Proof.
  intros Hg w. unfold _optimize, bind, call, emit, lift.
  cbn [ext heap trace get_samples with_reports].
  destruct (get_samples C (range_X self) m n seed (ext w)) as [[a|e] x];
    [|reflexivity].
  destruct (iter a) as [rows|e]; [|reflexivity].
  rewrite minimize_each_blind by exact Hg. reflexivity.
Qed.

End Blind.

(** C3. When [_optimize] succeeds, the candidates are those of the
    restarts in restart order: the restart sampler has given an array of K
    rows, the k-th candidate is the [x] of the local optimizer's result
    from the k-th row of that array, and the K candidates are stacked in
    that order into the array of candidates, row after row.  The point
    returned is the row of index [i] of that array (the i-th candidate
    itself, when the local optimizer returns arrays), whose score under a
    new evaluation of the objective on the candidates is the lowest, and
    every candidate of a restart before the i-th scores strictly higher:
    among equal lowest scores the first restart wins.  What else a local run
    reports (its objective value, its success flag) has no part in it:
    rewriting the reports, [x] apart, changes neither the result nor the
    final state. *)
Theorem _optimize_selects_first_lowest
  {W Hyps PriorMu} (C : Collaborators W Hyps PriorMu) (self : MOBO PriorMu)
  f m n seed w p nps w' :
  _optimize C self f m n seed w = (Ok (p, nps), w') ->
  (exists arr x K s pts scores i si,
     get_samples C (range_X self) m n seed (ext w) = (Ok arr, x) /\
     shape arr = K :: s /\
     restarts C self f
       (map (fun k => mk_ndarray s
               (firstn (size_of s) (skipn (k * size_of s) (data arr))))
            (seq 0 K))
       x pts (ext w') /\
     length pts = K /\
     array pts = Ok nps /\
     hd 0%nat (shape nps) = K /\ data nps = concat (map data pts) /\
     f nps = Ok scores /\ index nps i = Ok p /\
     (i < K)%nat /\
     (returns_arrays C -> nth_error pts i = Some p) /\
     nth_error scores i = Some si /\
     (forall j sj, nth_error scores j = Some sj -> (si <= sj)%Q) /\
     (forall j sj, (j < i)%nat -> nth_error scores j = Some sj -> (si < sj)%Q))
  /\
  (forall g, (forall o, opt_x (g o) = opt_x o) ->
     _optimize (with_reports g C) self f m n seed w = (Ok (p, nps), w')).
Proof.
  intro H. split.
  - apply _optimize_ok in H.
    destruct H as (arr & x & rows & pts & best & Hs & Hit & Hmin & Harr &
                   Hbest & Hp).
    destruct (get_best_spec _ _ Hbest Hp) as (scores & i & si & Hf & Hi & Hsc).
    unfold iter in Hit. destruct (shape arr) as [|K s] eqn:Sa; [discriminate|].
    injection Hit as <-.
    pose proof Hmin as Hre. apply minimize_each_restarts in Hre.
    cbn [ext] in Hre.
    pose proof Hre as Hlen. apply restarts_length in Hlen.
    rewrite length_map, length_seq in Hlen.
    pose proof (array_first_dimension _ Harr) as Hd.
    exists arr, x, K, s, pts, scores, i, si.
    split; [exact Hs|]. split; [exact Sa|]. split; [exact Hre|].
    split; [exact Hlen|]. split; [exact Harr|].
    split; [rewrite Hd; exact Hlen|].
    split; [apply array_data; exact Harr|].
    split; [exact Hf|]. split; [exact Hi|].
    split.
    { unfold index in Hi. destruct (shape nps) as [|K' s']; [discriminate Hi|].
      cbn [hd] in Hd. subst K'. rewrite Hlen in Hi.
      destruct (i <? K)%nat eqn:Lt; [|discriminate Hi].
      apply Nat.ltb_lt. exact Lt. }
    split; [|exact Hsc].
    intro R. eapply array_index_nth; [|exact Harr|exact Hi].
    eapply minimize_each_wf; [exact R|exact Hmin].
  - intros g Hg. rewrite _optimize_blind by exact Hg. exact H.
Qed.

(** ** Running the monad forwards *)

Section Forward.

Context {W : Type}.

Lemma bind_run {A B} {m : M W A} (k : A -> M W B) {w a w1} :
  m w = (Ok a, w1) -> bind m k w = k a w1.
Proof. unfold bind. intros ->. reflexivity. Qed.

Lemma bind_fail {A B} {m : M W A} (k : A -> M W B) {w e w1} :
  m w = (Err e, w1) -> bind m k w = (Err e, w1).
Proof. unfold bind. intros ->. reflexivity. Qed.

Lemma deref_run {l} {w : world W} {a} :
  nth_error (heap w) l = Some a -> deref l w = (Ok a, w).
Proof. unfold deref. intros ->. reflexivity. Qed.

Lemma assert_run {b : bool} (w : world W) :
  b = true -> assert_ b w = (Ok tt, w).
Proof. intros ->. reflexivity. Qed.

Lemma assert_fail {b : bool} (w : world W) :
  b = false -> assert_ b w = (Err AssertionError, w).
Proof. intros ->. reflexivity. Qed.

Lemma lift_run {A} {r : result A} (w : world W) {a} :
  r = Ok a -> lift r w = (Ok a, w).
Proof. intros ->. reflexivity. Qed.

End Forward.

Lemma shape_at_nth a i n :
  nth_error (shape a) i = Some n -> shape_at a i = Ok n.
Proof. unfold shape_at. intros ->. reflexivity. Qed.

(** C4. If the response array has three columns, or the number of samples
    is not positive, [optimize] raises [AssertionError] and leaves the world
    as it found it: nothing is allocated, the trace gets no event, so the
    fitting collaborator has not been called, and no result is returned. *)
Theorem optimize_rejects_before_fitting
  {W Hyps PriorMu} (C : Collaborators W Hyps PriorMu) (self : MOBO PriorMu)
  lX lY m n seed (w : world W) X Y :
  nth_error (heap w) lX = Some X ->
  nth_error (heap w) lY = Some Y ->
  (exists N, shape Y = [N; 3%nat]) \/ (n <= 0)%Z ->
  optimize C self lX lY m n seed w = (Err AssertionError, w).
Proof.
  intros HX HY Hbad. unfold optimize.
  rewrite (bind_run _ (deref_run HX)).
  rewrite (bind_run _ (deref_run HY)).
  destruct (ndim X =? 2)%nat eqn:E1;
    [rewrite (bind_run _ (assert_run _ eq_refl))
    | apply bind_fail; reflexivity ].
  destruct (ndim Y =? 2)%nat eqn:E2;
    [rewrite (bind_run _ (assert_run _ eq_refl))
    | apply bind_fail; reflexivity ].
  unfold ndim in E1, E2.
  destruct (shape X) as [|x0 [|x1 [|x2 sx]]] eqn:SX; try discriminate E1.
  destruct (shape Y) as [|y0 [|y1 [|y2 sy]]] eqn:SY; try discriminate E2.
  rewrite (bind_run _ (lift_run _ (shape_at_nth Y 1 ltac:(rewrite SY; reflexivity)))).
  destruct (y1 =? 2)%nat eqn:E3;
    [rewrite (bind_run _ (assert_run _ eq_refl))
    | apply bind_fail; reflexivity ].
  destruct Hbad as [[N HN] | Hn].
  { injection HN as _ ->. discriminate E3. }
  rewrite (bind_run _ (lift_run _ (shape_at_nth X 0 ltac:(rewrite SX; reflexivity)))).
  rewrite (bind_run _ (lift_run _ (shape_at_nth Y 0 ltac:(rewrite SY; reflexivity)))).
  destruct (x0 =? y0)%nat eqn:E4;
    [rewrite (bind_run _ (assert_run _ eq_refl))
    | apply bind_fail; reflexivity ].
  rewrite (bind_run _ (lift_run _ (shape_at_nth X 1 ltac:(rewrite SX; reflexivity)))).
  destruct (x1 =? num_dim self)%nat eqn:E5;
    [rewrite (bind_run _ (assert_run _ eq_refl))
    | apply bind_fail; reflexivity ].
  apply bind_fail. apply assert_fail. apply Z.ltb_ge. exact Hn.
Qed.

Section Normalize.

Import utils_bo.

Lemma rmap_checked_div mn d l :
  ~ (d == 0)%Q ->
  rmap (fun y => checked_div (y - mn) d) l
  = Ok (map (fun y => ((y - mn) / d)%Q) l).
Proof.
  intro Hd. induction l as [|y l IH]; simpl; [reflexivity|].
  unfold checked_div at 1. destruct (Qeq_bool d 0) eqn:E.
  - apply Qeq_bool_iff in E. contradiction.
  - simpl. rewrite IH. reflexivity.
Qed.

(** The normalization of a column that has a row succeeds, whatever the
    column: the divisor, max - min, is used only when it is not zero. *)
Lemma normalize_min_max_total Y :
  data Y <> [] ->
  exists Y', normalize_min_max Y = Ok Y' /\ shape Y' = shape Y.
Proof.
  unfold normalize_min_max. destruct (data Y) as [|y0 ys]; [congruence|].
  intros _. destruct (Qeq_bool (list_max y0 ys) (list_min y0 ys)) eqn:E.
  - eexists. split; reflexivity.
  - rewrite rmap_checked_div.
    + eexists. split; reflexivity.
    + intro H. apply Qeq_bool_neq in E. apply E. lra.
Qed.

Lemma fold_min_constant c l : forall x,
  (x == c)%Q -> Forall (fun y => (y == c)%Q) l -> (fold_left Qmin l x == c)%Q.
Proof.
  induction l as [|y l IH]; intros x Hx Hl; simpl; [exact Hx|].
  inversion Hl as [|y' l' Hy Hl']; subst. apply IH; [|exact Hl'].
  destruct (Q.min_spec x y) as [[_ ->] | [_ ->]]; assumption.
Qed.

Lemma fold_max_constant c l : forall x,
  (x == c)%Q -> Forall (fun y => (y == c)%Q) l -> (fold_left Qmax l x == c)%Q.
Proof.
  induction l as [|y l IH]; intros x Hx Hl; simpl; [exact Hx|].
  inversion Hl as [|y' l' Hy Hl']; subst. apply IH; [|exact Hl'].
  destruct (Q.max_spec x y) as [[_ ->] | [_ ->]]; assumption.
Qed.

End Normalize.

(** C7. The min-max normalization of a constant column (one row at least,
    every cell equal to the same number) succeeds, and maps every row to the
    constant 0; and no column at all makes it divide by zero, the one way it
    could produce NaN or Inf from finite cells. *)
Theorem normalize_min_max_constant_column (Y : ndarray) (c : Q) :
  data Y <> [] ->
  Forall (fun y => (y == c)%Q) (data Y) ->
  utils_bo.normalize_min_max Y
  = Ok (mk_ndarray (shape Y) (map (fun _ => 0%Q) (data Y))) /\
  (forall Y', utils_bo.normalize_min_max Y'
              <> Err utils_bo.FloatingPointError).
Proof.
  intros Hne Hc. split.
  - unfold utils_bo.normalize_min_max.
    destruct (data Y) as [|y0 ys]; [congruence|].
    inversion Hc as [|y l Hy Hl]; subst.
    assert (E : Qeq_bool (utils_bo.list_max y0 ys) (utils_bo.list_min y0 ys)
                = true).
    { apply Qeq_bool_iff. unfold utils_bo.list_max, utils_bo.list_min.
      rewrite (fold_max_constant Hy Hl), (fold_min_constant Hy Hl).
      reflexivity. }
    rewrite E. reflexivity.
  - intros Y' H. destruct (data Y') as [|y0 ys] eqn:D.
    + unfold utils_bo.normalize_min_max in H. rewrite D in H. discriminate H.
    + destruct (@normalize_min_max_total Y') as (Z & HZ & _);
        [rewrite D; discriminate|].
      rewrite HZ in H. discriminate H.
Qed.

Section Scaling.

Import utils_bo.

Context {W Hyps PriorMu : Type}.

Variable C : Collaborators W Hyps PriorMu.
Variable self : MOBO PriorMu.

(** With either multiplier the scores are those of the acquisition rule on
    the posterior of the candidates, [raw], scaled; the two calls succeed or
    fail together. *)
Lemma compute_acquisitions_scaled k X X_train Y_train cov inv hyps :
  match compute_acquisitions C self X X_train Y_train cov inv hyps,
        compute_acquisitions (with_multiplier k C) self X X_train Y_train
          cov inv hyps with
  | Ok a, Ok a' =>
      exists fun_acquisition pred_mean pred_std raw,
        choose_fun_acquisition C (str_acq self) (hyps_get_noise C hyps)
        = Ok fun_acquisition /\
        compute_posteriors C self X_train Y_train
          (if (ndim X =? 1)%nat then atleast_2d X else X) cov inv hyps
        = Ok (pred_mean, pred_std) /\
        fun_acquisition pred_mean pred_std Y_train = Ok raw /\
        a = map (fun x => x * MULTIPLIER_ACQ C)%Q raw /\
        a' = map (fun x => x * (k * MULTIPLIER_ACQ C))%Q raw
  | Err e, Err e' => e = e'
  | _, _ => False
  end.
Proof.
  assert (P : compute_posteriors (with_multiplier k C) self X_train Y_train
                (if (ndim X =? 1)%nat then atleast_2d X else X) cov inv hyps
              = compute_posteriors C self X_train Y_train
                  (if (ndim X =? 1)%nat then atleast_2d X else X) cov inv hyps)
    by reflexivity.
  unfold compute_acquisitions. rewrite P.
  cbn [with_multiplier MULTIPLIER_ACQ choose_fun_acquisition hyps_get_noise].
  repeat match goal with
    | |- context [rbind ?r _] =>
        lazymatch r with
        | rbind _ _ => fail
        | _ => destruct r eqn:?; cbn [rbind]
        end
    | |- context [match ?p with pair _ _ => _ end] => destruct p
    end; try reflexivity.
  eexists _, _, _, _. repeat split; eassumption || reflexivity.
Qed.

Lemma Qlt_bool_scale k x y x' y' :
  (0 < k)%Q -> (x' == k * x)%Q -> (y' == k * y)%Q ->
  Qlt_bool x' y' = Qlt_bool x y.
Proof.
  intros Hk Hx Hy. destruct (Qlt_bool x y) eqn:E.
  - apply Qlt_bool_true in E. apply Qlt_bool_true. rewrite Hx, Hy.
    apply Qmult_lt_l; assumption.
  - apply Qlt_bool_false in E. apply Qlt_bool_false. rewrite Hx, Hy.
    apply Qmult_le_l; assumption.
Qed.

Lemma argmin_from_scale k l l' :
  (0 < k)%Q -> Forall2 (fun x x' => (x' == k * x)%Q) l l' ->
  forall bi best best' i, (best' == k * best)%Q ->
    argmin_from bi best' i l' = argmin_from bi best i l.
Proof.
  intros Hk F. induction F as [|x x' l l' Hx F IH]; intros bi best best' i Hb.
  - reflexivity.
  - simpl. rewrite (Qlt_bool_scale Hk Hx Hb).
    destruct (Qlt_bool x best); apply IH; assumption.
Qed.

(** Scaling every score by one positive factor does not move the least. *)
Lemma argmin_scale k l l' :
  (0 < k)%Q -> Forall2 (fun x x' => (x' == k * x)%Q) l l' ->
  argmin l' = argmin l.
Proof.
  intros Hk F. destruct F as [|x x' l l' Hx F]; [reflexivity|].
  simpl. f_equal. apply (argmin_from_scale Hk F). exact Hx.
Qed.

(** Strictly ordered scores come from strictly ordered products, and
    ordered products give ordered scores. *)
Lemma rounded_order rnd M k ri rj :
  (forall x y, (x <= y)%Q -> (rnd x <= rnd y)%Q) -> (0 < k)%Q ->
  ((rnd (ri * M) < rnd (rj * M))%Q ->
   (rnd (ri * (k * M)) <= rnd (rj * (k * M)))%Q) /\
  ((rnd (ri * (k * M)) < rnd (rj * (k * M)))%Q ->
   (rnd (ri * M) <= rnd (rj * M))%Q).
Proof.
  intros Hr Hk. split; intro H.
  - apply Hr. destruct (Qlt_le_dec (ri * M) (rj * M)) as [L|L].
    + setoid_replace (ri * (k * M))%Q with (k * (ri * M))%Q by ring.
      setoid_replace (rj * (k * M))%Q with (k * (rj * M))%Q by ring.
      apply Qmult_le_l; [exact Hk | apply Qlt_le_weak; exact L].
    + exfalso. apply Hr in L. apply (Qlt_irrefl (rnd (ri * M))).
      eapply Qlt_le_trans; eassumption.
  - apply Hr. destruct (Qlt_le_dec (ri * M) (rj * M)) as [L|L].
    + apply Qlt_le_weak. exact L.
    + exfalso.
      assert (L' : (rj * (k * M) <= ri * (k * M))%Q).
      { setoid_replace (ri * (k * M))%Q with (k * (ri * M))%Q by ring.
        setoid_replace (rj * (k * M))%Q with (k * (rj * M))%Q by ring.
        apply Qmult_le_l; assumption. }
      apply Hr in L'. apply (Qlt_irrefl (rnd (ri * (k * M)))).
      eapply Qlt_le_trans; eassumption.
Qed.

End Scaling.

(** C8. The scores [compute_acquisitions] returns are those that the
    acquisition rule gives on the posterior of the candidates, [raw], times
    the multiplier; with the multiplier multiplied by a positive [k] it
    succeeds on the same candidates, with the same [raw], and gives as many
    scores.  Whatever rounds the products, if it is monotone (as rounding
    to nearest is, and exact arithmetic), the order of two scores is never
    reversed: a score strictly below another with one multiplier is not
    strictly above it with the other.  When the products are exact, two
    scores compare after as they did before, for [<=] and for [<], and the
    candidate ranked best, the first of lowest negative acquisition, is the
    same. *)
Theorem compute_acquisitions_multiplier_order
  {W Hyps PriorMu} (C : Collaborators W Hyps PriorMu) (self : MOBO PriorMu)
  (k : Q) X X_train Y_train cov inv hyps a :
  (0 < k)%Q ->
  compute_acquisitions C self X X_train Y_train cov inv hyps = Ok a ->
  exists fun_acquisition pred_mean pred_std raw,
    choose_fun_acquisition C (str_acq self) (hyps_get_noise C hyps)
    = Ok fun_acquisition /\
    compute_posteriors C self X_train Y_train
      (if (ndim X =? 1)%nat then atleast_2d X else X) cov inv hyps
    = Ok (pred_mean, pred_std) /\
    fun_acquisition pred_mean pred_std Y_train = Ok raw /\
    a = scale_rounded (fun x => x) (MULTIPLIER_ACQ C) raw /\
    compute_acquisitions (with_multiplier k C) self X X_train Y_train cov inv
      hyps = Ok (scale_rounded (fun x => x) (k * MULTIPLIER_ACQ C) raw) /\
    forall rnd,
      let s := scale_rounded rnd (MULTIPLIER_ACQ C) raw in
      let s' := scale_rounded rnd (k * MULTIPLIER_ACQ C) raw in
      length s = length raw /\ length s' = length raw /\
      ((forall x y, (x <= y)%Q -> (rnd x <= rnd y)%Q) ->
       forall i j si sj si' sj',
         nth_error s i = Some si -> nth_error s j = Some sj ->
         nth_error s' i = Some si' -> nth_error s' j = Some sj' ->
         ((si < sj)%Q -> (si' <= sj')%Q) /\
         ((si' < sj')%Q -> (si <= sj)%Q)) /\
      ((forall r, In r raw ->
          (rnd (r * MULTIPLIER_ACQ C) == r * MULTIPLIER_ACQ C)%Q /\
          (rnd (r * (k * MULTIPLIER_ACQ C)) == r * (k * MULTIPLIER_ACQ C))%Q)
       ->
       (forall i j si sj si' sj',
           nth_error s i = Some si -> nth_error s j = Some sj ->
           nth_error s' i = Some si' -> nth_error s' j = Some sj' ->
           ((si <= sj)%Q <-> (si' <= sj')%Q) /\
           ((si < sj)%Q <-> (si' < sj')%Q)) /\
       utils_bo.argmin (vscale (-1) s') = utils_bo.argmin (vscale (-1) s)).
Proof.
  intros Hk Ha.
  pose proof (compute_acquisitions_scaled C self k X X_train Y_train cov inv
                hyps) as S.
  rewrite Ha in S.
  destruct (compute_acquisitions (with_multiplier k C) self X X_train Y_train
              cov inv hyps) as [a'|e]; [|contradiction].
  destruct S as (fa & pm & ps & raw & Hfa & Hpost & Hraw & -> & ->).
  exists fa, pm, ps, raw.
  split; [exact Hfa|]. split; [exact Hpost|]. split; [exact Hraw|].
  split; [reflexivity|]. split; [reflexivity|].
  intros rnd s s'. subst s s'. unfold scale_rounded.
  split; [apply length_map|]. split; [apply length_map|]. split.
  - intros Hr i j si sj si' sj' Hi Hj Hi' Hj'.
    rewrite nth_error_map in Hi, Hj, Hi', Hj'.
    destruct (nth_error raw i) as [ri|]; [|discriminate].
    destruct (nth_error raw j) as [rj|]; [|discriminate].
    simpl in *. injection Hi as <-. injection Hj as <-.
    injection Hi' as <-. injection Hj' as <-.
    apply rounded_order; assumption.
  - intro Hex. split.
    + intros i j si sj si' sj' Hi Hj Hi' Hj'.
      rewrite nth_error_map in Hi, Hj, Hi', Hj'.
      destruct (nth_error raw i) as [ri|] eqn:Ei; [|discriminate].
      destruct (nth_error raw j) as [rj|] eqn:Ej; [|discriminate].
      simpl in *. injection Hi as <-. injection Hj as <-.
      injection Hi' as <-. injection Hj' as <-.
      destruct (Hex ri (nth_error_In _ _ Ei)) as [E1 E2].
      destruct (Hex rj (nth_error_In _ _ Ej)) as [E3 E4].
      rewrite E1, E2, E3, E4.
      setoid_replace (ri * (k * MULTIPLIER_ACQ C))%Q
        with (k * (ri * MULTIPLIER_ACQ C))%Q by ring.
      setoid_replace (rj * (k * MULTIPLIER_ACQ C))%Q
        with (k * (rj * MULTIPLIER_ACQ C))%Q by ring.
      split; symmetry.
      * apply Qmult_le_l; exact Hk.
      * apply Qmult_lt_l; exact Hk.
    + apply (argmin_scale Hk). unfold vscale. clear Ha Hraw.
      induction raw as [|r raw IH]; simpl; constructor.
      * destruct (Hex r (or_introl eq_refl)) as [E1 E2].
        rewrite E1, E2. ring.
      * apply IH. intros r' Hr'. apply Hex. right. exact Hr'.
Qed.

(** The scores of the scalarized objective, cell by cell. *)
Lemma zip_add_nth u v : forall i x y,
  nth_error u i = Some x -> nth_error v i = Some y ->
  nth_error (zip_add u v) i = Some (x + y)%Q.
Proof.
  revert v. induction u as [|a u IH]; intros v i x y Hx Hy.
  - destruct i; discriminate Hx.
  - destruct v as [|b v]; [destruct i; discriminate Hy|].
    destruct i as [|i]; simpl in *.
    + injection Hx as <-. injection Hy as <-. reflexivity.
    + apply IH; assumption.
Qed.

Lemma zip_add_length u v :
  length u = length v -> length (zip_add u v) = length u.
Proof.
  revert v. induction u as [|a u IH]; intros [|b v] H; simpl in *;
    try reflexivity; try discriminate H.
  f_equal. apply IH. lia.
Qed.

Lemma scalarized_cells {W Hyps PriorMu} (C : Collaborators W Hyps PriorMu)
  (f1 f2 : objective) U X a b :
  f1 X = Ok a -> f2 X = Ok b -> length a = length b ->
  exists v,
    scalarized C f1 f2 U X = Ok v /\ length v = length a /\
    forall i ai bi,
      nth_error a i = Some ai -> nth_error b i = Some bi ->
      nth_error v i = Some (ai + pow10 C U * bi)%Q.
Proof.
  intros H1 H2 L. unfold scalarized. rewrite H1, H2. cbn [rbind].
  unfold vadd, vscale.
  assert (E : (length a =? length (map (Qmult (pow10 C U)) b))%nat = true)
    by (rewrite length_map; apply Nat.eqb_eq; exact L).
  rewrite E. eexists. split; [reflexivity|]. split.
  - apply zip_add_length. rewrite length_map. exact L.
  - intros i ai bi Ha Hb. apply zip_add_nth; [exact Ha|].
    rewrite nth_error_map, Hb. reflexivity.
Qed.

(** C2. Let the generator honour its contract (a value asked between -3 and
    3 lies there).  In a round that succeeds the seed is an integer [s]; one
    exponent [U] is drawn, by the generator seeded with [s + 101] and asked
    for a value between -3 and 3, so [U] lies there; the objective minimized
    and reported is the scalarization with [U] of the negative acquisitions
    of the two objectives; and at any candidates where these give as many
    scores each, its score is [negAcq_1 + 10^U * negAcq_2], cell by cell. *)
Theorem optimize_scalarization
  {W Hyps PriorMu} (C : Collaborators W Hyps PriorMu) (self : MOBO PriorMu)
  lX lY m n seed (w : world W) pt info w' :
  (forall s u, random_state_uniform C s (-3) 3 = Ok u -> (-3 <= u <= 3)%Q) ->
  optimize C self lX lY m n seed w = (Ok (pt, info), w') ->
  exists s U X Y1 Y2 p nps wa wb,
    seed = Some s /\
    random_state_uniform C (s + 101) (-3) 3 = Ok U /\
    (-3 <= U <= 3)%Q /\
    In (EvDraw (s + 101) (-3) 3 (Ok U)) (trace w') /\
    nth_error (heap w') (Y_normalized_1 info) = Some Y1 /\
    nth_error (heap w') (Y_normalized_2 info) = Some Y2 /\
    _optimize C self (round_objective C self X Y1 Y2 info U) m n seed wa
    = (Ok (p, nps), wb) /\
    round_objective C self X Y1 Y2 info U (next_points info)
    = Ok (acquisitions info) /\
    forall Xc a b,
      negative_acquisition C self X Y1
        (cov_X_X_1 info) (inv_cov_X_X_1 info) (hyps_1 info) Xc = Ok a ->
      negative_acquisition C self X Y2
        (cov_X_X_2 info) (inv_cov_X_X_2 info) (hyps_2 info) Xc = Ok b ->
      length a = length b ->
      exists v,
        round_objective C self X Y1 Y2 info U Xc = Ok v /\
        length v = length a /\
        forall i ai bi,
          nth_error a i = Some ai -> nth_error b i = Some bi ->
          nth_error v i = Some (ai + pow10 C U * bi)%Q.
Proof.
  intros Hrange H. apply optimize_ok in H.
  destruct H as (X & Y & c1 & c2 & Y1 & Y2 & s & U & p & nps & wa & wb & F).
  exists s, U, X, Y1, Y2, p, nps, wa, wb.
  split; [exact (run_seed F)|]. split; [exact (run_draw F)|].
  split; [exact (Hrange _ _ (run_draw F))|].
  split.
  { rewrite (run_trace_b F).
    pose proof (keeps__optimize C self m n seed
                  (round_objective C self X Y1 Y2 info U) wa) as G.
    rewrite (run_search F) in G. destruct G as [_ (t & Ht & _)].
    cbn [snd] in Ht. rewrite Ht, (run_trace_a F).
    apply in_or_app. left. apply in_or_app. left. apply in_or_app. right.
    simpl. auto 10. }
  rewrite (run_heap F), (run_norm1 F), (run_norm2 F).
  pose proof (run_Y1 F) as E1. pose proof (run_Y2 F) as E2.
  split.
  { destruct (normalize_Y self).
    - rewrite nth_error_app_at. reflexivity.
    - rewrite nth_error_app_at. simpl. congruence. }
  split.
  { destruct (normalize_Y self).
    - rewrite nth_error_app_at. reflexivity.
    - rewrite nth_error_app_at. simpl. congruence. }
  split; [exact (run_search F)|]. split; [exact (run_acquisitions F)|].
  intros Xc a b Ha Hb L. apply scalarized_cells; assumption.
Qed.

(** C6, as amended. Every draw of a round is made by a generator seeded with
    the seed of the round plus 101 and asked for a value between -3 and 3,
    and its outcome is a function of that seed alone: neither the sampling
    method, nor the number of samples, nor the training data, nor the
    external state has a part in it.  Every request to the restart sampler
    carries the method, the count and the seed of the round itself.  Both
    seeds come from the one seed of the round. *)
Theorem optimize_seeds_of_round
  {W Hyps PriorMu} (C : Collaborators W Hyps PriorMu) (self : MOBO PriorMu)
  lX lY m n seed (w : world W) r w' :
  optimize C self lX lY m n seed w = (r, w') ->
  exists t,
    trace w' = trace w ++ t /\
    (forall s low high u, In (EvDraw s low high u) t ->
       (exists s0, seed = Some s0 /\ s = (s0 + 101)%Z) /\
       low = (-3)%Q /\ high = 3%Q /\
       u = random_state_uniform C s (-3) 3) /\
    (forall m' n' seed', In (EvSamples m' n' seed') t ->
       m' = m /\ n' = n /\ seed' = seed).
Proof.
  intro H. pose proof (keeps_optimize C self m n seed lX lY w) as G.
  rewrite H in G. destruct G as [_ (t & Ht & Ft)]. cbn [snd] in Ht.
  exists t. split; [exact Ht|]. rewrite Forall_forall in Ft. split.
  - intros s low high u Hin. destruct (Ft _ Hin) as (Hs & Hl & Hh & Hu).
    split; [|auto]. exists (s - 101)%Z. split; [exact Hs | lia].
  - intros m' n' seed' Hin. exact (Ft _ Hin).
Qed.

Section ForwardEngine.

Context {W Hyps PriorMu : Type}.
Variable C : Collaborators W Hyps PriorMu.
Variable self : MOBO PriorMu.

Lemma clock_run (w : world W) :
  clock C w = (Ok (fst (time C (ext w))),
               mk_world (snd (time C (ext w))) (heap w) (trace w ++ [EvTime])).
Proof.
  unfold clock, bind, emit, call. cbn [ext heap trace].
  destruct (time C (ext w)) as [t x]. reflexivity.
Qed.

Lemma fit_run lX lY (w : world W) X Y :
  nth_error (heap w) lX = Some X -> nth_error (heap w) lY = Some Y ->
  fit C self lX lY w
  = (fst (fitted C self X Y (ext w)),
     mk_world (snd (fitted C self X Y (ext w))) (heap w)
       (trace w ++ [EvFit X Y])).
Proof.
  intros HX HY. unfold fit.
  rewrite (bind_run _ (deref_run HX)), (bind_run _ (deref_run HY)).
  unfold bind, emit, call, fitted. cbn [ext heap trace].
  destruct (get_optimized_kernel C X Y (prior_mu self) (str_cov self)
              (str_optimizer_method_gp self) (str_modelselection_method self)
              (use_ard self) (debug self) (ext w)) as [r x].
  reflexivity.
Qed.

Lemma normalized_run l (w : world W) Y Y' :
  nth_error (heap w) l = Some Y -> utils_bo.normalize_min_max Y = Ok Y' ->
  normalized l w
  = (Ok (length (heap w)), mk_world (ext w) (heap w ++ [Y']) (trace w)).
Proof.
  intros HY HN. unfold normalized.
  rewrite (bind_run _ (deref_run HY)), (bind_run _ (lift_run _ HN)).
  reflexivity.
Qed.

Lemma column_run {Y N c} k :
  shape Y = [N; c] -> (k < c)%nat ->
  column Y k
  = Ok (mk_ndarray [N; 1%nat]
          (map (fun i => nth (i * c + k) (data Y) 0%Q) (seq 0 N))).
Proof.
  intros S L. unfold column. rewrite S.
  apply Nat.ltb_lt in L. rewrite L. reflexivity.
Qed.

Lemma column_data_nonempty {Y N c k col} :
  shape Y = [N; c] -> (0 < N)%nat -> column Y k = Ok col -> data col <> [].
Proof.
  intros S L. unfold column. rewrite S.
  destruct (k <? c)%nat; [|discriminate]. intro H. injection H as <-.
  cbn [data]. destruct N; [lia|]. simpl. discriminate.
Qed.

End ForwardEngine.

Lemma nth_error_app_len {A} (h l : list A) a :
  nth_error (h ++ a :: l) (length h) = Some a.
Proof.
  rewrite nth_error_app2 by lia. rewrite Nat.sub_diag. reflexivity.
Qed.

(** Looks an address up in a heap that has grown. *)
Ltac heap_lookup :=
  cbn [heap ext trace fst snd]; repeat rewrite <- app_assoc; cbn [app];
  repeat rewrite length_app; cbn [length];
  first [ apply nth_error_app_len
        | rewrite nth_error_app_at; reflexivity
        | apply nth_error_app_old; eassumption
        | eassumption ].

(** C10. On a valid training set (matching shapes, one row at least), a
    positive number of samples and an allowed sampling method, with a fitting
    collaborator that does not fail, [optimize] called with [seed = None]
    raises [TypeError]: it has read the clock and fitted the two surrogates,
    and stops at the scalarization draw, before any draw, sampling or local
    search.  And whatever the arguments, a round that succeeds was given an
    integer seed. *)
Theorem optimize_seed_None
  {W Hyps PriorMu} (C : Collaborators W Hyps PriorMu) (self : MOBO PriorMu)
  lX lY m n (w : world W) X Y N :
  nth_error (heap w) lX = Some X ->
  nth_error (heap w) lY = Some Y ->
  shape X = [N; num_dim self] ->
  shape Y = [N; 2%nat] ->
  (0 < N)%nat ->
  (0 < n)%Z ->
  mem m (ALLOWED_SAMPLING_METHOD C) = true ->
  (forall Xa Ya x, exists r x', fitted C self Xa Ya x = (Ok r, x')) ->
  (exists w' Y1 Y2,
     optimize C self lX lY m n None w = (Err TypeError, w') /\
     trace w' = trace w ++ [EvTime; EvTime; EvFit X Y1; EvFit X Y2;
                            EvTime; EvTime]) /\
  (forall lX' lY' m' n' seed w0 pt info w1,
     optimize C self lX' lY' m' n' seed w0 = (Ok (pt, info), w1) ->
     exists s, seed = Some s).
Proof.
  intros HX HY SX SY HN Hn Hm Hfit. split.
  2:{ intros lX' lY' m' n' seed w0 pt info w1 H. apply optimize_ok in H.
      destruct H as (X' & Y' & c1 & c2 & Y1 & Y2 & s & U & p & nps & wa & wb & F).
      exists s. exact (run_seed F). }
  pose proof (@column_run Y N 2%nat 0%nat SY ltac:(lia)) as Hc1.
  pose proof (@column_run Y N 2%nat 1%nat SY ltac:(lia)) as Hc2.
  set (c1 := mk_ndarray [N; 1%nat] _) in Hc1.
  set (c2 := mk_ndarray [N; 1%nat] _) in Hc2.
  assert (exists Y1 Y2,
             (if normalize_Y self
              then utils_bo.normalize_min_max c1 = Ok Y1 /\
                   utils_bo.normalize_min_max c2 = Ok Y2
              else Y1 = c1 /\ Y2 = c2)) as (Y1 & Y2 & HY12).
  { destruct (normalize_Y self).
    - destruct (@normalize_min_max_total c1) as (Y1 & H1 & _);
        [exact (column_data_nonempty SY HN Hc1)|].
      destruct (@normalize_min_max_total c2) as (Y2 & H2 & _);
        [exact (column_data_nonempty SY HN Hc2)|].
      exists Y1, Y2. auto.
    - exists c1, c2. auto. }
  set (x1 := snd (time C (ext w))).
  set (x2 := snd (time C x1)).
  destruct (Hfit X Y1 x2) as ([[cov1 inv1] h1] & x3 & F1).
  destruct (Hfit X Y2 x3) as ([[cov2 inv2] h2] & x4 & F2).
  eexists _, Y1, Y2.
  unfold optimize.
  rewrite (bind_run _ (deref_run HX)), (bind_run _ (deref_run HY)).
  unfold ndim, shape_at. rewrite SX, SY. cbn [length nth_error Nat.eqb].
  split.
  - repeat first
      [ rewrite (bind_run _ (assert_run _ eq_refl))
      | rewrite (bind_run _ (lift_run _ eq_refl))
      | progress cbn beta iota delta [Nat.eqb]
      | rewrite Nat.eqb_refl ].
    rewrite (bind_run _ (assert_run _ (proj2 (Z.ltb_lt _ _) Hn))).
    rewrite (bind_run _ (assert_run _ Hm)).
    rewrite (bind_run _ (clock_run C w)).
    rewrite Hc1, Hc2.
    do 2 (erewrite bind_run by reflexivity).
    subst x1 x2.
    assert (Hnorm :
      (if normalize_Y self
       then (n1 <- normalized (length (heap w));;
             n2 <- normalized (length (heap w ++ [c1]));;
             ret (n1, n2))%mon
       else ret (length (heap w), length (heap w ++ [c1])))
        (mk_world (snd (time C (ext w))) ((heap w ++ [c1]) ++ [c2])
           (trace w ++ [EvTime]))
      = (Ok (if normalize_Y self
             then (length (heap w) + 2, length (heap w) + 3)%nat
             else (length (heap w), length (heap w) + 1)%nat),
         mk_world (snd (time C (ext w)))
           (heap w ++ [c1; c2] ++ if normalize_Y self then [Y1; Y2] else [])
           (trace w ++ [EvTime]))).
    { destruct (normalize_Y self); destruct HY12 as [E1 E2].
      - erewrite bind_run
          by (eapply normalized_run; [heap_lookup | exact E1]).
        erewrite bind_run
          by (eapply normalized_run; [heap_lookup | exact E2]).
        unfold ret. cbn [heap ext trace]. repeat rewrite <- app_assoc.
        cbn [app]. repeat rewrite length_app. cbn [length]. reflexivity.
      - unfold ret. repeat rewrite <- app_assoc. cbn [app].
        rewrite ?app_nil_r, length_app. reflexivity. }
    cbn [heap ext trace]. rewrite (bind_run _ Hnorm). clear Hnorm.
    assert (HL1 : forall (x : W) t,
      nth_error
        (heap (mk_world x (heap w ++ [c1; c2] ++
                 if normalize_Y self then [Y1; Y2] else []) t))
        (fst (if normalize_Y self
              then (length (heap w) + 2, length (heap w) + 3)%nat
              else (length (heap w), length (heap w) + 1)%nat))
      = Some Y1).
    { intros x t. destruct (normalize_Y self); destruct HY12 as [E1 E2];
        subst; heap_lookup. }
    assert (HL2 : forall (x : W) t,
      nth_error
        (heap (mk_world x (heap w ++ [c1; c2] ++
                 if normalize_Y self then [Y1; Y2] else []) t))
        (snd (if normalize_Y self
              then (length (heap w) + 2, length (heap w) + 3)%nat
              else (length (heap w), length (heap w) + 1)%nat))
      = Some Y2).
    { intros x t. destruct (normalize_Y self); destruct HY12 as [E1 E2];
        subst; heap_lookup. }
    assert (HLX : forall (x : W) t,
      nth_error
        (heap (mk_world x (heap w ++ [c1; c2] ++
                 if normalize_Y self then [Y1; Y2] else []) t)) lX
      = Some X).
    { intros x t. heap_lookup. }
    destruct (if normalize_Y self
              then (length (heap w) + 2, length (heap w) + 3)%nat
              else (length (heap w), length (heap w) + 1)%nat)
      as [l1 l2]. cbn [fst snd] in HL1, HL2.
    rewrite (bind_run _ (clock_run C _)). cbn [heap ext trace].
    match goal with |- bind (fit _ _ ?lx ?ly) _ ?wc = _ =>
      pose proof (fit_run C self lx ly wc (HLX _ _) (HL1 _ _)) as Hf1 end.
    cbn [ext heap trace] in Hf1. rewrite F1 in Hf1. cbn [fst snd] in Hf1.
    rewrite (bind_run _ Hf1). clear Hf1.
    match goal with |- bind (fit _ _ ?lx ?ly) _ ?wc = _ =>
      pose proof (fit_run C self lx ly wc (HLX _ _) (HL2 _ _)) as Hf2 end.
    cbn [ext heap trace] in Hf2. rewrite F2 in Hf2. cbn [fst snd] in Hf2.
    rewrite (bind_run _ Hf2). clear Hf2.
    rewrite (bind_run _ (clock_run C _)). cbn [heap ext trace].
    rewrite (bind_run _ (clock_run C _)). cbn [heap ext trace].
    rewrite (bind_run _ (deref_run (HLX _ _))).
    rewrite (bind_run _ (deref_run (HL1 _ _))).
    rewrite (bind_run _ (deref_run (HL2 _ _))).
    reflexivity.
  - cbn [trace]. repeat rewrite <- app_assoc. reflexivity.
Qed.

(** ** What the round leaves of the caller's objects *)

Section SparedSteps.

Context {W : Type}.
Variable lX : loc.
Variable w0 : world W.

Lemma spared_refl : spared lX w0 w0.
Proof. split; [auto | lia]. Qed.

Lemma update_length l a : forall h, length (update l a h) = length h.
Proof.
  intro h. revert l. induction h as [|b h IH]; intros [|l]; simpl; auto.
Qed.

Lemma update_other a : forall h l l',
  l' <> l -> nth_error (update l a h) l' = nth_error h l'.
Proof.
  induction h as [|b h IH]; intros l l' H.
  - destruct l; reflexivity.
  - destruct l as [|l], l' as [|l']; simpl; try reflexivity.
    + congruence.
    + apply IH. congruence.
Qed.

Lemma write_spared lf (w : world W) :
  writable lX w0 (fst lf) -> spared lX w0 w -> spared lX w0 (write lf w).
Proof.
  intros Hw [S1 S2]. unfold write.
  destruct (snd lf w) as [a|]; [|split; assumption].
  split; cbn [heap].
  - intros l b Hl Hne. rewrite update_other; [apply S1; assumption|].
    destruct Hw as [-> | Hge]; [exact Hne|].
    assert (l < length (heap w0))%nat
      by (apply nth_error_Some; congruence).
    lia.
  - rewrite update_length. exact S2.
Qed.

Lemma writes_spared ls :
  Forall (fun lf => writable lX w0 (fst lf)) ls ->
  forall w : world W, spared lX w0 w ->
    spared lX w0 (fold_left (fun v lf => write lf v) ls w).
Proof.
  induction 1 as [|lf ls Hlf _ IH]; intros w Hw; simpl; [exact Hw|].
  apply IH. apply write_spared; assumption.
Qed.

Lemma sparing_handing {A} ls (m : M W A) Q :
  Forall (fun lf => writable lX w0 (fst lf)) ls ->
  sparing lX w0 m Q -> sparing lX w0 (handing ls m) Q.
Proof.
  intros F Hm w Hw. destruct (Hm w Hw) as [S1 Q1]. unfold handing.
  destruct (m w) as [r w']. cbn [fst snd] in *.
  split; [apply writes_spared; assumption | exact Q1].
Qed.

Lemma sparing_bind {A B} (m : M W A) (k : A -> M W B) Q Q' :
  sparing lX w0 m Q -> (forall a, Q a -> sparing lX w0 (k a) Q') ->
  sparing lX w0 (bind m k) Q'.
Proof.
  intros Hm Hk w Hw. destruct (Hm w Hw) as [S1 Q1]. unfold bind.
  destruct (m w) as [[a|e] w1]; cbn [fst snd] in *.
  - apply (Hk a (Q1 a eq_refl) w1 S1).
  - split; [exact S1 | intros a H; discriminate H].
Qed.

Lemma sparing_keeps {A} P (m : M W A) :
  keeps P m -> sparing lX w0 m (fun _ => True).
Proof.
  intros Hk w [S1 S2]. destruct (Hk w) as [(h & Hh) _]. split; [|auto].
  unfold spared. rewrite Hh. split.
  - intros l a Hl Hne. apply nth_error_app_old. apply S1; assumption.
  - rewrite length_app. lia.
Qed.

Lemma sparing_ret {A} (a : A) (Q : A -> Prop) :
  Q a -> sparing lX w0 (ret a) Q.
Proof.
  intros Ha w Hw. split; [exact Hw|]. intros b H. injection H as <-. exact Ha.
Qed.

Lemma sparing_alloc a : sparing lX w0 (alloc a) (writable lX w0).
Proof.
  intros w [S1 S2]. unfold alloc, spared. cbn [fst snd heap]. split.
  - split.
    + intros l b Hl Hne. apply nth_error_app_old. apply S1; assumption.
    + rewrite length_app. lia.
  - intros l H. injection H as <-. right. exact S2.
Qed.

Lemma sparing_normalized l : sparing lX w0 (normalized l) (writable lX w0).
Proof.
  unfold normalized.
  eapply sparing_bind;
    [apply (@sparing_keeps _ (fun _ => True)); apply keeps_deref | intros Y _].
  eapply sparing_bind;
    [apply (@sparing_keeps _ (fun _ => True)); apply keeps_lift | intros Y' _].
  apply sparing_alloc.
Qed.

Lemma handing_none {A} (ls : list (loc * writing)) (m : M W A) w :
  Forall (fun lf => forall v : world W, snd lf v = None) ls ->
  handing ls m w = m w.
Proof.
  intro F. unfold handing. destruct (m w) as [r w']. f_equal.
  induction F as [|lf ls H _ IH]; simpl; [reflexivity|].
  replace (write lf w') with w' by (unfold write; rewrite H; reflexivity).
  exact IH.
Qed.

Lemma bind_ext_run {A B} (m1 m2 : M W A) (k1 k2 : A -> M W B) w :
  m1 w = m2 w ->
  (forall a w1, m2 w = (Ok a, w1) -> k1 a w1 = k2 a w1) ->
  bind m1 k1 w = bind m2 k2 w.
Proof.
  intros E H. unfold bind. rewrite E.
  destruct (m2 w) as [[a|e] w1]; [apply H; reflexivity | reflexivity].
Qed.

Lemma write_none_spared lf (w : world W) :
  (forall v : world W, snd lf v = None) -> write lf w = w.
Proof. intro H. unfold write. rewrite H. reflexivity. Qed.

Lemma writes_spared_or ls :
  Forall (fun lf => writable lX w0 (fst lf) \/
                    forall v : world W, snd lf v = None) ls ->
  forall w : world W, spared lX w0 w ->
    spared lX w0 (fold_left (fun v lf => write lf v) ls w).
Proof.
  induction 1 as [|lf ls Hlf _ IH]; intros w Hw; simpl; [exact Hw|].
  apply IH. destruct Hlf as [Hlf|Hlf].
  - apply write_spared; assumption.
  - rewrite write_none_spared by exact Hlf. exact Hw.
Qed.

Lemma sparing_handing_or {A} ls (m : M W A) Q :
  Forall (fun lf => writable lX w0 (fst lf) \/
                    forall v : world W, snd lf v = None) ls ->
  sparing lX w0 m Q -> sparing lX w0 (handing ls m) Q.
Proof.
  intros F Hm w Hw. destruct (Hm w Hw) as [S1 Q1]. unfold handing.
  destruct (m w) as [r w']. cbn [fst snd] in *.
  split; [apply writes_spared_or; assumption | exact Q1].
Qed.

Lemma sparing_run {A} (m : M W A) Q a w' :
  sparing lX w0 m Q -> m w0 = (Ok a, w') -> spared lX w0 w' /\ Q a.
Proof.
  intros S H. destruct (S w0 (spared_refl)) as [S1 Q1].
  rewrite H in S1, Q1. cbn [fst snd] in *. split; [exact S1 | auto].
Qed.

End SparedSteps.

(** One step of a successful run. *)
Ltac invert_bind H :=
  let a := fresh "v" in
  let w1 := fresh "w" in
  let Hm := fresh "Hm" in
  apply bind_ok in H; destruct H as (a & w1 & Hm & H);
  try invert_run Hm; cbv beta in H.

Ltac same :=
  apply bind_ext_run; [reflexivity | intros ? ? ?; cbv beta iota zeta].

Ltac unhanded :=
  apply bind_ext_run;
  [ apply handing_none; repeat (apply Forall_cons; [intro; reflexivity|]);
    apply Forall_nil
  | intros ? ? ?; cbv beta iota zeta ].

Section ByReferenceFrame.

Context {W Hyps PriorMu : Type}.
Variable C : Collaborators W Hyps PriorMu.
Variable self : MOBO PriorMu.
Variable K : Callees W.
Variables (lX lY : loc) (m : string) (n : Z) (seed : option Z).

Local Abbreviation P := (round_event C m n seed).

Ltac quiet_step :=
  eapply sparing_bind;
  [ apply (@sparing_keeps _ _ _ _ P);
    first [ apply keeps_clock | apply keeps_draw | apply keeps_deref
          | apply keeps_lift | apply keeps_assert ]
  | intros ? _ ].

Lemma sparing_optimize_by_reference (w0 : world W) :
  sparing lX w0 (optimize_by_reference C self K lX lY m n seed)
    (fun _ => True).
Proof.
  unfold optimize_by_reference.
  do 14 quiet_step.
  eapply sparing_bind.
  { eapply sparing_bind;
      [apply (@sparing_keeps _ _ _ _ P); apply keeps_lift | intros ? _].
    apply sparing_alloc. }
  intros l1 Hl1.
  eapply sparing_bind.
  { eapply sparing_bind;
      [apply (@sparing_keeps _ _ _ _ P); apply keeps_lift | intros ? _].
    apply sparing_alloc. }
  intros l2 Hl2.
  eapply sparing_bind
    with (Q := fun p => writable lX w0 (fst p) /\ writable lX w0 (snd p)).
  { destruct (normalize_Y self).
    - eapply sparing_bind.
      { apply sparing_handing; [|apply sparing_normalized].
        apply Forall_cons; [exact Hl1 | apply Forall_nil]. }
      intros n1 Hn1.
      eapply sparing_bind.
      { apply sparing_handing; [|apply sparing_normalized].
        apply Forall_cons; [exact Hl2 | apply Forall_nil]. }
      intros n2 Hn2. apply sparing_ret. split; assumption.
    - apply sparing_ret. split; assumption. }
  intros [ln1 ln2] [Ha1 Ha2]. cbn [fst snd] in Ha1, Ha2.
  quiet_step.
  eapply sparing_bind.
  { apply sparing_handing;
      [|apply (@sparing_keeps _ _ _ _ P); apply keeps_fit].
    apply Forall_cons; [left; reflexivity|].
    apply Forall_cons; [exact Ha1 | apply Forall_nil]. }
  intros [[? ?] ?] _.
  eapply sparing_bind.
  { apply sparing_handing;
      [|apply (@sparing_keeps _ _ _ _ P); apply keeps_fit].
    apply Forall_cons; [left; reflexivity|].
    apply Forall_cons; [exact Ha2 | apply Forall_nil]. }
  intros [[? ?] ?] _.
  assert (Hcap : Forall (fun lf => writable lX w0 (fst lf))
                   [(lX, closure_writes_X K); (ln1, closure_writes_Y_1 K);
                    (ln2, closure_writes_Y_2 K)]).
  { apply Forall_cons; [left; reflexivity|].
    apply Forall_cons; [exact Ha1|].
    apply Forall_cons; [exact Ha2 | apply Forall_nil]. }
  do 6 quiet_step.
  eapply sparing_bind.
  { apply sparing_handing; [exact Hcap|].
    apply (@sparing_keeps _ _ _ _ P). apply keeps__optimize. }
  intros [? ?] _.
  do 6 quiet_step.
  eapply sparing_bind.
  { apply sparing_handing; [exact Hcap|].
    apply (@sparing_keeps _ _ _ _ P). apply keeps_lift. }
  intros ? _.
  quiet_step.
  apply sparing_ret. exact I.
Qed.

(** With callees that write nothing, the round by reference is
    [optimize]. *)
Lemma optimize_by_reference_no_writes (w : world W) :
  optimize_by_reference C self no_writes lX lY m n seed w
  = optimize C self lX lY m n seed w.
Proof.
  unfold optimize_by_reference, optimize.
  do 16 same.
  apply bind_ext_run.
  { destruct (normalize_Y self); [|reflexivity].
    unhanded. unhanded. reflexivity. }
  intros [l1 l2] w17 H17. cbv beta iota zeta.
  same.
  apply bind_ext_run;
    [ apply handing_none; repeat (apply Forall_cons; [intro; reflexivity|]);
      apply Forall_nil
    | intros [[? ?] ?] ? ?; cbv beta iota zeta ].
  apply bind_ext_run;
    [ apply handing_none; repeat (apply Forall_cons; [intro; reflexivity|]);
      apply Forall_nil
    | intros [[? ?] ?] ? ?; cbv beta iota zeta ].
  same. same. same. same. same. same.
  apply bind_ext_run;
    [ apply handing_none; repeat (apply Forall_cons; [intro; reflexivity|]);
      apply Forall_nil
    | intros [? ?] ? ?; cbv beta iota zeta ].
  same. same. same.
  apply deref_ok in H21, H22, H23.
  destruct H21 as [HX ->], H22 as [HY1 ->], H23 as [HY2 ->].
  apply draw_ok in H24. destruct H24 as (s & _ & _ & ->).
  apply _optimize_heap_ok in H25. cbn [heap] in H25.
  apply lift_ok in H26, H27. destruct H26 as [_ ->], H27 as [_ ->].
  apply clock_ok in H28. destruct H28 as (x & _ & ->).
  match goal with |- bind _ _ ?wc = _ =>
    assert (HX' : nth_error (heap wc) lX = Some a18)
      by (cbn [heap]; rewrite H25; exact HX);
    assert (HY1' : nth_error (heap wc) l1 = Some a19)
      by (cbn [heap]; rewrite H25; exact HY1);
    assert (HY2' : nth_error (heap wc) l2 = Some a20)
      by (cbn [heap]; rewrite H25; exact HY2)
  end.
  rewrite (bind_run _ (deref_run HX')), (bind_run _ (deref_run HY1')),
    (bind_run _ (deref_run HY2')).
  apply bind_ext_run;
    [ apply handing_none; repeat (apply Forall_cons; [intro; reflexivity|]);
      apply Forall_nil
    | intros ? ? ?; cbv beta iota zeta ].
  reflexivity.
Qed.

(** When the round by reference succeeds, with callees that do not write the
    response columns they are handed before normalization, the report's
    original columns are objects made by the round that hold the cells of
    the columns of [Y_train]. *)
Lemma optimize_by_reference_originals (w : world W) pt info w' :
  (forall v, normalize_writes K v = None) ->
  (normalize_Y self = false ->
   forall v, fit_writes_Y K v = None /\ closure_writes_Y_1 K v = None /\
             closure_writes_Y_2 K v = None) ->
  optimize_by_reference C self K lX lY m n seed w = (Ok (pt, info), w') ->
  original_columns w lY (normalize_Y self) info w'.
Proof.
  intros Hn Hf H. unfold optimize_by_reference in H.
  do 16 invert_bind H.
  rename v into X, v0 into Y, v14 into c1, v15 into c2.
  apply clock_ok in Hm12. destruct Hm12 as (x & _ & ->).
  cbn [heap ext trace] in H. rewrite length_app in H. cbn [length] in H.
  pose proof (shape_2d _ Hm2 Hm6 Hm3) as SY.
  apply Nat.eqb_eq in Hm4. subst v3.
  assert (LX : (lX < length (heap w))%nat)
    by (apply nth_error_Some; congruence).
  set (l1 := length (heap w)) in *.
  set (l2 := (l1 + 1)%nat) in *.
  match type of H with ?R ?wb = _ =>
    assert (S : sparing lX wb R
                  (fun r => Y_original_1 (snd r) = l1 /\
                            Y_original_2 (snd r) = l2 /\
                            (normalize_Y self = true ->
                             Y_normalized_1 (snd r) <> l1 /\
                             Y_normalized_2 (snd r) <> l2)));
    [ set (wb0 := wb) | ]
  end.
  { assert (Lb : length (heap wb0) = (l1 + 2)%nat).
    { unfold wb0. cbn [heap]. rewrite !length_app. cbn [length]. lia. }
    eapply sparing_bind
      with (Q := fun p =>
                   (normalize_Y self = true /\ writable lX wb0 (fst p) /\
                    writable lX wb0 (snd p)) \/
                   (normalize_Y self = false /\ p = (l1, l2))).
    { destruct (normalize_Y self) eqn:EN.
      - eapply sparing_bind.
        { apply sparing_handing_or; [|apply sparing_normalized].
          apply Forall_cons; [right; exact Hn | apply Forall_nil]. }
        intros n1 Hn1.
        eapply sparing_bind.
        { apply sparing_handing_or; [|apply sparing_normalized].
          apply Forall_cons; [right; exact Hn | apply Forall_nil]. }
        intros n2 Hn2. apply sparing_ret. left. auto.
      - apply sparing_ret. right. auto. }
    intros [ln1 ln2] HQ. cbn [fst snd] in HQ.
    assert (Ok1 : forall f, In f [fit_writes_Y K; closure_writes_Y_1 K;
                                   closure_writes_Y_2 K] ->
                   writable lX wb0 ln1 \/ forall v, f v = None).
    { intros f Hin. destruct HQ as [(_ & A & _) | (EN & _)]; [left; exact A|].
      right. intro v. destruct (Hf EN v) as (F1 & F2 & F3).
      cbn [In] in Hin. destruct Hin as [<-|[<-|[<-|[]]]]; assumption. }
    assert (Ok2 : forall f, In f [fit_writes_Y K; closure_writes_Y_1 K;
                                   closure_writes_Y_2 K] ->
                   writable lX wb0 ln2 \/ forall v, f v = None).
    { intros f Hin. destruct HQ as [(_ & _ & A) | (EN & _)]; [left; exact A|].
      right. intro v. destruct (Hf EN v) as (F1 & F2 & F3).
      cbn [In] in Hin. destruct Hin as [<-|[<-|[<-|[]]]]; assumption. }
    quiet_step.
    eapply sparing_bind.
    { apply sparing_handing_or;
        [|apply (@sparing_keeps _ _ _ _ P); apply keeps_fit].
      apply Forall_cons; [left; left; reflexivity|].
      apply Forall_cons; [apply Ok1; cbn; auto | apply Forall_nil]. }
    intros [[? ?] ?] _.
    eapply sparing_bind.
    { apply sparing_handing_or;
        [|apply (@sparing_keeps _ _ _ _ P); apply keeps_fit].
      apply Forall_cons; [left; left; reflexivity|].
      apply Forall_cons; [apply Ok2; cbn; auto | apply Forall_nil]. }
    intros [[? ?] ?] _.
    assert (Hcap : Forall (fun lf => writable lX wb0 (fst lf) \/
                                     forall v : world W, snd lf v = None)
                     [(lX, closure_writes_X K); (ln1, closure_writes_Y_1 K);
                      (ln2, closure_writes_Y_2 K)]).
    { apply Forall_cons; [left; left; reflexivity|].
      apply Forall_cons; [apply Ok1; cbn; auto|].
      apply Forall_cons; [apply Ok2; cbn; auto | apply Forall_nil]. }
    do 6 quiet_step.
    eapply sparing_bind.
    { apply sparing_handing_or; [exact Hcap|].
      apply (@sparing_keeps _ _ _ _ P). apply keeps__optimize. }
    intros [? ?] _.
    do 6 quiet_step.
    eapply sparing_bind.
    { apply sparing_handing_or; [exact Hcap|].
      apply (@sparing_keeps _ _ _ _ P). apply keeps_lift. }
    intros ? _.
    quiet_step.
    apply sparing_ret. cbn [snd Y_original_1 Y_original_2 Y_normalized_1
                            Y_normalized_2].
    split; [reflexivity|]. split; [reflexivity|].
    intro EN. destruct HQ as [(_ & A & B) | (EN' & _)]; [|congruence].
    unfold writable in A, B. rewrite Lb in A, B. lia. }
  destruct (sparing_run S H) as [[Sp _] (E1 & E2 & E3)].
  cbn [snd] in E1, E2, E3.
  rewrite (@column_run Y v6 2%nat 0%nat SY ltac:(lia)) in Hm14.
  rewrite (@column_run Y v6 2%nat 1%nat SY ltac:(lia)) in Hm15.
  injection Hm14 as Hc1. injection Hm15 as Hc2.
  assert (Hc1' : c1 = mk_ndarray [v6; 1%nat]
                        (map (fun i => nth (i * 2) (data Y) 0%Q) (seq 0 v6))).
  { rewrite <- Hc1. f_equal. apply map_ext. intro i.
    rewrite Nat.add_0_r. reflexivity. }
  clear Hc1. symmetry in Hc2.
  unfold original_columns. exists Y, v6.
  split; [exact Hm0|]. split; [exact SY|].
  rewrite E1, E2, <- Hc1', <- Hc2.
  split.
  { apply Sp; [|lia]. cbn [heap]. rewrite <- app_assoc.
    unfold l1. rewrite <- (Nat.add_0_r (length (heap w))).
    rewrite nth_error_app_at. reflexivity. }
  split.
  { apply Sp; [|lia]. cbn [heap]. unfold l2, l1.
    replace (length (heap w) + 1)%nat with (length (heap w ++ [c1]) + 0)%nat
      by (rewrite length_app; cbn [length]; lia).
    rewrite nth_error_app_at. reflexivity. }
  split; [lia|]. split; [lia|]. exact E3.
Qed.

End ByReferenceFrame.

(** C9. [optimize] hands [Y_train] to no callee: it reads its shape and
    copies its two columns.  So whatever the callees write into the arrays
    they are handed, an object of the caller other than [X_train],
    [Y_train] among them when it is not [X_train] itself, holds after the
    round what it held before, whatever the outcome.  The report's
    [Y_original_1] and [Y_original_2] name objects made by the round, not
    the caller's, and when the round succeeds they hold the cells
    [Y_train[i, 0]] and [Y_train[i, 1]], provided [normalize_min_max] does
    not write the column it is handed, and, without normalization, neither
    do the fit and the closures, which are then handed these objects; with
    normalization the normalized columns are other objects, and the fit and
    the closures may write what they are handed.  With callees that write
    nothing the round by reference is [optimize], which keeps every object
    of the caller, and whose report has these original columns. *)
Theorem optimize_preserves_Y_train
  {W Hyps PriorMu} (C : Collaborators W Hyps PriorMu) (self : MOBO PriorMu)
  lX lY m n seed (w : world W) :
  (forall (K : Callees W) l a,
      nth_error (heap w) l = Some a -> l <> lX ->
      nth_error
        (heap (snd (optimize_by_reference C self K lX lY m n seed w))) l
      = Some a) /\
  (forall (K : Callees W) pt info w',
      (forall v, normalize_writes K v = None) ->
      (normalize_Y self = false ->
       forall v, fit_writes_Y K v = None /\ closure_writes_Y_1 K v = None /\
                 closure_writes_Y_2 K v = None) ->
      optimize_by_reference C self K lX lY m n seed w = (Ok (pt, info), w') ->
      original_columns w lY (normalize_Y self) info w') /\
  optimize_by_reference C self no_writes lX lY m n seed w
  = optimize C self lX lY m n seed w /\
  (forall l a,
      nth_error (heap w) l = Some a ->
      nth_error (heap (snd (optimize C self lX lY m n seed w))) l = Some a) /\
  (forall pt info w',
      optimize C self lX lY m n seed w = (Ok (pt, info), w') ->
      original_columns w lY (normalize_Y self) info w').
Proof.
  split.
  { intros K l a Hl Hne.
    edestruct (@sparing_optimize_by_reference W Hyps PriorMu C self K lX lY
                 m n seed w w) as [[S _] _]; [apply spared_refl|].
    apply S; assumption. }
  split.
  { intros K pt info w' Hn Hf H.
    eapply optimize_by_reference_originals; eassumption. }
  split; [apply optimize_by_reference_no_writes|].
  split.
  { intros l a Hl.
    pose proof (keeps_optimize C self m n seed lX lY w) as G.
    eapply grows_lookup; [exact G | exact Hl]. }
  intros pt info w' H. rewrite <- optimize_by_reference_no_writes in H.
  eapply optimize_by_reference_originals; [| |exact H].
  - intro v. reflexivity.
  - intros _ v. auto.
Qed.

(** ** Two runs side by side *)

Section Agreement.

Context {W : Type}.

Lemma extends_refl (v : world W) : extends v v.
Proof. exists []. rewrite app_nil_r. reflexivity. Qed.

Lemma extends_eq (v u : world W) : heap u = heap v -> extends v u.
Proof. intro E. exists []. rewrite app_nil_r. exact E. Qed.

Lemma extends_lookup {v u : world W} {l a} :
  extends v u -> nth_error (heap v) l = Some a -> nth_error (heap u) l = Some a.
Proof. intros [h ->] H. apply nth_error_app_old. exact H. Qed.

Lemma extends_trans (v u t : world W) : extends v u -> extends u t -> extends v t.
Proof.
  intros [h1 E1] [h2 E2]. exists (h1 ++ h2). rewrite E2, E1, app_assoc.
  reflexivity.
Qed.

Lemma same_heaps_refl (w1 w2 : world W) : same_heaps w1 w2 w1 w2.
Proof. split; apply extends_refl. Qed.

Lemma same_heaps_eq (w1 w2 w1' w2' : world W) :
  heap w1' = heap w1 -> heap w2' = heap w2 -> same_heaps w1 w2 w1' w2'.
Proof. intros E1 E2. split; apply extends_eq; assumption. Qed.

Lemma same_heaps_trans (w1 w2 v1 v2 u1 u2 : world W) :
  same_heaps w1 w2 v1 v2 -> same_heaps v1 v2 u1 u2 -> same_heaps w1 w2 u1 u2.
Proof.
  intros [A1 A2] [B1 B2]. split; eapply extends_trans; eassumption.
Qed.


Lemma agree_bind {A1 A2 B1 B2} R R'
  (m1 : M W A1) (m2 : M W A2) (k1 : A1 -> M W B1) (k2 : A2 -> M W B2) w1 w2 :
  agree R (m1 w1) (m2 w2) ->
  (forall a1 w1' a2 w2', R a1 w1' a2 w2' -> agree R' (k1 a1 w1') (k2 a2 w2')) ->
  agree R' (bind m1 k1 w1) (bind m2 k2 w2).
Proof.
  unfold bind, agree at 1.
  destruct (m1 w1) as [[a1|e1] w1'], (m2 w2) as [[a2|e2] w2']; intros H K;
    try contradiction.
  - apply K. exact H.
  - exact H.
Qed.

Lemma agree_weaken {A B} (R R' : A -> world W -> B -> world W -> Prop) o1 o2 :
  agree R o1 o2 -> (forall a w1 b w2, R a w1 b w2 -> R' a w1 b w2) ->
  agree R' o1 o2.
Proof.
  unfold agree. destruct o1 as [[a|e1] w1], o2 as [[b|e2] w2]; auto.
Qed.

Lemma agree_lift {A} (r : result A) (w1 w2 : world W) :
  agree (fun a1 w1' a2 w2' => a1 = a2 /\ r = Ok a1 /\ same_heaps w1 w2 w1' w2')
    (lift r w1) (lift r w2).
Proof.
  unfold lift, agree. destruct r; [|reflexivity].
  split; [reflexivity|]. split; [reflexivity | apply same_heaps_refl].
Qed.

Lemma agree_assert (b : bool) (w1 w2 : world W) :
  agree (fun _ w1' _ w2' => b = true /\ same_heaps w1 w2 w1' w2')
    (assert_ b w1) (assert_ b w2).
Proof.
  unfold assert_, lift, rassert, agree. destruct b; [|reflexivity].
  split; [reflexivity | apply same_heaps_refl].
Qed.

Lemma agree_deref l1 l2 (w1 w2 : world W) a :
  nth_error (heap w1) l1 = Some a -> nth_error (heap w2) l2 = Some a ->
  agree (fun a1 w1' a2 w2' => a1 = a /\ a2 = a /\ same_heaps w1 w2 w1' w2')
    (deref l1 w1) (deref l2 w2).
Proof.
  intros H1 H2. unfold deref, agree. rewrite H1, H2.
  split; [reflexivity|]. split; [reflexivity | apply same_heaps_refl].
Qed.

Lemma agree_emit e (w1 w2 : world W) :
  agree (fun _ w1' _ w2' => same_heaps w1 w2 w1' w2') (emit e w1) (emit e w2).
Proof. unfold emit, agree. apply same_heaps_eq; reflexivity. Qed.

Lemma agree_call {A} (f : W -> result A * W) w1 w2 :
  fst (f (ext w1)) = fst (f (ext w2)) ->
  agree (fun a1 w1' a2 w2' => a1 = a2 /\ same_heaps w1 w2 w1' w2')
    (call f w1) (call f w2).
Proof.
  unfold call, agree.
  destruct (f (ext w1)) as [r1 x1], (f (ext w2)) as [r2 x2]. simpl.
  intros ->. destruct r2; [|reflexivity].
  split; [reflexivity | apply same_heaps_eq; reflexivity].
Qed.

(** Two new objects of one content: each run gets a reference to its own. *)
Lemma agree_alloc (r : result ndarray) (w1 w2 : world W) :
  agree (fun l1 w1' l2 w2' =>
           (exists a, r = Ok a /\ nth_error (heap w1') l1 = Some a /\
                      nth_error (heap w2') l2 = Some a) /\
           same_heaps w1 w2 w1' w2')
    ((a <- lift r ;; alloc a)%mon w1) ((a <- lift r ;; alloc a)%mon w2).
Proof.
  unfold bind, lift, alloc, agree. destruct r as [a|e]; [|reflexivity].
  cbn [heap]. split.
  - exists a. split; [reflexivity|]. split; apply nth_error_app_len.
  - split; eexists; reflexivity.
Qed.

End Agreement.

(** Chains the growth of the heaps along the steps of the two runs. *)
Ltac chain_heaps :=
  cbv beta in *;
  repeat (eapply same_heaps_trans; [eassumption|]); apply same_heaps_refl.

Section EngineAgreement.

Context {W Hyps PriorMu : Type}.
Variable C : Collaborators W Hyps PriorMu.
Variable self : MOBO PriorMu.

Variables (m : string) (n : Z) (seed : option Z).

Hypothesis det : deterministic C self m n seed.

(** The clock may answer anything: the two runs only keep their heaps. *)
Lemma agree_clock w1 w2 :
  agree (fun _ w1' _ w2' => same_heaps w1 w2 w1' w2') (clock C w1) (clock C w2).
Proof.
  rewrite !clock_run. unfold agree. apply same_heaps_eq; reflexivity.
Qed.

Lemma agree_fit lX1 lX2 l1 l2 w1 w2 X Y :
  nth_error (heap w1) lX1 = Some X -> nth_error (heap w2) lX2 = Some X ->
  nth_error (heap w1) l1 = Some Y -> nth_error (heap w2) l2 = Some Y ->
  agree (fun r1 w1' r2 w2' => r1 = r2 /\ same_heaps w1 w2 w1' w2')
    (fit C self lX1 l1 w1) (fit C self lX2 l2 w2).
Proof.
  intros HX1 HX2 HY1 HY2.
  rewrite (fit_run C self _ _ _ HX1 HY1), (fit_run C self _ _ _ HX2 HY2).
  destruct det as (Dfit & _ & _). specialize (Dfit X Y (ext w1) (ext w2)).
  destruct (fitted C self X Y (ext w1)) as [r1 x1],
           (fitted C self X Y (ext w2)) as [r2 x2].
  simpl in *. subst r2. unfold agree. destruct r1; [|reflexivity].
  split; [reflexivity | apply same_heaps_eq; reflexivity].
Qed.

Lemma agree_normalized l1 l2 (w1 w2 : world W) Y :
  nth_error (heap w1) l1 = Some Y -> nth_error (heap w2) l2 = Some Y ->
  agree (fun n1 w1' n2 w2' =>
           (exists Y', nth_error (heap w1') n1 = Some Y' /\
                       nth_error (heap w2') n2 = Some Y') /\
           same_heaps w1 w2 w1' w2')
    (normalized l1 w1) (normalized l2 w2).
Proof.
  intros H1 H2. unfold normalized.
  rewrite (bind_run _ (deref_run H1)), (bind_run _ (deref_run H2)).
  eapply agree_weaken; [apply agree_alloc|].
  intros n1 u1 n2 u2 [(a & _ & L1 & L2) G]. split; [|exact G].
  exists a. auto.
Qed.

Lemma agree_draw (w1 w2 : world W) :
  agree (fun u1 w1' u2 w2' => u1 = u2 /\ same_heaps w1 w2 w1' w2')
    (draw_log_weight C seed w1) (draw_log_weight C seed w2).
Proof.
  clear det. unfold draw_log_weight. destruct seed as [s|]; [|reflexivity].
  unfold bind, ret, emit, lift, agree.
  destruct (random_state_uniform C (s + 101) (-3) 3); [|reflexivity].
  split; [reflexivity | apply same_heaps_eq; reflexivity].
Qed.

Lemma agree_minimize_each f bounds initials : forall w1 w2,
  agree (fun p1 w1' p2 w2' => p1 = p2 /\ same_heaps w1 w2 w1' w2')
    (minimize_each C self f bounds initials w1)
    (minimize_each C self f bounds initials w2).
Proof.
  destruct det as (_ & _ & Dmin).
  induction initials as [|x0 rest IH]; intros w1 w2; simpl.
  - unfold ret, agree. split; [reflexivity | apply same_heaps_refl].
  - eapply agree_bind; [apply agree_emit|]. intros ? v1 ? v2 G1.
    eapply agree_bind; [apply agree_call; apply Dmin|].
    intros r v1' r' v2' (<- & G2).
    eapply agree_bind; [apply IH|].
    intros pts u1 pts' u2 (<- & G3).
    unfold ret, agree. split; [reflexivity|]. chain_heaps.
Qed.

Lemma agree__optimize f (w1 w2 : world W) :
  agree (fun r1 w1' r2 w2' => r1 = r2 /\ same_heaps w1 w2 w1' w2')
    (_optimize C self f m n seed w1) (_optimize C self f m n seed w2).
Proof.
  destruct det as (_ & Dsam & _). unfold _optimize.
  eapply agree_bind; [apply agree_emit|]. intros ? v1 ? v2 G1.
  eapply agree_bind; [apply agree_call; apply Dsam|].
  intros a v1' a' v2' (<- & G2).
  eapply agree_bind; [apply agree_lift|].
  intros rows u1 rows' u2 (<- & _ & G3).
  eapply agree_bind; [apply agree_minimize_each|].
  intros pts t1 pts' t2 (<- & G4).
  eapply agree_bind; [apply agree_lift|].
  intros nps s1 nps' s2 (<- & _ & G5).
  eapply agree_bind; [apply agree_lift|].
  intros best r1 best' r2 (<- & _ & G6).
  eapply agree_bind; [apply agree_lift|].
  intros p q1 p' q2 (<- & _ & G7).
  unfold ret, agree. split; [reflexivity|]. chain_heaps.
Qed.

End EngineAgreement.

(** Carries what is known of the heaps to the current worlds. *)
Ltac transport :=
  cbv beta in *;
  repeat match goal with
    | G : same_heaps _ _ _ _ |- _ => destruct G as [? ?]
    | E : extends ?v ?u, H : nth_error (heap ?v) _ = Some _ |- _ =>
        apply (extends_lookup E) in H
    end.

Section Reproducible.

Context {W Hyps PriorMu : Type}.
Variable C : Collaborators W Hyps PriorMu.
Variable self : MOBO PriorMu.
Variables (m : string) (n : Z) (seed : option Z).
Hypothesis det : deterministic C self m n seed.

(** The normalization step of [optimize], in two runs whose column
    references name equal arrays. *)
Lemma agree_normalize_columns a1 b1 a2 b2 (w1 w2 : world W) c1 c2 :
  nth_error (heap w1) a1 = Some c1 -> nth_error (heap w2) a2 = Some c1 ->
  nth_error (heap w1) b1 = Some c2 -> nth_error (heap w2) b2 = Some c2 ->
  agree (fun p1 w1' p2 w2' =>
           (exists Y1 Y2,
               nth_error (heap w1') (fst p1) = Some Y1 /\
               nth_error (heap w2') (fst p2) = Some Y1 /\
               nth_error (heap w1') (snd p1) = Some Y2 /\
               nth_error (heap w2') (snd p2) = Some Y2) /\
           same_heaps w1 w2 w1' w2')
    ((if normalize_Y self
      then (n1 <- normalized a1 ;; n2 <- normalized b1 ;; ret (n1, n2))%mon
      else ret (a1, b1)) w1)
    ((if normalize_Y self
      then (n1 <- normalized a2 ;; n2 <- normalized b2 ;; ret (n1, n2))%mon
      else ret (a2, b2)) w2).
Proof.
  intros A1 A2 B1 B2. destruct (normalize_Y self).
  - eapply agree_bind; [eapply agree_normalized; eassumption|].
    intros n1 v1 n1' v2 [(Y1 & N1 & N1') G1]. transport.
    eapply agree_bind; [eapply agree_normalized; eassumption|].
    intros n2 u1 n2' u2 [(Y2 & N2 & N2') G2]. transport.
    unfold ret, agree. cbn [fst snd]. split.
    + exists Y1, Y2. auto.
    + split; eapply extends_trans; eassumption.
  - unfold ret, agree. cbn [fst snd]. split.
    + exists c1, c2. auto.
    + apply same_heaps_refl.
Qed.

Lemma agree_optimize lX1 lY1 lX2 lY2 (w1 w2 : world W) X Y :
  nth_error (heap w1) lX1 = Some X -> nth_error (heap w2) lX2 = Some X ->
  nth_error (heap w1) lY1 = Some Y -> nth_error (heap w2) lY2 = Some Y ->
  agree (fun r1 _ r2 _ => fst r1 = fst r2)
    (optimize C self lX1 lY1 m n seed w1)
    (optimize C self lX2 lY2 m n seed w2).
Proof.
  intros HX1 HX2 HY1 HY2. unfold optimize.
  eapply agree_bind; [eapply agree_deref; eassumption|].
  intros ? v1 ? v2 (-> & -> & G); transport.
  eapply agree_bind; [eapply agree_deref; eassumption|].
  intros ? ? ? ? (-> & -> & G); transport.
  do 2 (eapply agree_bind; [apply agree_assert|];
        intros ? ? ? ? (_ & G); transport).
  eapply agree_bind; [apply agree_lift|].
  intros ? ? ? ? (<- & _ & G); transport.
  eapply agree_bind; [apply agree_assert|].
  intros ? ? ? ? (_ & G); transport.
  do 2 (eapply agree_bind; [apply agree_lift|];
        intros ? ? ? ? (<- & _ & G); transport).
  eapply agree_bind; [apply agree_assert|].
  intros ? ? ? ? (_ & G); transport.
  eapply agree_bind; [apply agree_lift|].
  intros ? ? ? ? (<- & _ & G); transport.
  do 3 (eapply agree_bind; [apply agree_assert|];
        intros ? ? ? ? (_ & G); transport).
  eapply agree_bind; [apply agree_clock|].
  intros ? ? ? ? G; transport.
  eapply agree_bind; [apply agree_alloc|].
  intros la ? la' ? [(c1 & _ & A1 & A2) G]; transport.
  eapply agree_bind; [apply agree_alloc|].
  intros lb ? lb' ? [(c2 & _ & B1 & B2) G]; transport.
  eapply agree_bind; [eapply agree_normalize_columns; eassumption|].
  intros [ln1 ln2] ? [ln1' ln2'] ? [(Y1 & Y2 & N1 & N1' & N2 & N2') G].
  cbn [fst snd] in *. transport.
  eapply agree_bind; [apply agree_clock|].
  intros ? ? ? ? G; transport.
  eapply agree_bind; [eapply (agree_fit det); eassumption|].
  intros [[cov1 inv1] h1] ? ? ? (<- & G); transport.
  eapply agree_bind; [eapply (agree_fit det); eassumption|].
  intros [[cov2 inv2] h2] ? ? ? (<- & G); transport.
  do 2 (eapply agree_bind; [apply agree_clock|];
        intros ? ? ? ? G; transport).
  do 3 (eapply agree_bind; [eapply agree_deref; eassumption|];
        intros ? ? ? ? (-> & -> & G); transport).
  eapply agree_bind; [apply agree_draw|].
  intros U ? ? ? (<- & G); transport.
  eapply agree_bind; [apply (agree__optimize det)|].
  intros [p nps] ? ? ? (<- & G); transport.
  do 2 (eapply agree_bind; [apply agree_lift|];
        intros ? ? ? ? (<- & _ & G); transport).
  eapply agree_bind; [apply agree_clock|].
  intros ? ? ? ? G; transport.
  eapply agree_bind; [apply agree_lift|].
  intros ? ? ? ? (<- & _ & G); transport.
  eapply agree_bind; [apply agree_clock|].
  intros ? ? ? ? G; transport.
  unfold ret, agree. reflexivity.
Qed.

End Reproducible.

(** C5. Two calls of [optimize] with the same arguments and the same seed,
    on worlds that hold the same training arrays (the external state, the
    trace and the heap may differ otherwise, as after a first call).  Every
    exponent drawn in the one equals every exponent drawn in the other.  And
    if the fitter, the sampler and the local optimizer answer by their
    arguments alone, the two calls end alike: with the same exception, or
    with the same next point. *)
Theorem optimize_reproducible
  {W Hyps PriorMu} (C : Collaborators W Hyps PriorMu) (self : MOBO PriorMu)
  lX1 lY1 lX2 lY2 m n seed (w1 w2 : world W) X Y :
  nth_error (heap w1) lX1 = Some X -> nth_error (heap w2) lX2 = Some X ->
  nth_error (heap w1) lY1 = Some Y -> nth_error (heap w2) lY2 = Some Y ->
  let o1 := optimize C self lX1 lY1 m n seed w1 in
  let o2 := optimize C self lX2 lY2 m n seed w2 in
  (exists t1 t2,
     trace (snd o1) = trace w1 ++ t1 /\ trace (snd o2) = trace w2 ++ t2 /\
     forall s1 low1 high1 u1 s2 low2 high2 u2,
       In (EvDraw s1 low1 high1 u1) t1 -> In (EvDraw s2 low2 high2 u2) t2 ->
       s1 = s2 /\ u1 = u2) /\
  (deterministic C self m n seed ->
   match fst o1, fst o2 with
   | Ok (pt1, _), Ok (pt2, _) => pt1 = pt2
   | Err e1, Err e2 => e1 = e2
   | _, _ => False
   end).
Proof.
  intros HX1 HX2 HY1 HY2 o1 o2. split.
  - destruct (keeps_optimize C self m n seed lX1 lY1 w1) as [_ (t1 & T1 & F1)].
    destruct (keeps_optimize C self m n seed lX2 lY2 w2) as [_ (t2 & T2 & F2)].
    exists t1, t2. split; [exact T1|]. split; [exact T2|].
    rewrite Forall_forall in F1, F2.
    intros s1 low1 high1 u1 s2 low2 high2 u2 I1 I2.
    destruct (F1 _ I1) as (S1 & _ & _ & ->).
    destruct (F2 _ I2) as (S2 & _ & _ & ->).
    assert (s1 = s2) as -> by (rewrite S1 in S2; injection S2; lia).
    split; reflexivity.
  - intro det.
    pose proof (agree_optimize det lX1 lY1 lX2 lY2 w1 w2 HX1 HX2 HY1 HY2) as A.
    fold o1 o2 in A. unfold agree in A.
    destruct o1 as [[[pt1 i1]|e1] v1], o2 as [[[pt2 i2]|e2] v2]; exact A.
Qed.

(** ** The theorems at work on the concrete collaborators *)

(** The concrete generator honours its contract. *)
Lemma toy_uniform_in_range s u :
  Toy.uniform s (-3) 3 = Ok u -> (-3 <= u <= 3)%Q.
Proof.
  unfold Toy.uniform. destruct ((0 <=? s) && (s <? 2 ^ 32))%Z; [|discriminate].
  intro H. injection H as <-.
  pose proof (Z.mod_pos_bound s 10 ltac:(lia)) as B.
  assert (Q01 : (0 <= (s mod 10 # 10) <= 1)%Q).
  { unfold Qle. cbn [Qnum Qden]. lia. }
  generalize dependent (s mod 10 # 10)%Q. intros q Q01. lra.
Qed.

(** The concrete local search returns arrays. *)
Lemma toy_returns_arrays : returns_arrays Toy.collaborators.
Proof.
  intros f x0 bounds method x r x' H. injection H as <- _.
  unfold wf. cbn [opt_x shape data size_of fold_right].
  rewrite length_map. lia.
Qed.

(** C1 on a run of the concrete engine: the local search walks to 12, out
    of [0, 10], and the point returned is 10. *)
Lemma optimize_next_point_in_bounds_witness :
  exists pt info w',
    optimize Toy.collaborators (Toy.engine true) 0%nat 1%nat "uniform" 5
      (Some 7%Z) Toy.world0 = (Ok (pt, info), w') /\
    data pt = [10 # 1]%Q /\
    shape pt = [1%nat] /\ length (data pt) = 1%nat /\
    forall i x, nth_error (data pt) i = Some x ->
      exists lo hi, nth_error (range_X (Toy.engine true)) i = Some (lo, hi) /\
                    (lo <= x <= hi)%Q.
Proof.
  eexists _, _, _. split; [vm_compute; reflexivity|].
  edestruct (@optimize_next_point_in_bounds _ _ _ Toy.collaborators
               (Toy.engine true) 0%nat 1%nat "uniform" 5 (Some 7%Z) Toy.world0)
    as (Hshape & Hin & _ & Hlen);
    [reflexivity | vm_compute; reflexivity |].
  split; [reflexivity|]. split; [exact Hshape|]. split; [|exact Hin].
  apply Hlen. intros f x0 bounds method x r x' H. injection H as <- _.
  unfold wf. cbn [opt_x shape data size_of fold_right].
  rewrite length_map. lia.
Defined.

(** C2 on the same run: seed 7, so the generator is seeded with 108. *)
Lemma optimize_scalarization_witness :
  exists U,
    Toy.uniform 108 (-3) 3 = Ok U /\ (-3 <= U <= 3)%Q /\
    In (EvDraw 108 (-3) 3 (Ok U))
       (trace (snd (optimize Toy.collaborators (Toy.engine true) 0%nat 1%nat
                      "uniform" 5 (Some 7%Z) Toy.world0))).
Proof.
  edestruct (optimize_scalarization Toy.collaborators (Toy.engine true)
               0%nat 1%nat "uniform" 5 (Some 7%Z) Toy.world0)
    as (s & U & X & Y1 & Y2 & p & nps & wa & wb & Hs & Hd & Hr & Hin & _);
    [exact toy_uniform_in_range | vm_compute; reflexivity |].
  injection Hs as <-. exists U. split; [exact Hd|]. split; [exact Hr|].
  exact Hin.
Defined.

(** C3 on a search of five restarts whose candidates 0 and 3 tie for the
    lowest score: the restarts start from 1, 2, 0, 1, 2, in the order of the
    sampler, the candidates are 0, 12, 12, 0, 12 in that order, and the
    candidate of the first restart is returned. *)
Lemma _optimize_selects_first_lowest_witness :
  exists p nps w' arr pts scores i si,
    _optimize Toy.collaborators (Toy.engine true) Toy.first_coordinate
      "uniform" 5 (Some 7%Z) Toy.world0 = (Ok (p, nps), w') /\
    shape arr = [5; 1]%nat /\ data arr = [1; 2; 0; 1; 2]%Q /\
    restarts Toy.collaborators (Toy.engine true) Toy.first_coordinate
      (map (fun k => mk_ndarray [1%nat] (firstn 1 (skipn (k * 1) (data arr))))
           (seq 0 5))
      1%nat pts (ext w') /\
    length pts = 5%nat /\
    data nps = concat (map data pts) /\
    data nps = [0; 12 # 1; 12 # 1; 0; 12 # 1]%Q /\
    scores = [0; 12 # 1; 12 # 1; 0; 12 # 1]%Q /\
    Toy.first_coordinate nps = Ok scores /\
    i = 0%nat /\ index nps i = Ok p /\ nth_error pts i = Some p /\
    nth_error scores i = Some si /\
    (forall j sj, nth_error scores j = Some sj -> (si <= sj)%Q) /\
    (forall j sj, (j < i)%nat -> nth_error scores j = Some sj -> (si < sj)%Q).
Proof.
  edestruct (_optimize_selects_first_lowest Toy.collaborators
               (Toy.engine true) Toy.first_coordinate "uniform" 5
               (Some 7%Z) Toy.world0)
    as [(arr & x & K & s & pts & scores & i & si & Hs & Sa & Hre & Hlen &
         Harr & _ & Hdat & Hf & Hi & _ & Hnth & Hsi & Hmin & Hfst) _];
    [vm_compute; reflexivity |].
  injection Hs as <- <-. injection Sa as <- <-.
  vm_compute in Hf. injection Hf as <-.
  eexists _, _, _, (mk_ndarray [5; 1]%nat [1; 2; 0; 1; 2]%Q), pts, _, i, si.
  split; [vm_compute; reflexivity|]. split; [reflexivity|].
  split; [reflexivity|]. split; [exact Hre|]. split; [exact Hlen|].
  split; [exact Hdat|]. split; [reflexivity|]. split; [reflexivity|].
  split; [vm_compute; reflexivity|].
  split.
  { destruct i as [|i]; [reflexivity|]. exfalso.
    pose proof (Hfst 0%nat 0%Q ltac:(lia) eq_refl) as L0.
    pose proof (Hmin 0%nat 0%Q eq_refl) as M0.
    apply (Qlt_irrefl 0). eapply Qle_lt_trans; [|exact L0].
    do 4 (destruct i as [|i]; [injection Hsi as <-; vm_compute; discriminate|]).
    destruct i; discriminate Hsi. }
  split; [exact Hi|]. split; [apply Hnth; apply toy_returns_arrays|].
  split; [exact Hsi|]. split; [exact Hmin | exact Hfst].
Defined.

(** C4 on a response array with three columns, and on a request for no
    samples. *)
Lemma optimize_rejects_before_fitting_witness :
  optimize Toy.collaborators (Toy.engine true) 0%nat 1%nat "uniform" 5
    (Some 7%Z) (mk_world 0%nat [Toy.X_train; Toy.Y_three] [])
  = (Err AssertionError, mk_world 0%nat [Toy.X_train; Toy.Y_three] [])
  /\
  optimize Toy.collaborators (Toy.engine true) 0%nat 1%nat "uniform" 0
    (Some 7%Z) Toy.world0
  = (Err AssertionError, Toy.world0).
Proof.
  split.
  - apply (@optimize_rejects_before_fitting _ _ _ Toy.collaborators
             (Toy.engine true) 0%nat 1%nat "uniform" 5 (Some 7%Z)
             (mk_world 0%nat [Toy.X_train; Toy.Y_three] [])
             Toy.X_train Toy.Y_three);
      [reflexivity | reflexivity | left; exists 3%nat; reflexivity].
  - apply (@optimize_rejects_before_fitting _ _ _ Toy.collaborators
             (Toy.engine true) 0%nat 1%nat "uniform" 0 (Some 7%Z) Toy.world0
             Toy.X_train Toy.Y_train);
      [reflexivity | reflexivity | right; lia].
Defined.

(** C5 on two worlds that hold the training arrays at other addresses,
    with other clocks and traces. *)
Lemma optimize_reproducible_witness :
  match fst (optimize Toy.collaborators (Toy.engine true) 0%nat 1%nat
               "uniform" 5 (Some 7%Z) Toy.world0),
        fst (optimize Toy.collaborators (Toy.engine true) 1%nat 0%nat
               "uniform" 5 (Some 7%Z) Toy.world1) with
  | Ok (pt1, _), Ok (pt2, _) => pt1 = pt2
  | Err e1, Err e2 => e1 = e2
  | _, _ => False
  end.
Proof.
  apply (@optimize_reproducible _ _ _ Toy.collaborators (Toy.engine true)
           0%nat 1%nat 1%nat 0%nat "uniform" 5 (Some 7%Z)
           Toy.world0 Toy.world1 Toy.X_train Toy.Y_train);
    try reflexivity.
  repeat split; intros; reflexivity.
Defined.

(** C6, as amended, on the run with seed 7. *)
Lemma optimize_seeds_of_round_witness :
  exists t,
    trace (snd (optimize Toy.collaborators (Toy.engine true) 0%nat 1%nat
                  "uniform" 5 (Some 7%Z) Toy.world0))
    = trace Toy.world0 ++ t /\
    (forall s low high u, In (EvDraw s low high u) t ->
       (exists s0, Some 7%Z = Some s0 /\ s = (s0 + 101)%Z) /\
       low = (-3)%Q /\ high = 3%Q /\
       u = Toy.uniform s (-3) 3) /\
    (forall m' n' seed', In (EvSamples m' n' seed') t ->
       m' = "uniform"%string /\ n' = 5%Z /\ seed' = Some 7%Z).
Proof.
  apply (@optimize_seeds_of_round _ _ _ Toy.collaborators (Toy.engine true)
           0%nat 1%nat "uniform" 5 (Some 7%Z) Toy.world0
           (fst (optimize Toy.collaborators (Toy.engine true) 0%nat 1%nat
                   "uniform" 5 (Some 7%Z) Toy.world0))).
  apply surjective_pairing.
Defined.

(** C7 on the column (5, 5, 5). *)
Lemma normalize_min_max_constant_column_witness :
  utils_bo.normalize_min_max Toy.Y_constant
  = Ok (mk_ndarray [3; 1]%nat [0; 0; 0]%Q).
Proof.
  apply (@normalize_min_max_constant_column Toy.Y_constant 5).
  - discriminate.
  - repeat constructor.
Defined.

(** C8 with the multiplier doubled, on exact products: the scores are
    doubled and the candidate ranked best is the same. *)
Lemma compute_acquisitions_multiplier_order_witness :
  exists a a',
    compute_acquisitions Toy.collaborators (Toy.engine true) Toy.X_test
      Toy.X_train Toy.Y_column (Toy.square 3) (Toy.square 3) tt = Ok a /\
    compute_acquisitions (with_multiplier 2 Toy.collaborators)
      (Toy.engine true) Toy.X_test Toy.X_train Toy.Y_column
      (Toy.square 3) (Toy.square 3) tt = Ok a' /\
    a = [7000 # 1; 8000 # 1]%Q /\ a' = [14000 # 1; 16000 # 1]%Q /\
    utils_bo.argmin (vscale (-1) a')
    = utils_bo.argmin (vscale (-1) a).
Proof.
  edestruct (@compute_acquisitions_multiplier_order _ _ _ Toy.collaborators
               (Toy.engine true) 2 Toy.X_test Toy.X_train Toy.Y_column
               (Toy.square 3) (Toy.square 3) tt)
    as (fa & pm & ps & raw & _ & _ & _ & Ha & Ha' & Hrnd);
    [reflexivity | vm_compute; reflexivity |].
  destruct (Hrnd (fun x => x)) as (_ & _ & _ & Hexact).
  destruct Hexact as [_ Hbest].
  { intros r _. split; reflexivity. }
  assert (E' : compute_acquisitions (with_multiplier 2 Toy.collaborators)
                 (Toy.engine true) Toy.X_test Toy.X_train Toy.Y_column
                 (Toy.square 3) (Toy.square 3) tt
               = Ok [14000 # 1; 16000 # 1]%Q) by (vm_compute; reflexivity).
  assert (Hs' : scale_rounded (fun x => x)
                  (2 * MULTIPLIER_ACQ Toy.collaborators) raw
                = [14000 # 1; 16000 # 1]%Q) by congruence.
  rewrite <- Ha, Hs' in Hbest.
  eexists _, _. split; [vm_compute; reflexivity|].
  split; [exact E'|].
  split; [reflexivity|]. split; [reflexivity | exact Hbest].
Defined.

(** C8 in binary64, where the products are rounded.  The scores 0.7 and the
    next number of the format: times 10 they are 7 and the number after 7,
    and the second candidate is best; times 50 they are both 35, and the
    first candidate is best.  The strict order of the two scores is lost,
    and the candidate ranked best is another. *)
Lemma multiplier_order_lost_in_binary64 :
  let a := Binary64.scale Binary64.multiplier Binary64.raw in
  let a' := Binary64.scale
              (PrimFloat.mul Binary64.factor Binary64.multiplier)
              Binary64.raw in
  PrimFloat.ltb (nth 0 a PrimFloat.zero) (nth 1 a PrimFloat.zero) = true /\
  PrimFloat.ltb (nth 0 a' PrimFloat.zero) (nth 1 a' PrimFloat.zero) = false /\
  PrimFloat.eqb (nth 0 a' PrimFloat.zero) (nth 1 a' PrimFloat.zero) = true /\
  Binary64.argmin (Binary64.negate a) = Ok 1%nat /\
  Binary64.argmin (Binary64.negate a') = Ok 0%nat.
Proof. cbv zeta. repeat split; vm_compute; reflexivity. Qed.

(** C9 at work, with normalization.  With a fit and closures that write
    9, 5, 1 into the inputs and 1, 1, 1 into the response column they are
    handed, the round by reference succeeds; [X_train], at address 0, is
    written, [Y_train], at address 1, is as it was, the report's original
    columns hold 4, 1, 3 and 0, 2, 7, and its first normalized column holds
    1, 1, 1.  And [optimize] keeps [X_train] and [Y_train], and reports the
    same original columns, in objects other than the normalized ones. *)
Lemma optimize_preserves_Y_train_witness :
  (exists pt info w',
     optimize_by_reference Toy.collaborators (Toy.engine true) Toy.rewriting
       0%nat 1%nat "uniform" 5 (Some 7%Z) Toy.world0 = (Ok (pt, info), w') /\
     nth_error (heap w') 0%nat = Some (mk_ndarray [3; 1]%nat [9; 5; 1]%Q) /\
     nth_error (heap w') 1%nat = Some Toy.Y_train /\
     nth_error (heap w') (Y_original_1 info)
     = Some (mk_ndarray [3; 1]%nat [4; 1; 3]%Q) /\
     nth_error (heap w') (Y_original_2 info)
     = Some (mk_ndarray [3; 1]%nat [0; 2; 7]%Q) /\
     nth_error (heap w') (Y_normalized_1 info)
     = Some (mk_ndarray [3; 1]%nat [1; 1; 1]%Q)) /\
  (exists pt info w',
     optimize Toy.collaborators (Toy.engine true) 0%nat 1%nat "uniform" 5
       (Some 7%Z) Toy.world0 = (Ok (pt, info), w') /\
     nth_error (heap w') 0%nat = Some Toy.X_train /\
     nth_error (heap w') 1%nat = Some Toy.Y_train /\
     nth_error (heap w') (Y_original_1 info)
     = Some (mk_ndarray [3; 1]%nat [4; 1; 3]%Q) /\
     nth_error (heap w') (Y_original_2 info)
     = Some (mk_ndarray [3; 1]%nat [0; 2; 7]%Q) /\
     Y_normalized_1 info <> Y_original_1 info).
Proof.
  destruct (optimize_preserves_Y_train Toy.collaborators (Toy.engine true)
              0%nat 1%nat "uniform" 5 (Some 7%Z) Toy.world0)
    as (Hframe & Hrep & _ & Hkeep & Hopt).
  split.
  - destruct (optimize_by_reference Toy.collaborators (Toy.engine true)
                Toy.rewriting 0%nat 1%nat "uniform" 5 (Some 7%Z) Toy.world0)
      as [[[pt info]|e] w'] eqn:E; [|vm_compute in E; discriminate E].
    exists pt, info, w'. split; [reflexivity|].
    split; [vm_compute in E; injection E as _ _ <-; reflexivity|].
    split.
    { pose proof (Hframe Toy.rewriting 1%nat Toy.Y_train eq_refl
                    ltac:(discriminate)) as F.
      rewrite E in F. exact F. }
    edestruct (Hrep Toy.rewriting pt info w')
      as (Y & N & HY & SY & Ho1 & Ho2 & _);
      [intro; reflexivity | discriminate | exact E |].
    injection HY as <-. injection SY as <-.
    split; [exact Ho1|]. split; [exact Ho2|].
    vm_compute in E. injection E as _ <- <-. reflexivity.
  - destruct (optimize Toy.collaborators (Toy.engine true) 0%nat 1%nat
                "uniform" 5 (Some 7%Z) Toy.world0)
      as [[[pt info]|e] w'] eqn:E; [|vm_compute in E; discriminate E].
    exists pt, info, w'. split; [reflexivity|].
    cbn [snd] in Hkeep.
    split; [apply Hkeep; reflexivity|].
    split; [apply Hkeep; reflexivity|].
    destruct (Hopt pt info w' eq_refl)
      as (Y & N & HY & SY & Ho1 & Ho2 & _ & _ & Hne).
    injection HY as <-. injection SY as <-.
    split; [exact Ho1|]. split; [exact Ho2|].
    exact (proj1 (Hne eq_refl)).
Defined.

(** C10 on the concrete engine. *)
Lemma optimize_seed_None_witness :
  exists w',
    optimize Toy.collaborators (Toy.engine true) 0%nat 1%nat "uniform" 5 None
      Toy.world0 = (Err TypeError, w').
Proof.
  edestruct (@optimize_seed_None _ _ _ Toy.collaborators (Toy.engine true)
               0%nat 1%nat "uniform" 5 Toy.world0 Toy.X_train Toy.Y_train
               3%nat)
    as [(w' & Y1 & Y2 & Hrun & _) _];
    try reflexivity; try lia.
  - intros Xa Ya x. eexists _, _. reflexivity.
  - exists w'. exact Hrun.
Defined.

(** C6, as the claim states it, fails.  The restart sampler and the draw are
    both fed from the one seed of the round: a round with seed 7 samples
    with seed 7 and draws with seed 108, a round with seed 8 samples with
    seed 8 and draws with seed 109.  With a generator and a sampler that
    depend on their seed, the two rounds differ in the seed of the restart
    sampling and also in the weight, in the seed of the draw and also in the
    points the restarts start from. *)
Lemma seeds_of_round_not_decoupled :
  let run s := trace (snd (optimize Toy.collaborators (Toy.engine true)
                             0%nat 1%nat "uniform" 5 (Some s) Toy.world0)) in
  sampling_seeds (run 7%Z) = [Some 7%Z] /\
  sampling_seeds (run 8%Z) = [Some 8%Z] /\
  (exists a b, weights (run 7%Z) = [Ok a] /\ weights (run 8%Z) = [Ok b] /\
               ~ (a == b)%Q) /\
  starting_points (run 7%Z) <> starting_points (run 8%Z).
Proof.
  cbv zeta. split; [vm_compute; reflexivity|]. split; [vm_compute; reflexivity|].
  split.
  - eexists _, _. split; [vm_compute; reflexivity|].
    split; [vm_compute; reflexivity|]. vm_compute. discriminate.
  - vm_compute. discriminate.
Qed.

(** * Further properties of the source *)

Section Constructor.

Context {W Hyps PriorMu : Type}.
Variable C : Collaborators W Hyps PriorMu.


End Constructor.

Section Evaluator.

Context {W Hyps PriorMu : Type}.
Variable C : Collaborators W Hyps PriorMu.
Variable self : MOBO PriorMu.

(** X2. A single point given as a vector of D cells is scored as the batch
    of one row that holds it: [compute_acquisitions], and so the objective
    of a round, give the same answer, value or exception, on both. *)
Theorem compute_acquisitions_single_point d cells :
  (forall X_train Y_train cov inv hyps,
      compute_acquisitions C self (mk_ndarray [d] cells) X_train Y_train cov
        inv hyps
      = compute_acquisitions C self (mk_ndarray [1%nat; d] cells) X_train
          Y_train cov inv hyps) /\
  (forall X Y1 Y2 info U,
      round_objective C self X Y1 Y2 info U (mk_ndarray [d] cells)
      = round_objective C self X Y1 Y2 info U (mk_ndarray [1%nat; d] cells)).
Proof.
  assert (A : forall X_train Y_train cov inv hyps,
      compute_acquisitions C self (mk_ndarray [d] cells) X_train Y_train cov
        inv hyps
      = compute_acquisitions C self (mk_ndarray [1%nat; d] cells) X_train
          Y_train cov inv hyps).
  { intros. unfold compute_acquisitions, ndim, atleast_2d.
    cbn [shape data length Nat.eqb orb]. reflexivity. }
  split; [exact A|].
  intros. unfold round_objective, scalarized, negative_acquisition.
  rewrite !A. reflexivity.
Qed.

(** X3. Training inputs in three dimensions ask for test points in three
    dimensions: on a 3-d [X_train] whose other arguments pass the earlier
    assertions, [compute_acquisitions] on a vector or a matrix of points,
    and [compute_posteriors] on a matrix, raise [IndexError], not
    [AssertionError]: the shape entry 2 that the assertion reads is not
    there. *)
Theorem batched_training_IndexError
  X X_train Y_train cov inv hyps n b d :
  shape X_train = [n; b; d] ->
  shape Y_train = [n; 1%nat] ->
  ndim cov = 2%nat -> ndim inv = 2%nat ->
  (ndim X = 2%nat ->
   compute_posteriors C self X_train Y_train X cov inv hyps = Err IndexError)
  /\
  (ndim X = 1%nat \/ ndim X = 2%nat ->
   compute_acquisitions C self X X_train Y_train cov inv hyps
   = Err IndexError).
Proof.
  intros SX SY Dc Di. split.
  - intro DX. unfold compute_posteriors, ndim, shape_at in *.
    rewrite SX, SY, Dc, Di, DX. cbn.
    rewrite Nat.eqb_refl. cbn.
    destruct (shape X) as [|a [|a' [|a'' s]]]; try discriminate DX.
    reflexivity.
  - intro DX. unfold compute_acquisitions, ndim, shape_at, atleast_2d in *.
    rewrite SX, SY, Dc, Di. cbn.
    rewrite Nat.eqb_refl. cbn.
    destruct DX as [DX|DX]; rewrite DX; cbn.
    + destruct (shape X) as [|a [|a' s]]; try discriminate DX. reflexivity.
    + destruct (shape X) as [|a [|a' [|a'' s]]]; try discriminate DX.
      reflexivity.
Qed.

(** X4. The evaluator takes one response column at a time: on a 2-d
    [Y_train] with another number of columns than one (the N-by-2 array
    given to [optimize], for one), [compute_acquisitions] and
    [compute_posteriors] raise [AssertionError], whatever the other
    arguments and the collaborators. *)
Theorem evaluator_one_response_column
  X X_train Y_train cov inv hyps n c :
  shape Y_train = [n; c] -> c <> 1%nat ->
  compute_acquisitions C self X X_train Y_train cov inv hyps
  = Err AssertionError /\
  compute_posteriors C self X_train Y_train X cov inv hyps
  = Err AssertionError.
Proof.
  intros SY Hc. apply Nat.eqb_neq in Hc.
  unfold compute_acquisitions, compute_posteriors, shape_at, ndim.
  rewrite SY. cbn [nth_error length].
  split.
  - destruct ((length (shape X) =? 1) || (length (shape X) =? 2)
              || (length (shape X) =? 3))%nat; [|reflexivity].
    destruct ((length (shape X_train) =? 2)
              || (length (shape X_train) =? 3))%nat; [|reflexivity].
    cbn. destruct (length (shape cov) =? 2)%nat; [|reflexivity].
    destruct (length (shape inv) =? 2)%nat; [|reflexivity].
    cbn. rewrite Hc. reflexivity.
  - destruct ((length (shape X_train) =? 2)
              || (length (shape X_train) =? 3))%nat; [|reflexivity].
    cbn. destruct ((length (shape X) =? 2)
              || (length (shape X) =? 3))%nat; [|reflexivity].
    cbn. destruct (length (shape cov) =? 2)%nat; [|reflexivity].
    destruct (length (shape inv) =? 2)%nat; [|reflexivity].
    cbn. rewrite Hc. reflexivity.
Qed.

End Evaluator.

Section Posteriors.

Context {W Hyps PriorMu : Type}.
Variable C : Collaborators W Hyps PriorMu.
Variable self : MOBO PriorMu.

Lemma squeeze1_cells a b :
  squeeze1 a = Ok b ->
  data b = data a /\
  exists n s, shape a = n :: 1%nat :: s /\ shape b = n :: s.
Proof.
  unfold squeeze1. destruct (shape a) as [|n [|[|[|k]] s]] eqn:S;
    try discriminate.
  intro H. injection H as <-. split; [reflexivity|].
  exists n, s. split; reflexivity.
Qed.

(** X5. What [compute_posteriors] returns is what the predictor returned for
    these arguments and the engine's covariance, prior mean and debug flag:
    the same cells, with the axis 1, of length one, taken out of the shape
    of the mean and of the deviation.  And it returns only on N training
    inputs, an N-by-1 response array and N-by-N covariance matrices. *)
Theorem compute_posteriors_returns_predictions
  X_train Y_train X_test cov inv hyps pred_mean pred_std :
  compute_posteriors C self X_train Y_train X_test cov inv hyps
  = Ok (pred_mean, pred_std) ->
  (exists pm ps pc,
      predict_with_cov C X_train Y_train X_test cov inv hyps (str_cov self)
        (prior_mu self) (debug self) = Ok (pm, ps, pc) /\
      data pred_mean = data pm /\ data pred_std = data ps /\
      (exists n s, shape pm = n :: 1%nat :: s /\ shape pred_mean = n :: s) /\
      (exists n s, shape ps = n :: 1%nat :: s /\ shape pred_std = n :: s)) /\
  (exists N, hd 0%nat (shape X_train) = N /\ shape Y_train = [N; 1%nat] /\
             shape cov = [N; N] /\ shape inv = [N; N]).
Proof.
  unfold compute_posteriors. intro H.
  repeat rinvert_step H. destruct v16 as [[pm ps] pc].
  rinvert_step H. rinvert_step H. injection H as <- <-.
  destruct (squeeze1_cells _ Hr17) as (D1 & S1).
  destruct (squeeze1_cells _ Hr18) as (D2 & S2).
  split; [exists pm, ps, pc; auto|].
  clear Hr9 Hr16 Hr17 Hr18 D1 D2 S1 S2 Hr Hr1.
  apply rassert_ok in Hr0, Hr2, Hr3, Hr5, Hr8, Hr12, Hr15.
  unfold eq3 in *. apply andb_prop in Hr12, Hr15.
  destruct Hr12 as [A1 A2], Hr15 as [B1 B2].
  apply Nat.eqb_eq in Hr0, Hr2, Hr3, Hr5, Hr8, A1, A2, B1, B2.
  unfold ndim, shape_at in *.
  destruct (shape Y_train) as [|y0 [|y1 [|? ?]]]; try discriminate Hr0.
  destruct (shape cov) as [|c0 [|c1 [|? ?]]]; try discriminate Hr2.
  destruct (shape inv) as [|i0 [|i1 [|? ?]]]; try discriminate Hr3.
  destruct (shape X_train) as [|x0 sx]; [discriminate Hr6|].
  cbn [nth_error] in *.
  injection Hr4 as <-. injection Hr6 as <-. injection Hr7 as <-.
  injection Hr10 as <-. injection Hr11 as <-. injection Hr13 as <-.
  injection Hr14 as <-. subst.
  eexists. cbn [hd]. auto.
Qed.

End Posteriors.

Section SearchOrder.

Context {W Hyps PriorMu : Type}.
Variable C : Collaborators W Hyps PriorMu.
Variable self : MOBO PriorMu.

(** The loop of [_optimize] starts its searches in the order of the initial
    points; it has started them all exactly when it succeeds, and then there
    is one candidate per initial point. *)
Lemma minimize_each_started f bounds rows :
  forall (w : world W) r w',
    minimize_each C self f bounds rows w = (r, w') ->
    exists k,
      (k <= length rows)%nat /\
      trace w' = trace w ++ map EvMinimize (firstn k rows) /\
      (forall pts, r = Ok pts ->
         k = length rows /\ length pts = length rows).
Proof.
  induction rows as [|x0 rows IH]; intros w r w' H; simpl in H.
  - injection H as <- <-. exists 0%nat. split; [lia|].
    split; [rewrite app_nil_r; reflexivity|].
    intros pts H. injection H as <-. auto.
  - unfold bind, emit, call in H. cbn [ext heap trace] in H.
    destruct (minimize C f x0 bounds (str_optimizer_method_bo self) (ext w))
      as [[o|e] x].
    + destruct (minimize_each C self f bounds rows _) as [r1 w1] eqn:E.
      destruct (IH _ _ _ E) as (k & Hk & Ht & Hok). cbn [trace] in Ht.
      exists (S k). split; [simpl; lia|].
      destruct r1 as [pts|e]; injection H as <- <-.
      * split; [rewrite Ht, <- app_assoc; reflexivity|].
        intros pts' H. injection H as <-.
        destruct (Hok pts eq_refl) as [-> L]. simpl. auto.
      * split; [rewrite Ht, <- app_assoc; reflexivity|].
        intros pts' H. discriminate H.
    + injection H as <- <-. exists 1%nat. split; [simpl; lia|].
      split; [reflexivity|]. intros pts H. discriminate H.
Qed.

(** X6. [_optimize], whatever its outcome: the restart sampler is called
    once, first; the local searches are then started in the order of the
    initial points, none skipped.  When [_optimize] succeeds a search has
    been started from every initial point, and the array of candidates has
    as many rows as there are initial points. *)
Theorem _optimize_search_order f m n seed (w : world W) :
  exists started,
    trace (snd (_optimize C self f m n seed w))
    = trace w ++ EvSamples m n seed :: map EvMinimize started /\
    (forall initials x rows,
        get_samples C (range_X self) m n seed (ext w) = (Ok initials, x) ->
        iter initials = Ok rows ->
        exists k, started = firstn k rows) /\
    (forall p nps,
        fst (_optimize C self f m n seed w) = Ok (p, nps) ->
        exists initials x rows,
          get_samples C (range_X self) m n seed (ext w) = (Ok initials, x) /\
          iter initials = Ok rows /\ started = rows /\
          hd 0%nat (shape nps) = length rows).
Proof.
  destruct (_optimize C self f m n seed w) as [r w'] eqn:H. cbn [fst snd].
  unfold _optimize, _get_bounds in H.
  unfold bind at 1 in H. cbn [emit] in H.
  unfold bind at 1 in H. unfold call at 1 in H. cbn [ext heap trace] in H.
  destruct (get_samples C (range_X self) m n seed (ext w)) as [[initials|e] x].
  2:{ injection H as <- <-. exists []. cbn [trace map]. split; [reflexivity|].
      split; [intros ? ? ? H; discriminate H | intros ? ? H; discriminate H]. }
  unfold bind at 1 in H. unfold lift at 1 in H.
  destruct (iter initials) as [rows|e] eqn:Ei.
  2:{ injection H as <- <-. exists []. cbn [trace map]. split; [reflexivity|].
      split; [|intros ? ? H; discriminate H].
      intros i0 x0 r0 H1 H2. injection H1 as <- <-. congruence. }
  unfold bind at 1 in H.
  destruct (minimize_each C self f _ rows _) as [r1 w1] eqn:E.
  destruct (minimize_each_started _ _ _ _ E) as (k & Hk & Ht & Hok).
  cbn [trace] in Ht. rewrite <- app_assoc in Ht. cbn [app] in Ht.
  destruct r1 as [pts|e].
  - destruct (Hok pts eq_refl) as [-> L]. rewrite firstn_all in Ht.
    exists rows.
    assert (Hw : w' = w1).
    { unfold bind, lift, ret in H.
      destruct (array pts); [|injection H as _ <-; reflexivity].
      destruct (utils_bo.get_best_acquisition_by_evaluation _ f);
        [|injection H as _ <-; reflexivity].
      destruct (index _ 0); injection H as _ <-; reflexivity. }
    subst w'. split; [exact Ht|]. split.
    { intros i0 x0 r0 H1 H2. injection H1 as <- <-.
      assert (r0 = rows) as -> by congruence.
      exists (length rows). rewrite firstn_all. reflexivity. }
    intros p nps ->. unfold bind, lift, ret in H.
    destruct (array pts) as [a|] eqn:Ea; [|discriminate H].
    destruct (utils_bo.get_best_acquisition_by_evaluation a f);
      [|discriminate H].
    destruct (index _ 0); [|discriminate H].
    injection H as _ <-. exists initials, x, rows.
    rewrite (array_first_dimension _ Ea). auto.
  - injection H as <- <-. exists (firstn k rows). split; [exact Ht|].
    split.
    { intros i0 x0 r0 H1 H2. injection H1 as <- <-.
      assert (r0 = rows) as -> by congruence.
      exists k. reflexivity. }
    intros p nps H. discriminate H.
Qed.

End SearchOrder.

Section Round.

Context {W Hyps PriorMu : Type}.
Variable C : Collaborators W Hyps PriorMu.
Variable self : MOBO PriorMu.

(** X7. [optimize] checks all it asks of its arguments before it does
    anything: if the training arrays are not an N-by-D and an N-by-2 matrix
    for one N (D the dimension of the domain), or the number of samples is
    not positive, or the sampling method is not an allowed one, it raises
    [AssertionError] and leaves the world as it found it; and it succeeds
    only on arguments that pass. *)
Theorem optimize_checks_arguments lX lY m n seed (w : world W) X Y :
  nth_error (heap w) lX = Some X ->
  nth_error (heap w) lY = Some Y ->
  (~ valid_call C self X Y m n ->
   optimize C self lX lY m n seed w = (Err AssertionError, w)) /\
  (forall pt info w',
      optimize C self lX lY m n seed w = (Ok (pt, info), w') ->
      valid_call C self X Y m n).
Proof.
  intros HX HY. split.
  - intro Hbad. unfold optimize.
    rewrite (bind_run _ (deref_run HX)).
    rewrite (bind_run _ (deref_run HY)).
    destruct (ndim X =? 2)%nat eqn:E1;
      [rewrite (bind_run _ (assert_run _ eq_refl))
      | apply bind_fail; reflexivity ].
    destruct (ndim Y =? 2)%nat eqn:E2;
      [rewrite (bind_run _ (assert_run _ eq_refl))
      | apply bind_fail; reflexivity ].
    unfold ndim in E1, E2.
    destruct (shape X) as [|x0 [|x1 [|x2 sx]]] eqn:SX; try discriminate E1.
    destruct (shape Y) as [|y0 [|y1 [|y2 sy]]] eqn:SY; try discriminate E2.
    rewrite (bind_run _ (lift_run _ (shape_at_nth Y 1 ltac:(rewrite SY; reflexivity)))).
    destruct (y1 =? 2)%nat eqn:E3;
      [rewrite (bind_run _ (assert_run _ eq_refl))
      | apply bind_fail; reflexivity ].
    rewrite (bind_run _ (lift_run _ (shape_at_nth X 0 ltac:(rewrite SX; reflexivity)))).
    rewrite (bind_run _ (lift_run _ (shape_at_nth Y 0 ltac:(rewrite SY; reflexivity)))).
    destruct (x0 =? y0)%nat eqn:E4;
      [rewrite (bind_run _ (assert_run _ eq_refl))
      | apply bind_fail; reflexivity ].
    rewrite (bind_run _ (lift_run _ (shape_at_nth X 1 ltac:(rewrite SX; reflexivity)))).
    destruct (x1 =? num_dim self)%nat eqn:E5;
      [rewrite (bind_run _ (assert_run _ eq_refl))
      | apply bind_fail; reflexivity ].
    destruct (0 <? n)%Z eqn:E6;
      [rewrite (bind_run _ (assert_run _ eq_refl))
      | apply bind_fail; reflexivity ].
    destruct (mem m (ALLOWED_SAMPLING_METHOD C)) eqn:E7;
      [|apply bind_fail; reflexivity ].
    exfalso. apply Hbad.
    apply Nat.eqb_eq in E3, E4, E5. apply Z.ltb_lt in E6. subst.
    split; [exists y0; auto | auto].
  - intros pt info w' H. apply optimize_ok in H.
    destruct H as (X' & Y' & c1 & c2 & Y1 & Y2 & s & U & p & nps & wa & wb & F).
    pose proof (run_X F) as HX'. pose proof (run_Y F) as HY'.
    assert (X' = X) as -> by congruence.
    assert (Y' = Y) as -> by congruence.
    split; [exact (run_shapes F)|].
    split; [exact (run_num_samples F) | exact (run_method F)].
Qed.

(** X8. The calls of a successful round, in their order: the clock twice,
    the fitter on [X_train] and the first response column, the fitter on
    [X_train] and the second, the clock twice, one draw for the seed plus
    101 between -3 and 3, the restart sampler with the method, the count and
    the seed of the round, one local search from each initial point it gave,
    in their order, and the clock twice.  Without normalization the columns
    the fitter gets are those of [Y_train]. *)
Theorem optimize_call_protocol lX lY m n seed (w : world W) pt info w' :
  optimize C self lX lY m n seed w = (Ok (pt, info), w') ->
  exists X Y c1 c2 Y1 Y2 s U initials x rows,
    nth_error (heap w) lX = Some X /\ nth_error (heap w) lY = Some Y /\
    column Y 0 = Ok c1 /\ column Y 1 = Ok c2 /\
    (normalize_Y self = false -> Y1 = c1 /\ Y2 = c2) /\
    seed = Some s /\
    fst (get_samples C (range_X self) m n seed x) = Ok initials /\
    iter initials = Ok rows /\
    trace w' =
    trace w ++
    [EvTime; EvTime; EvFit X Y1; EvFit X Y2; EvTime; EvTime;
     EvDraw (s + 101) (-3) 3 (Ok U); EvSamples m n seed] ++
    map EvMinimize rows ++ [EvTime; EvTime].
Proof.
  intro H. apply optimize_ok in H.
  destruct H as (X & Y & c1 & c2 & Y1 & Y2 & s & U & p & nps & wa & wb & F).
  pose proof (run_search F) as Hs. apply _optimize_ok in Hs.
  destruct Hs as (initials & x & rows & pts & best & Hs & Hi & Hmin & _).
  pose proof Hmin as Hk. apply minimize_each_started in Hk.
  destruct Hk as (k & _ & Ht & Hok).
  destruct (Hok pts eq_refl) as [-> _]. rewrite firstn_all in Ht.
  cbn [trace] in Ht.
  exists X, Y, c1, c2, Y1, Y2, s, U, initials, (ext wa), rows.
  split; [exact (run_X F)|]. split; [exact (run_Y F)|].
  split; [exact (run_c1 F)|]. split; [exact (run_c2 F)|].
  split.
  { intro EN. pose proof (run_Y1 F) as A. pose proof (run_Y2 F) as B.
    rewrite EN in A, B. auto. }
  split; [exact (run_seed F)|].
  split; [rewrite Hs; reflexivity|]. split; [exact Hi|].
  rewrite (run_trace_b F), Ht, (run_trace_a F).
  repeat rewrite <- app_assoc. reflexivity.
Qed.

(** X9. Without normalization a successful round allocates the copies of
    the two response columns and nothing else; the report's
    [Y_normalized_k] is the very object [Y_original_k], and the surrogates
    of the report are the fits on [X_train] and these columns as given. *)
Theorem optimize_without_normalization lX lY m n seed (w : world W)
  pt info w' :
  normalize_Y self = false ->
  optimize C self lX lY m n seed w = (Ok (pt, info), w') ->
  exists X Y c1 c2,
    nth_error (heap w) lX = Some X /\ nth_error (heap w) lY = Some Y /\
    column Y 0 = Ok c1 /\ column Y 1 = Ok c2 /\
    heap w' = heap w ++ [c1; c2] /\
    Y_normalized_1 info = Y_original_1 info /\
    Y_normalized_2 info = Y_original_2 info /\
    (exists x,
        fst (fitted C self X c1 x)
        = Ok (cov_X_X_1 info, inv_cov_X_X_1 info, hyps_1 info)) /\
    (exists x,
        fst (fitted C self X c2 x)
        = Ok (cov_X_X_2 info, inv_cov_X_X_2 info, hyps_2 info)).
Proof.
  intros EN H. apply optimize_ok in H.
  destruct H as (X & Y & c1 & c2 & Y1 & Y2 & s & U & p & nps & wa & wb & F).
  pose proof (run_Y1 F) as A. pose proof (run_Y2 F) as B.
  pose proof (run_heap F) as Hh.
  pose proof (run_norm1 F) as N1. pose proof (run_norm2 F) as N2.
  rewrite EN in A, B, Hh, N1, N2. subst Y1 Y2.
  exists X, Y, c1, c2.
  split; [exact (run_X F)|]. split; [exact (run_Y F)|].
  split; [exact (run_c1 F)|]. split; [exact (run_c2 F)|].
  split; [rewrite Hh; reflexivity|].
  split; [rewrite N1, (run_orig1 F); lia|].
  split; [rewrite N2, (run_orig2 F); reflexivity|].
  split.
  - destruct (run_fit1 F) as (x & x' & E). exists x. rewrite E. reflexivity.
  - destruct (run_fit2 F) as (x & x' & E). exists x. rewrite E. reflexivity.
Qed.

End Round.


Section Protocol.

Context {W : Type}.

Lemma protocol_run_app t1 : forall q t2,
  protocol_run q (t1 ++ t2)
  = match protocol_run q t1 with
    | Some q1 => protocol_run q1 t2
    | None => None
    end.
Proof.
  induction t1 as [|e t1 IH]; intros q t2; simpl; [reflexivity|].
  destruct (protocol_step q e); [apply IH | reflexivity].
Qed.

Lemma moves_bind {A B} q q1 q2 (m : M W A) (k : A -> M W B) :
  moves q m q1 -> (forall a, moves q1 (k a) q2) -> moves q (bind m k) q2.
Proof.
  intros Hm Hk w. destruct (Hm w) as (t1 & T1 & R1). unfold bind.
  destruct (m w) as [[a|e] w1]; cbn [fst snd] in *.
  - destruct (Hk a w1) as (t2 & T2 & R2). exists (t1 ++ t2).
    rewrite T2, T1, app_assoc. split; [reflexivity|].
    rewrite protocol_run_app, R1. exact R2.
  - exists t1. split; [exact T1 | exact R1].
Qed.

Lemma moves_still {A} q (m : M W A) :
  (forall w, trace (snd (m w)) = trace w) -> moves q m q.
Proof.
  intros H w. exists []. rewrite app_nil_r. split; [apply H|].
  destruct (fst (m w)); [reflexivity | exists q; reflexivity].
Qed.

Lemma moves_ret {A} q (a : A) : moves (W:=W) q (ret a) q.
Proof. apply moves_still. reflexivity. Qed.

Lemma moves_raise {A} q q' e : moves (W:=W) (A:=A) q (raise e) q'.
Proof.
  intro w. exists []. rewrite app_nil_r. split; [reflexivity|].
  exists q. reflexivity.
Qed.

Lemma moves_lift {A} q (r : result A) : moves (W:=W) q (lift r) q.
Proof. apply moves_still. reflexivity. Qed.

Lemma moves_assert q b : moves (W:=W) q (assert_ b) q.
Proof. apply moves_still. reflexivity. Qed.

Lemma moves_deref q l : moves (W:=W) q (deref l) q.
Proof.
  apply moves_still. intro w. unfold deref.
  destruct (nth_error (heap w) l); reflexivity.
Qed.

Lemma moves_alloc q a : moves (W:=W) q (alloc a) q.
Proof. apply moves_still. reflexivity. Qed.

Lemma moves_call {A} q (f : W -> result A * W) : moves q (call f) q.
Proof.
  apply moves_still. intro w. unfold call. destruct (f (ext w)). reflexivity.
Qed.

Lemma moves_emit q e q' :
  protocol_step q e = Some q' -> moves (W:=W) q (emit e) q'.
Proof.
  intros H w. exists [e]. split; [reflexivity|]. simpl. rewrite H. reflexivity.
Qed.

End Protocol.

Create HintDb moves.

#[local] Hint Resolve moves_ret moves_raise moves_lift moves_assert
  moves_deref moves_alloc moves_call : moves.

(** Splits a protocol goal along the structure of the computation. *)
Ltac protocol_step_tac :=
  match goal with
  | |- moves _ (bind (emit _) _) _ =>
      eapply moves_bind; [apply moves_emit; reflexivity | intros ?]
  | |- moves _ (bind _ _) _ => eapply moves_bind; [| intros ?]
  | |- moves _ (match ?x with _ => _ end) _ => destruct x
  | |- moves _ _ _ => solve [auto with moves]
  end.

Section EngineProtocol.

Context {W Hyps PriorMu : Type}.
Variable C : Collaborators W Hyps PriorMu.
Variable self : MOBO PriorMu.

Lemma moves_clock q q' :
  protocol_step q EvTime = Some q' -> moves q (clock C) q'.
Proof.
  intro H. unfold clock. eapply moves_bind; [apply moves_emit; exact H|].
  intros _. apply moves_call.
Qed.

Lemma moves_fit q q' l1 l2 :
  (forall X Y, protocol_step q (EvFit X Y) = Some q') ->
  moves q (fit C self l1 l2) q'.
Proof.
  intro H. unfold fit.
  eapply moves_bind; [apply moves_deref | intros X].
  eapply moves_bind; [apply moves_deref | intros Y].
  eapply moves_bind; [apply moves_emit; apply H | intros _].
  apply moves_call.
Qed.

Lemma moves_normalized q l : moves q (@normalized W l) q.
Proof. unfold normalized. repeat protocol_step_tac. Qed.

Lemma moves_draw seed : moves 6 (draw_log_weight C seed) 7.
Proof.
  unfold draw_log_weight.
  eapply moves_bind with (q1 := 6%nat).
  - destruct seed; [apply moves_ret | apply moves_raise].
  - intros s. eapply moves_bind; [apply moves_emit; reflexivity | intros _].
    apply moves_lift.
Qed.

Lemma moves_minimize_each f bounds initials :
  moves 8 (minimize_each C self f bounds initials) 8.
Proof.
  induction initials as [|x0 rest IH]; simpl.
  - apply moves_ret.
  - eapply moves_bind; [apply moves_emit; reflexivity | intros _].
    eapply moves_bind; [apply moves_call | intros r].
    eapply moves_bind; [exact IH | intros pts]. apply moves_ret.
Qed.

Lemma moves__optimize f m n seed : moves 7 (_optimize C self f m n seed) 8.
Proof.
  unfold _optimize.
  eapply moves_bind; [apply moves_emit; reflexivity | intros _].
  eapply moves_bind; [apply moves_call | intros initials].
  eapply moves_bind; [apply moves_lift | intros rows].
  eapply moves_bind; [apply moves_minimize_each | intros pts].
  repeat protocol_step_tac.
Qed.

Lemma moves_optimize lX lY m n seed :
  moves 0 (optimize C self lX lY m n seed) 10.
Proof.
  unfold optimize.
  do 13 (eapply moves_bind; [solve [auto with moves] | intros ?]).
  eapply moves_bind; [apply moves_clock; reflexivity | intros ?].
  eapply moves_bind with (q1 := 1%nat); [repeat protocol_step_tac | intros ?].
  eapply moves_bind with (q1 := 1%nat); [repeat protocol_step_tac | intros ?].
  eapply moves_bind with (q1 := 1%nat).
  { destruct (normalize_Y self).
    - eapply moves_bind; [apply moves_normalized | intros ?].
      eapply moves_bind; [apply moves_normalized | intros ?].
      apply moves_ret.
    - apply moves_ret. }
  intros [l1 l2].
  eapply moves_bind; [apply moves_clock; reflexivity | intros ?].
  eapply moves_bind; [apply moves_fit; reflexivity | intros [[? ?] ?]].
  eapply moves_bind; [apply moves_fit; reflexivity | intros [[? ?] ?]].
  eapply moves_bind; [apply moves_clock; reflexivity | intros ?].
  eapply moves_bind; [apply moves_clock; reflexivity | intros ?].
  do 3 (eapply moves_bind; [apply moves_deref | intros ?]).
  eapply moves_bind; [apply moves_draw | intros ?].
  eapply moves_bind; [apply moves__optimize | intros [? ?]].
  do 2 (eapply moves_bind; [apply moves_lift | intros ?]).
  eapply moves_bind; [apply moves_clock; reflexivity | intros ?].
  eapply moves_bind; [apply moves_lift | intros ?].
  eapply moves_bind; [apply moves_clock; reflexivity | intros ?].
  apply moves_ret.
Qed.

(** X11. Whatever its outcome, [optimize] calls its collaborators in the
    order of the round: the events it adds to the trace are accepted by the
    protocol from its first state, so no surrogate is fitted after the
    draw, none a third time, nothing is sampled or searched before both are
    fitted and the weight is drawn, and the clock is read at most six
    times; a round that succeeds has gone through the whole protocol. *)
Theorem optimize_follows_protocol lX lY m n seed (w : world W) :
  exists t q,
    trace (snd (optimize C self lX lY m n seed w)) = trace w ++ t /\
    protocol_run 0 t = Some q /\
    (forall pt info,
        fst (optimize C self lX lY m n seed w) = Ok (pt, info) ->
        q = 10%nat).
Proof.
  destruct (moves_optimize lX lY m n seed w) as (t & T & R).
  destruct (fst (optimize C self lX lY m n seed w)) as [[pt info]|e].
  - exists t, 10%nat. split; [exact T|]. split; [exact R|]. reflexivity.
  - destruct R as (q & R). exists t, q. split; [exact T|].
    split; [exact R|]. intros pt info H. discriminate H.
Qed.

End EngineProtocol.

Ltac invert_steps :=
  repeat match goal with
    | H : clock _ _ = (Ok _, _) |- _ =>
        apply clock_ok in H; destruct H as (? & ? & ->)
    | H : fit _ _ _ _ _ = (Ok _, _) |- _ =>
        apply fit_ok in H; destruct H as (? & ? & ? & ? & ? & ? & ->)
    | H : normalized _ _ = (Ok _, _) |- _ =>
        apply normalized_ok in H; destruct H as (? & ? & ? & ? & -> & ->)
    | H : draw_log_weight _ _ _ = (Ok _, _) |- _ =>
        apply draw_ok in H; destruct H as (? & ? & ? & ->)
    end;
  cbn [ext heap trace] in *.

Section Timing.

Context {W Hyps PriorMu : Type}.
Variable C : Collaborators W Hyps PriorMu.
Variable self : MOBO PriorMu.
Variable now : W -> Q.

Lemma minimize_each_later f bounds rows :
  (forall f x0 bounds method x,
      (now x <= now (snd (minimize C f x0 bounds method x)))%Q) ->
  forall (w : world W) r w',
    minimize_each C self f bounds rows w = (r, w') ->
    (now (ext w) <= now (ext w'))%Q.
Proof.
  intro Hmin. induction rows as [|x0 rows IH]; intros w r w' H; simpl in H.
  - injection H as _ <-. apply Qle_refl.
  - unfold bind, emit, call in H. cbn [ext heap trace] in H.
    pose proof (Hmin f x0 bounds (str_optimizer_method_bo self) (ext w)) as L.
    destruct (minimize C f x0 bounds (str_optimizer_method_bo self) (ext w))
      as [[o|e] x]; cbn [snd] in L.
    + destruct (minimize_each C self f bounds rows _) as [r1 w1] eqn:E.
      apply IH in E. cbn [ext] in E.
      destruct r1; injection H as _ <-; eapply Qle_trans; eassumption.
    + injection H as _ <-. exact L.
Qed.

Lemma _optimize_later f m n seed (w : world W) r w' :
  monotone_clock C self now ->
  _optimize C self f m n seed w = (r, w') ->
  (now (ext w) <= now (ext w'))%Q.
Proof.
  intros (_ & _ & Hs & Hmin) H.
  unfold _optimize, _get_bounds in H.
  unfold bind at 1 in H. cbn [emit] in H.
  unfold bind at 1 in H. unfold call at 1 in H. cbn [ext heap trace] in H.
  pose proof (Hs m n seed (ext w)) as L.
  destruct (get_samples C (range_X self) m n seed (ext w)) as [[initials|e] x];
    cbn [snd] in L.
  2:{ injection H as _ <-. exact L. }
  unfold bind at 1 in H. unfold lift at 1 in H.
  destruct (iter initials) as [rows|e].
  2:{ injection H as _ <-. exact L. }
  unfold bind at 1 in H.
  destruct (minimize_each C self f _ rows _) as [r1 w1] eqn:E.
  apply (minimize_each_later _ _ _ Hmin) in E. cbn [ext] in E.
  assert (Hw : w' = w1).
  { destruct r1; [|injection H as _ <-; reflexivity].
    unfold bind, lift, ret in H.
    destruct (array _); [|injection H as _ <-; reflexivity].
    destruct (utils_bo.get_best_acquisition_by_evaluation _ f);
      [|injection H as _ <-; reflexivity].
    destruct (index _ 0); injection H as _ <-; reflexivity. }
  subst w'. eapply Qle_trans; eassumption.
Qed.

(** X12. With a clock that does not run backwards, the three durations of the
    report of a successful round are consistent: the time of the surrogates
    and the time of the acquisition are not negative, and together they do
    not exceed the overall time. *)
Theorem optimize_durations lX lY m n seed (w : world W) pt info w' :
  monotone_clock C self now ->
  optimize C self lX lY m n seed w = (Ok (pt, info), w') ->
  (0 <= time_surrogate info)%Q /\ (0 <= time_acq info)%Q /\
  (time_surrogate info + time_acq info <= time_overall info)%Q.
Proof.
  intros Mono H. pose proof Mono as (Hc & Hf & _ & _).
  unfold optimize in H. invert_run H.
  injection H as Hpt Hinfo. subst pt info.
  cbn [time_surrogate time_acq time_overall].
  destruct (normalize_Y self) eqn:EN; invert_run Hm13;
    invert_steps; injection Hm13 as -> ->;
    match goal with Hs : context [@_optimize] |- _ =>
      pose proof (_optimize_later _ _ _ _ _ Mono Hs) as Ls; cbn [ext] in Ls
    end;
    repeat match goal with
    | Ht : time C ?x = (_, _) |- _ =>
        let L := fresh "L" in
        pose proof (Hc x) as L; rewrite Ht in L; cbn [fst snd] in L;
        revert Ht
    | Hk : get_optimized_kernel C ?X ?Y _ _ _ _ _ _ ?x = (_, _) |- _ =>
        let L := fresh "L" in
        pose proof (Hf X Y x) as L; unfold fitted in L; rewrite Hk in L;
        cbn [snd] in L; revert Hk
    end; intros; lra.
Qed.

End Timing.

Section Candidates.

Import utils_bo.

Lemma array_wf pts nps : Forall wf pts -> array pts = Ok nps -> wf nps.
Proof.
  intros Hwf Harr. unfold array in Harr. destruct pts as [|a pts'].
  { injection Harr as <-. reflexivity. }
  remember (a :: pts') as pts eqn:Epts.
  destruct (forallb (fun b => shape_eqb (shape b) (shape a)) pts) eqn:E;
    [|discriminate].
  injection Harr as <-. apply forallb_shape_eq in E.
  unfold wf. cbn [shape data size_of fold_right].
  rewrite (@concat_length_uniform _ (size_of (shape a))).
  - rewrite length_map. reflexivity.
  - apply Forall_map. rewrite Forall_forall in *. intros b Hb.
    rewrite <- (E b Hb). apply Hwf. exact Hb.
Qed.

Lemma clamp_row_length bounds row :
  length (clamp_row bounds row) = Nat.min (length bounds) (length row).
Proof. unfold clamp_row. rewrite length_map, length_combine. reflexivity. Qed.

Lemma rows_wf a K d :
  shape a = [K; d] -> wf a ->
  Forall (fun r => length r = d) (rows a) /\
  forall i, (i < K)%nat ->
    nth_error (rows a) i = Some (firstn d (skipn (i * d) (data a))).
Proof.
  intros S Wa. unfold wf in Wa. unfold rows. rewrite S in *.
  cbn [size_of fold_right] in Wa. split.
  - apply Forall_map. apply Forall_forall. intros i Hi. apply in_seq in Hi.
    rewrite length_firstn, length_skipn. nia.
  - intros i Hi. rewrite nth_error_map, nth_error_seq.
    apply Nat.ltb_lt in Hi. rewrite Hi. reflexivity.
Qed.

(** The clamp of a batch, read at a row, is the clamp of that row taken
    alone. *)
Lemma checked_row nps bounds b i p b' pt :
  wf nps ->
  check_points_in_bounds nps bounds = Ok b ->
  index nps i = Ok p ->
  check_points_in_bounds (newaxis p) bounds = Ok b' ->
  index b' 0 = Ok pt ->
  index b i = Ok pt.
Proof.
  intros Wn Hb Hp Hb' Hpt.
  unfold check_points_in_bounds in Hb.
  rinvert_step Hb. apply rassert_ok in Hr.
  rinvert_step Hb. rinvert_step Hb. apply rassert_ok in Hr1.
  injection Hb as <-.
  unfold ndim, shape_at in *.
  destruct (shape nps) as [|K [|d [|d' s]]] eqn:Sn; try discriminate Hr.
  cbn [nth_error] in Hr0. injection Hr0 as <-.
  apply Nat.eqb_eq in Hr1.
  destruct (rows_wf Sn Wn) as [Hlen Hnth].
  unfold index in Hp. rewrite Sn in Hp.
  destruct (i <? K)%nat eqn:Lt; [|discriminate Hp].
  injection Hp as <-. apply Nat.ltb_lt in Lt.
  cbn [size_of fold_right] in *. rewrite Nat.mul_1_r in *.
  set (row := firstn d (skipn (i * d) (data nps))) in *.
  assert (Lr : length row = d).
  { rewrite Forall_forall in Hlen. apply Hlen.
    eapply nth_error_In. apply Hnth. exact Lt. }
  assert (Lc : length (clamp_row bounds row) = d).
  { rewrite clamp_row_length, Lr, <- Hr1. apply Nat.min_id. }
  unfold check_points_in_bounds, newaxis, ndim, shape_at, rows in Hb'.
  cbn [shape data length nth_error Nat.eqb rbind rassert] in Hb'.
  rewrite Hr1, Nat.eqb_refl in Hb'. cbn [rbind rassert] in Hb'.
  injection Hb' as <-.
  unfold index in Hpt. cbn [shape data Nat.ltb Nat.leb] in Hpt.
  cbn [seq map concat size_of fold_right Nat.mul skipn] in Hpt.
  rewrite Nat.mul_1_r, app_nil_r in Hpt.
  replace (firstn (length bounds) row) with row in Hpt
    by (symmetry; apply firstn_all2; lia).
  rewrite firstn_all2 in Hpt by lia.
  injection Hpt as <-.
  unfold index. cbn [shape data]. apply Nat.ltb_lt in Lt. rewrite Lt.
  apply Nat.ltb_lt in Lt. cbn [size_of fold_right]. rewrite Nat.mul_1_r.
  f_equal. f_equal; [congruence|].
  rewrite (@skipn_concat_uniform _ d).
  2:{ apply Forall_map. rewrite Forall_forall in *. intros r Hr2.
      rewrite clamp_row_length, (Hlen r Hr2), <- Hr1. apply Nat.min_id. }
  rewrite (@skipn_nth_error _ _ i (clamp_row bounds row)).
  2:{ rewrite nth_error_map, (Hnth i Lt). reflexivity. }
  cbn [concat]. rewrite firstn_app, firstn_all2 by lia.
  replace (d - length (clamp_row bounds row))%nat with 0%nat by lia.
  cbn [firstn]. apply app_nil_r.
Qed.

End Candidates.

Section Report.

Context {W Hyps PriorMu : Type}.
Variable C : Collaborators W Hyps PriorMu.
Variable self : MOBO PriorMu.

(** X13. The report of a successful round has one candidate per initial
    point of the restart sampler, and, with a local optimizer that returns
    numpy arrays, the point returned is one of them: the row of
    [next_points] at the place where the objective, evaluated on the
    candidates as the searches left them, is least for the first time.
    ([check_points_in_bounds] and [get_best_acquisition_by_evaluation] are
    those of the specification.) *)
Theorem optimize_point_among_candidates lX lY m n seed (w : world W)
  pt info w' :
  returns_arrays C ->
  optimize C self lX lY m n seed w = (Ok (pt, info), w') ->
  exists initials x rows,
    fst (get_samples C (range_X self) m n seed x) = Ok initials /\
    iter initials = Ok rows /\
    hd 0%nat (shape (next_points info)) = length rows /\
    exists i, (i < length rows)%nat /\ index (next_points info) i = Ok pt.
Proof.
  intros R H. apply optimize_ok in H.
  destruct H as (X & Y & c1 & c2 & Y1 & Y2 & s & U & p & nps & wa & wb & F).
  pose proof (run_search F) as Hs. apply _optimize_ok in Hs.
  destruct Hs as (initials & x & rows & pts & best & Hs & Hi & Hmin & Harr &
                  Hbest & Hp).
  pose proof Hmin as Hk. apply minimize_each_started in Hk.
  destruct Hk as (k & _ & _ & Hok). destruct (Hok pts eq_refl) as [_ L].
  pose proof Hmin as Wp. eapply minimize_each_wf in Wp; [|exact R].
  pose proof (array_wf Wp Harr) as Wn.
  pose proof (get_best_spec _ _ Hbest Hp) as (scores & i & si & _ & Hidx & _).
  destruct (run_point F) as (b' & Hb' & Hpt).
  pose proof (run_points F) as Hrow.
  eapply checked_row in Hrow; [|exact Wn|exact Hidx|exact Hb'|exact Hpt].
  exists initials, (ext wa), rows.
  split; [rewrite Hs; reflexivity|]. split; [exact Hi|].
  assert (Hd : hd 0%nat (shape (next_points info)) = length rows).
  { pose proof (run_points F) as Hc.
    unfold utils_bo.check_points_in_bounds in Hc.
    rinvert_step Hc. rinvert_step Hc. rinvert_step Hc. injection Hc as <-.
    cbn [shape]. rewrite (array_first_dimension _ Harr). exact L. }
  split; [exact Hd|].
  exists i. split; [|exact Hrow].
  unfold index in Hrow. destruct (shape (next_points info)) as [|K s'];
    [discriminate Hrow|].
  cbn [hd] in Hd. subst K.
  destruct (i <? length rows)%nat eqn:Lt; [|discriminate Hrow].
  apply Nat.ltb_lt. exact Lt.
Qed.

End Report.

Section BatchRows.

Import utils_bo.

Variable bounds : list (Q * Q).

Local Abbreviation d := (length bounds).
Local Abbreviation chunks K L :=
  (map (fun i => firstn d (skipn (i * d) L)) (seq 0 K)).

Lemma chunks_step K (L : list Q) :
  chunks (S K) L = firstn d L :: chunks K (skipn d L).
Proof.
  cbn [seq map Nat.mul skipn]. f_equal.
  rewrite <- seq_shift, map_map. apply map_ext. intro i.
  cbn [Nat.mul]. rewrite skipn_skipn. f_equal. f_equal. lia.
Qed.

Lemma chunks_nil K : concat (map (clamp_row bounds) (chunks K [])) = [].
Proof.
  induction K as [|K IH]; [reflexivity|].
  rewrite chunks_step. cbn [map concat]. rewrite skipn_nil, IH.
  rewrite firstn_nil. unfold clamp_row. rewrite combine_nil. reflexivity.
Qed.

Lemma clamped_chunk_cell K : forall (L : list Q) i j x,
  nth_error
    (firstn d (skipn (i * d) (concat (map (clamp_row bounds) (chunks K L)))))
    j = Some x ->
  exists c y, nth_error bounds j = Some c /\ x = clamp c y.
Proof.
  induction K as [|K IH]; intros L i j x H.
  - cbn [seq map concat] in H. rewrite skipn_nil, firstn_nil in H.
    destruct j; discriminate H.
  - rewrite chunks_step in H. cbn [map concat] in H.
    pose proof (clamp_row_length bounds (firstn d L)) as Lc.
    rewrite length_firstn in Lc.
    destruct (Nat.le_gt_cases d (length L)) as [Full|Short].
    + assert (Ld : length (clamp_row bounds (firstn d L)) = d) by lia.
      clear Lc. rename Ld into Lc.
      destruct i as [|i].
      * cbn [Nat.mul skipn] in H. rewrite firstn_app, Lc, Nat.sub_diag in H.
        cbn [firstn] in H. rewrite app_nil_r, firstn_all2 in H by lia.
        apply clamp_row_nth in H. destruct H as (c & y & Hc & _ & ->).
        exists c, y. auto.
      * cbn [Nat.mul] in H. rewrite skipn_app, Lc in H.
        rewrite skipn_all2 in H by lia.
        replace (d + i * d - d)%nat with (i * d)%nat in H by lia.
        cbn [app] in H. eapply IH. exact H.
    + replace (skipn d L) with (@nil Q) in H
        by (symmetry; apply skipn_all2; lia).
      rewrite chunks_nil, app_nil_r in H.
      destruct i as [|i].
      * cbn [Nat.mul skipn] in H. apply nth_error_firstn_Some in H.
        apply clamp_row_nth in H. destruct H as (c & y & Hc & _ & ->).
        exists c, y. auto.
      * rewrite skipn_all2 in H by (cbn [Nat.mul]; lia).
        rewrite firstn_nil in H. destruct j; discriminate H.
Qed.

(** A row of a clamped batch has one cell per bound, each in its interval. *)
Lemma checked_batch_row nps b i row :
  valid_range bounds = true ->
  check_points_in_bounds nps bounds = Ok b ->
  index b i = Ok row ->
  (exists K, shape b = [K; d] /\ (i < K)%nat) /\
  shape row = [d] /\
  forall j x, nth_error (data row) j = Some x ->
    exists lo hi, nth_error bounds j = Some (lo, hi) /\ (lo <= x <= hi)%Q.
Proof.
  intros V Hb Hi. unfold check_points_in_bounds in Hb.
  rinvert_step Hb. apply rassert_ok in Hr.
  rinvert_step Hb. rinvert_step Hb. apply rassert_ok in Hr1.
  injection Hb as <-.
  unfold ndim, shape_at, rows in *.
  destruct (shape nps) as [|K [|d' [|? ?]]] eqn:Sn; try discriminate Hr.
  cbn [nth_error] in Hr0. injection Hr0 as <-.
  apply Nat.eqb_eq in Hr1. subst d'.
  unfold index in Hi. cbn [shape data] in Hi.
  destruct (i <? K)%nat eqn:Lt; [|discriminate Hi].
  injection Hi as <-. cbn [shape data size_of fold_right].
  rewrite Nat.mul_1_r. apply Nat.ltb_lt in Lt.
  split; [exists K; auto|]. split; [reflexivity|].
  intros j x Hx. apply clamped_chunk_cell in Hx.
  destruct Hx as ([lo hi] & y & Hc & ->). exists lo, hi. split; [exact Hc|].
  apply (clamp_in (lo, hi) y). eapply valid_range_nth; eassumption.
Qed.

(** The cell of a clamped batch at row [i] and column [j] is in the
    interval at [j]. *)
Lemma checked_batch_cell nps b i j x :
  valid_range bounds = true ->
  check_points_in_bounds nps bounds = Ok b ->
  (j < d)%nat ->
  nth_error (data b) (i * d + j) = Some x ->
  exists lo hi, nth_error bounds j = Some (lo, hi) /\ (lo <= x <= hi)%Q.
Proof.
  intros V Hb Hj Hx. unfold check_points_in_bounds in Hb.
  rinvert_step Hb. apply rassert_ok in Hr.
  rinvert_step Hb. rinvert_step Hb. apply rassert_ok in Hr1.
  injection Hb as <-.
  unfold ndim, shape_at, rows in *.
  destruct (shape nps) as [|K [|d' [|? ?]]] eqn:Sn; try discriminate Hr.
  cbn [nth_error] in Hr0. injection Hr0 as <-.
  apply Nat.eqb_eq in Hr1. subst d'. cbn [data] in Hx.
  rewrite <- nth_error_skipn in Hx.
  assert (Hc : nth_error
                 (firstn d (skipn (i * d)
                    (concat (map (clamp_row bounds) (chunks K (data nps))))))
                 j = Some x).
  { rewrite nth_error_firstn. destruct (Nat.ltb_spec j d); [exact Hx | lia]. }
  apply clamped_chunk_cell in Hc.
  destruct Hc as ([lo hi] & y & Hc & ->). exists lo, hi. split; [exact Hc|].
  apply (clamp_in (lo, hi) y). eapply valid_range_nth; eassumption.
Qed.

End BatchRows.

Section ReportRows.

Context {W Hyps PriorMu : Type}.
Variable C : Collaborators W Hyps PriorMu.
Variable self : MOBO PriorMu.

Lemma checked_batch_wf nps bounds b :
  wf nps -> utils_bo.check_points_in_bounds nps bounds = Ok b -> wf b.
Proof.
  intros Wn Hb. unfold utils_bo.check_points_in_bounds in Hb.
  rinvert_step Hb. apply rassert_ok in Hr.
  rinvert_step Hb. rinvert_step Hb. apply rassert_ok in Hr1.
  injection Hb as <-. unfold ndim, shape_at in *.
  destruct (shape nps) as [|K [|d [|? ?]]] eqn:Sn; try discriminate Hr.
  cbn [nth_error] in Hr0. injection Hr0 as <-.
  apply Nat.eqb_eq in Hr1.
  destruct (rows_wf Sn Wn) as [Hlen _].
  unfold wf. cbn [shape data].
  rewrite (@concat_length_uniform _ d).
  - rewrite length_map. unfold rows. rewrite Sn, length_map, length_seq.
    cbn [size_of fold_right]. lia.
  - apply Forall_map. rewrite Forall_forall in *. intros r Hr2.
    rewrite clamp_row_length, (Hlen r Hr2), <- Hr1. apply Nat.min_id.
Qed.

Lemma index_wf a i row : wf a -> index a i = Ok row -> wf row.
Proof.
  unfold wf, index. intros Wa H. destruct (shape a) as [|n s]; [discriminate|].
  destruct (i <? n)%nat eqn:Lt; [|discriminate]. injection H as <-.
  apply Nat.ltb_lt in Lt. cbn [shape data size_of fold_right] in *.
  rewrite length_firstn, length_skipn, Wa. apply Nat.min_l.
  unfold size_of. set (k := fold_right Nat.mul 1%nat s).
  assert (S i * k <= n * k)%nat by (apply Nat.mul_le_mono_r; lia).
  cbn [Nat.mul] in H. lia.
Qed.

(** X10. For an engine that [__init__] has built, whatever the arguments it
    was built from: when [optimize] succeeds, every coordinate of the point
    it returns lies in its interval of the domain given to [__init__]; the
    candidates of the report are a K-by-D array, of K * D cells when the
    local optimizer returns arrays, whose cell at row [i] and column [j]
    lies in the interval at [j]; and every row of it, [next_points[i]], is a
    point of the domain: of shape (D,), each cell in the interval at its
    place, and with D cells when the local optimizer returns arrays.
    ([check_points_in_bounds] is the clamp of the specification.) *)
Theorem optimize_after___init___in_domain
  r cov acq ny ard pm ogp obo ms ex dbg lX lY m n seed (w : world W)
  pt info w' :
  __init__ C r cov acq ny ard pm ogp obo ms ex dbg = Ok self ->
  optimize C self lX lY m n seed w = (Ok (pt, info), w') ->
  range_X self = r /\
  in_domain self (data pt) /\
  (exists K,
      shape (next_points info) = [K; length r] /\
      (returns_arrays C ->
       length (data (next_points info)) = (K * length r)%nat)) /\
  (forall i j x,
      (j < length r)%nat ->
      nth_error (data (next_points info)) (i * length r + j) = Some x ->
      exists lo hi, nth_error r j = Some (lo, hi) /\ (lo <= x <= hi)%Q) /\
  (forall i row,
      index (next_points info) i = Ok row ->
      shape row = [length r] /\ in_domain self (data row) /\
      (returns_arrays C -> length (data row) = length r)).
Proof.
  intros Hi H. pose proof Hi as V. apply __init___valid_range in V.
  assert (Er : range_X self = r).
  { unfold __init__ in Hi. repeat rinvert_step Hi. injection Hi as <-.
    reflexivity. }
  split; [exact Er|]. subst r.
  apply optimize_ok in H.
  destruct H as (X & Y & c1 & c2 & Y1 & Y2 & s & U & p & nps & wa & wb & F).
  split.
  { destruct (run_point F) as (b & Hb & Hpt).
    pose proof (checked_point _ _ Hb Hpt) as (_ & Hin).
    intros i x Hx. destruct (Hin i x Hx) as ([lo hi] & y & Hc & _ & ->).
    exists lo, hi. split; [exact Hc|].
    apply (clamp_in (lo, hi) y). eapply valid_range_nth; eassumption. }
  pose proof (run_points F) as Hp. unfold _get_bounds in Hp.
  assert (Wb : returns_arrays C -> wf (next_points info)).
  { intro R. pose proof (run_search F) as Hsearch.
    apply _optimize_ok in Hsearch.
    destruct Hsearch
      as (initials & x & rs & pts & best & _ & _ & Hmin & Harr & _).
    eapply minimize_each_wf in Hmin; [|exact R].
    pose proof (array_wf Hmin Harr) as Wn.
    eapply checked_batch_wf; [exact Wn | exact Hp]. }
  split.
  { pose proof Hp as Hs. unfold utils_bo.check_points_in_bounds in Hs.
    rinvert_step Hs. apply rassert_ok in Hr.
    rinvert_step Hs. rinvert_step Hs. apply rassert_ok in Hr1.
    injection Hs as Hs. rewrite <- Hs in Wb |- *.
    unfold ndim, shape_at in *. cbn [shape].
    destruct (shape nps) as [|K [|d [|? ?]]]; try discriminate Hr.
    cbn [nth_error] in Hr0. injection Hr0 as <-.
    apply Nat.eqb_eq in Hr1. subst d. exists K. split; [reflexivity|].
    intro R. specialize (Wb R). unfold wf in Wb.
    cbn [shape data size_of fold_right] in Wb. cbn [data]. rewrite Wb. lia. }
  split.
  { intros i j x Hj Hx. eapply checked_batch_cell; eassumption. }
  intros i row Hrow.
  destruct (@checked_batch_row _ _ _ _ _ V Hp Hrow) as (_ & Hs & Hc).
  split; [exact Hs|]. split; [exact Hc|].
  intro R. specialize (Wb R).
  pose proof Hrow as Wr. eapply index_wf in Wr; [|exact Wb]. unfold wf in Wr.
  rewrite Wr, Hs. cbn [size_of fold_right]. lia.
Qed.

End ReportRows.

(** ** These properties at work on the concrete collaborators *)

(** The tick counter never goes back. *)
Lemma toy_monotone_clock b :
  monotone_clock Toy.collaborators (Toy.engine b) Toy.now.
Proof.
  assert (S1 : forall x : nat, (Toy.now x <= Toy.now (S x))%Q).
  { intro x. unfold Toy.now. rewrite <- Zle_Qle. lia. }
  repeat split; intros; cbn [fst snd]; try apply Qle_refl; apply S1.
Qed.


(** X2 on the point 3 of the one-dimensional domain: its score is 7000 as
    a vector and as a batch of one. *)
Lemma compute_acquisitions_single_point_witness :
  compute_acquisitions Toy.collaborators (Toy.engine true)
    (mk_ndarray [1%nat] [3%Q]) Toy.X_train Toy.Y_column (Toy.square 3)
    (Toy.square 3) tt
  = compute_acquisitions Toy.collaborators (Toy.engine true)
      (mk_ndarray [1; 1]%nat [3%Q]) Toy.X_train Toy.Y_column (Toy.square 3)
      (Toy.square 3) tt /\
  compute_acquisitions Toy.collaborators (Toy.engine true)
    (mk_ndarray [1; 1]%nat [3%Q]) Toy.X_train Toy.Y_column (Toy.square 3)
    (Toy.square 3) tt = Ok [7000 # 1]%Q.
Proof.
  split; [|vm_compute; reflexivity].
  apply (proj1 (@compute_acquisitions_single_point _ _ _ Toy.collaborators
                  (Toy.engine true) 1%nat [3%Q])).
Defined.

(** X3 on three batches of one training point and a matrix of two test
    points. *)
Lemma batched_training_IndexError_witness :
  compute_posteriors Toy.collaborators (Toy.engine true) Toy.X_batched
    Toy.Y_column Toy.X_test (Toy.square 3) (Toy.square 3) tt
  = Err IndexError /\
  compute_acquisitions Toy.collaborators (Toy.engine true) Toy.X_test
    Toy.X_batched Toy.Y_column (Toy.square 3) (Toy.square 3) tt
  = Err IndexError.
Proof.
  destruct (@batched_training_IndexError _ _ _ Toy.collaborators
              (Toy.engine true) Toy.X_test Toy.X_batched Toy.Y_column
              (Toy.square 3) (Toy.square 3) tt 3%nat 1%nat 1%nat)
    as [Hp Ha]; try reflexivity.
  split; [apply Hp; reflexivity | apply Ha; right; reflexivity].
Defined.

(** X4 on the two-column response array of a round. *)
Lemma evaluator_one_response_column_witness :
  compute_acquisitions Toy.collaborators (Toy.engine true) Toy.X_test
    Toy.X_train Toy.Y_train (Toy.square 3) (Toy.square 3) tt
  = Err AssertionError /\
  compute_posteriors Toy.collaborators (Toy.engine true) Toy.X_train
    Toy.Y_train Toy.X_test (Toy.square 3) (Toy.square 3) tt
  = Err AssertionError.
Proof.
  apply (@evaluator_one_response_column _ _ _ Toy.collaborators
           (Toy.engine true) Toy.X_test Toy.X_train Toy.Y_train
           (Toy.square 3) (Toy.square 3) tt 3%nat 2%nat);
    [reflexivity | lia].
Defined.

(** X5 on two test points: the means are 7 and 8,
    in an array of shape (2,). *)
Lemma compute_posteriors_returns_predictions_witness :
  exists pred_mean pred_std,
    compute_posteriors Toy.collaborators (Toy.engine true) Toy.X_train
      Toy.Y_column Toy.X_test (Toy.square 3) (Toy.square 3) tt
    = Ok (pred_mean, pred_std) /\
    shape pred_mean = [2%nat] /\ data pred_mean = [7; 8]%Q /\
    exists pm ps pc,
      Toy.predict Toy.X_train Toy.Y_column Toy.X_test (Toy.square 3)
        (Toy.square 3) tt "matern52" None false = Ok (pm, ps, pc) /\
      data pred_mean = data pm /\ data pred_std = data ps.
Proof.
  eexists _, _. split; [vm_compute; reflexivity|].
  split; [reflexivity|]. split; [reflexivity|].
  edestruct (@compute_posteriors_returns_predictions _ _ _ Toy.collaborators
               (Toy.engine true) Toy.X_train Toy.Y_column Toy.X_test
               (Toy.square 3) (Toy.square 3) tt)
    as [(pm & ps & pc & Hp & Hm & Hs & _) _]; [vm_compute; reflexivity|].
  exists pm, ps, pc. split; [exact Hp|]. split; [exact Hm | exact Hs].
Defined.

(** X6 on a search of three restarts. *)
Lemma _optimize_search_order_witness :
  exists started,
    trace (snd (_optimize Toy.collaborators (Toy.engine true)
                  Toy.first_coordinate "uniform" 3 (Some 7%Z) Toy.world0))
    = trace Toy.world0 ++
      EvSamples "uniform" 3 (Some 7%Z) :: map EvMinimize started /\
    length started = 3%nat.
Proof.
  destruct (@_optimize_search_order _ _ _ Toy.collaborators (Toy.engine true)
              Toy.first_coordinate "uniform" 3 (Some 7%Z) Toy.world0)
    as (started & Ht & _ & Hok).
  exists started. split; [exact Ht|].
  edestruct Hok as (initials & x & rows & Hs & Hi & -> & _);
    [vm_compute; reflexivity|].
  injection Hs as <- _. vm_compute in Hi. injection Hi as <-. reflexivity.
Defined.

(** X7 on a sampling method that is not an allowed one, and on the
    arguments of a round that succeeds. *)
Lemma optimize_checks_arguments_witness :
  optimize Toy.collaborators (Toy.engine true) 0%nat 1%nat "random" 5
    (Some 7%Z) Toy.world0 = (Err AssertionError, Toy.world0) /\
  valid_call Toy.collaborators (Toy.engine true) Toy.X_train Toy.Y_train
    "uniform" 5.
Proof.
  split.
  - apply (proj1 (@optimize_checks_arguments _ _ _ Toy.collaborators
                    (Toy.engine true) 0%nat 1%nat "random" 5 (Some 7%Z)
                    Toy.world0 Toy.X_train Toy.Y_train eq_refl eq_refl)).
    intros (_ & _ & H). vm_compute in H. discriminate H.
  - eapply (proj2 (@optimize_checks_arguments _ _ _ Toy.collaborators
                     (Toy.engine true) 0%nat 1%nat "uniform" 5 (Some 7%Z)
                     Toy.world0 Toy.X_train Toy.Y_train eq_refl eq_refl)).
    vm_compute. reflexivity.
Defined.

(** X8 on a round of the engine over [0, 10], with seed 7: fifteen
    calls, five local searches among them. *)
Lemma optimize_call_protocol_witness :
  exists X Y1 Y2 U rows,
    length rows = 5%nat /\
    trace (snd (optimize Toy.collaborators (Toy.engine true) 0%nat 1%nat
                  "uniform" 5 (Some 7%Z) Toy.world0))
    = [EvTime; EvTime; EvFit X Y1; EvFit X Y2; EvTime; EvTime;
       EvDraw 108 (-3) 3 (Ok U); EvSamples "uniform" 5 (Some 7%Z)] ++
      map EvMinimize rows ++ [EvTime; EvTime].
Proof.
  edestruct (@optimize_call_protocol _ _ _ Toy.collaborators
               (Toy.engine true) 0%nat 1%nat "uniform" 5 (Some 7%Z)
               Toy.world0)
    as (X & Y & c1 & c2 & Y1 & Y2 & s & U & initials & x & rows & _ & _ & _ &
        _ & _ & Hs & Hi & Hrows & Ht);
    [vm_compute; reflexivity|].
  injection Hs as <-. injection Hi as <-. injection Hrows as <-.
  exists X, Y1, Y2, U. eexists. split; [|exact Ht]. reflexivity.
Defined.

(** X9 on a round of the engine without normalization: the report names
    the objects 2 and 3, twice. *)
Lemma optimize_without_normalization_witness :
  exists pt info w',
    optimize Toy.collaborators (Toy.engine false) 0%nat 1%nat "uniform" 5
      (Some 7%Z) Toy.world0 = (Ok (pt, info), w') /\
    length (heap w') = 4%nat /\
    Y_original_1 info = 2%nat /\ Y_normalized_1 info = Y_original_1 info /\
    Y_original_2 info = 3%nat /\ Y_normalized_2 info = Y_original_2 info.
Proof.
  eexists _, _, _. split; [vm_compute; reflexivity|].
  edestruct (@optimize_without_normalization _ _ _ Toy.collaborators
               (Toy.engine false) 0%nat 1%nat "uniform" 5 (Some 7%Z)
               Toy.world0)
    as (X & Y & c1 & c2 & _ & _ & _ & _ & Hh & H1 & H2 & _);
    [reflexivity | vm_compute; reflexivity |].
  split; [rewrite Hh; reflexivity|].
  split; [reflexivity|]. split; [exact H1|].
  split; [reflexivity | exact H2].
Defined.

(** X10 on a run of the engine that [__init__] builds over [0, 10]: the
    searches end at 0 and at 12, the report is a 5-by-1 array that holds 0
    and 10, the point is 10, and every row of the report is a point of the
    domain, of one cell. *)
Lemma optimize_after___init___in_domain_witness :
  exists pt info w',
    optimize Toy.collaborators (Toy.engine true) 0%nat 1%nat "uniform" 5
      (Some 7%Z) Toy.world0 = (Ok (pt, info), w') /\
    data pt = [10 # 1]%Q /\
    shape (next_points info) = [5; 1]%nat /\
    data (next_points info) = [0; 10 # 1; 10 # 1; 0; 10 # 1]%Q /\
    in_domain (Toy.engine true) (data pt) /\
    (forall i x,
        nth_error (data (next_points info)) i = Some x -> (0 <= x <= 10 # 1)%Q)
    /\
    (forall i row,
        index (next_points info) i = Ok row ->
        shape row = [1%nat] /\ in_domain (Toy.engine true) (data row) /\
        length (data row) = 1%nat).
Proof.
  eexists _, _, _. split; [vm_compute; reflexivity|].
  split; [reflexivity|]. split; [reflexivity|]. split; [reflexivity|].
  edestruct (@optimize_after___init___in_domain _ _ _ Toy.collaborators
               (Toy.engine true) [(0, 10 # 1)]%Q "matern52" "ei" true true
               None "BFGS" "L-BFGS-B" "ml" None false 0%nat 1%nat "uniform" 5
               (Some 7%Z) Toy.world0) as (_ & Hp & _ & Hcell & Hc);
    [vm_compute; reflexivity | vm_compute; reflexivity |].
  split; [exact Hp|].
  split.
  { intros i x Hx.
    destruct (Hcell i 0%nat x) as (lo & hi & Hb & Hin);
      [cbn; lia | cbn [length]; rewrite Nat.mul_1_r, Nat.add_0_r; exact Hx |].
    injection Hb as <- <-. exact Hin. }
  intros i row Hrow. destruct (Hc i row Hrow) as (Hs & Hd & Hl).
  split; [exact Hs|]. split; [exact Hd|]. apply Hl. apply toy_returns_arrays.
Defined.

(** X11 on a round without a seed, which stops at the draw. *)
Lemma optimize_follows_protocol_witness :
  fst (optimize Toy.collaborators (Toy.engine true) 0%nat 1%nat "uniform" 5
         None Toy.world0) = Err TypeError /\
  exists t q,
    trace (snd (optimize Toy.collaborators (Toy.engine true) 0%nat 1%nat
                  "uniform" 5 None Toy.world0)) = trace Toy.world0 ++ t /\
    protocol_run 0 t = Some q.
Proof.
  split; [vm_compute; reflexivity|].
  destruct (@optimize_follows_protocol _ _ _ Toy.collaborators
              (Toy.engine true) 0%nat 1%nat "uniform" 5 None Toy.world0)
    as (t & q & Ht & Hq & _).
  exists t, q. split; [exact Ht | exact Hq].
Defined.

(** X12 on the round with seed 7, the tick counter as the clock: 1 for
    the surrogates, 2 for the acquisition, 6 overall. *)
Lemma optimize_durations_witness :
  exists pt info w',
    optimize Toy.collaborators (Toy.engine true) 0%nat 1%nat "uniform" 5
      (Some 7%Z) Toy.world0 = (Ok (pt, info), w') /\
    time_surrogate info = 1%Q /\ time_acq info = 2%Q /\
    time_overall info = 6%Q /\
    (0 <= time_surrogate info)%Q /\ (0 <= time_acq info)%Q /\
    (time_surrogate info + time_acq info <= time_overall info)%Q.
Proof.
  eexists _, _, _. split; [vm_compute; reflexivity|].
  split; [reflexivity|]. split; [reflexivity|]. split; [reflexivity|].
  eapply (@optimize_durations _ _ _ Toy.collaborators (Toy.engine true)
            Toy.now 0%nat 1%nat "uniform" 5 (Some 7%Z) Toy.world0);
    [apply toy_monotone_clock | vm_compute; reflexivity].
Defined.

(** X13 on the round with seed 7: five candidates, the point is the
    second. *)
Lemma optimize_point_among_candidates_witness :
  exists pt info w',
    optimize Toy.collaborators (Toy.engine true) 0%nat 1%nat "uniform" 5
      (Some 7%Z) Toy.world0 = (Ok (pt, info), w') /\
    shape (next_points info) = [5; 1]%nat /\
    index (next_points info) 1 = Ok pt /\
    exists i, index (next_points info) i = Ok pt.
Proof.
  eexists _, _, _. split; [vm_compute; reflexivity|].
  split; [reflexivity|]. split; [reflexivity|].
  edestruct (@optimize_point_among_candidates _ _ _ Toy.collaborators
               (Toy.engine true) 0%nat 1%nat "uniform" 5 (Some 7%Z)
               Toy.world0)
    as (initials & x & rows & _ & _ & _ & i & _ & Hi);
    [apply toy_returns_arrays | vm_compute; reflexivity |].
  exists i. exact Hi.
Defined.
